(** * Bungee: grain timing and the streaming adapter

    A shallow embedding of [src/Timing.cpp] and [bungee/Stream.h] (with the
    data types of [bungee/Bungee.h]), and the properties of the timing
    arithmetic, of the input sliding window and of the output dithering loop.

    Conventions of the embedding:
    - [int] and [int64_t] values are integers of [Z], and every operation on
      them is followed by the wrap-around of its width ([int32], [int64]),
      which is what the two's complement machine does on overflow;
    - [double] values are the binary64 floats of the kernel ([PrimFloat]),
      so the rounding of every operation is the machine's;
    - pointers into memory owned by the stretcher are addresses that are
      read through the stretcher's state. *)

From Stdlib Require Import ZArith Lia Bool List Floats Uint63.
Import ListNotations.

Local Open Scope Z_scope.

(** ** Machine integers *)

Module Int.

(** Two's complement reading of the low [w] bits of [z]. *)
Definition wrap (w : Z) (z : Z) : Z :=
  (z + 2 ^ (w - 1)) mod 2 ^ w - 2 ^ (w - 1).

Definition int32 (z : Z) : Z := wrap 32 z.
Definition int64 (z : Z) : Z := wrap 64 z.

Definition INT_MIN : Z := - 2 ^ 31.
Definition INT_MAX : Z := 2 ^ 31 - 1.

Definition fits32 (z : Z) : Prop := INT_MIN <= z <= INT_MAX.
Definition fits64 (z : Z) : Prop := - 2 ^ 63 <= z <= 2 ^ 63 - 1.

(** [int] arithmetic: the exact result wrapped to 32 bits. *)
Definition add32 (a b : Z) : Z := int32 (a + b).
Definition sub32 (a b : Z) : Z := int32 (a - b).
Definition mul32 (a b : Z) : Z := int32 (a * b).
Definition div32 (a b : Z) : Z := int32 (Z.quot a b).

End Int.

Import Int.

(** ** Doubles *)

Module Double.

Definition double : Set := float.
Bind Scope float_scope with double.

(** Conversion of an [int] (or [int64_t]) to [double]; exact below 2^53. *)
Definition of_int (z : Z) : double :=
  if z <? 0 then (- of_uint63 (Uint63.of_Z (- z)))%float
  else of_uint63 (Uint63.of_Z z).

(** The integer at which [std::round] lands for the finite float
    [m * 2^e]: the nearest one, halves away from zero (on the magnitude). *)
Definition round_mag (m : positive) (e : Z) : Z :=
  if 0 <=? e then Z.pos m * 2 ^ e
  else
    let d := 2 ^ (- e) in
    let q := Z.pos m / d in
    let r := Z.pos m mod d in
    if d <=? 2 * r then q + 1 else q.

Definition floor_mag (m : positive) (e : Z) : Z :=
  if 0 <=? e then Z.pos m * 2 ^ e else Z.pos m / 2 ^ (- e).

Definition ceil_mag (m : positive) (e : Z) : Z :=
  if 0 <=? e then Z.pos m * 2 ^ e
  else
    let d := 2 ^ (- e) in
    if Z.pos m mod d =? 0 then Z.pos m / d else Z.pos m / d + 1.

(** A signed integer magnitude back as a double; the sign of a zero result
    is the sign of the argument, as in [<cmath>]. *)
Definition signed_int (s : bool) (k : Z) : double :=
  if k =? 0 then (if s then neg_zero else zero)
  else if s then (- of_uint63 (Uint63.of_Z k))%float
  else of_uint63 (Uint63.of_Z k).

(** [std::round]: floats that are integers already (exponent >= 0), zeros,
    infinities and NaN are returned as they are. *)
Definition round (x : double) : double :=
  match Prim2SF x with
  | S754_finite s m e => if 0 <=? e then x else signed_int s (round_mag m e)
  | _ => x
  end.

(** [std::floor] and [std::ceil]. *)
Definition floor (x : double) : double :=
  match Prim2SF x with
  | S754_finite s m e =>
      if 0 <=? e then x
      else if s then signed_int true (ceil_mag m e)
      else signed_int false (floor_mag m e)
  | _ => x
  end.

Definition ceil (x : double) : double :=
  match Prim2SF x with
  | S754_finite s m e =>
      if 0 <=? e then x
      else if s then signed_int true (floor_mag m e)
      else signed_int false (ceil_mag m e)
  | _ => x
  end.

(** Conversion of a [double] to [int]: truncation toward zero.  Outside
    the range of [int] (and for NaN) the conversion is undefined in C++;
    the value taken here is the "integer indefinite" INT_MIN that the
    x86 conversion instruction delivers. *)
Definition to_int (x : double) : Z :=
  match Prim2SF x with
  | S754_zero _ => 0
  | S754_finite s m e =>
      let k := floor_mag m e in
      let v := if s then - k else k in
      if (INT_MIN <=? v) && (v <=? INT_MAX) then v else INT_MIN
  | _ => INT_MIN
  end.

End Double.

Import Double.

(** ** The data model of [Bungee.h] *)

(** Modelled from the spec: [Modes.h] is missing from the sources; the
    enumeration [ResampleMode] ("enumerated strategy for intra-grain
    resampling") is represented by the integer value of its enumerator. *)
Definition ResampleMode : Set := Z.

Record Request : Set := mkRequest {
  position : double;
  speed : double;
  pitch : double;
  reset : bool;
  resampleMode : ResampleMode
}.

Record InputChunk : Set := mkInputChunk {
  chunk_begin : Z;
  chunk_end : Z
}.

Record SampleRates : Set := mkSampleRates {
  input : Z;
  output : Z
}.

(** ** [Timing.cpp] *)

Module Timing.

(** Modelled from the spec: [log2.h] is missing from the sources;
    [log2<true>(x)] is "floor(log2(x))". *)
Definition log2_floor (x : Z) : Z := Z.log2 x.

Record Timing : Set := mkTiming {
  log2SynthesisHop : Z;
  sampleRates : SampleRates
}.

Definition make (sampleRates : SampleRates) (log2SynthesisHopAdjust : Z) : Timing :=
  {| log2SynthesisHop :=
       add32 (sub32 (log2_floor (input sampleRates)) 6) log2SynthesisHopAdjust;
     sampleRates := sampleRates |}.

Definition maxPitchOctaves : Z := 2.

(** [<<] on [int64_t] and on [int]: the shift counts the code uses are
    meaningful in C++ only within [0, width). *)
Definition shl64 (x s : Z) : Z := int64 (Z.shiftl x s).
Definition shl32 (x s : Z) : Z := int32 (Z.shiftl x s).

Definition maxInputFrameCount (t : Timing) : Z :=
  let max :=
    Z.quot
      (shl64 (input (sampleRates t)) (add32 (add32 maxPitchOctaves (log2SynthesisHop t)) 3))
      (output (sampleRates t)) in
  int32 (int64 (max + 1)).

Definition maxOutputFrameCount (t : Timing) : Z :=
  let max :=
    Z.quot
      (shl64 (output (sampleRates t)) (add32 maxPitchOctaves (log2SynthesisHop t)))
      (input (sampleRates t)) in
  int32 (int64 (max + 1)).

Section WithResample.

(** [Resample::Operations().setup] of the missing [Resample.h]: the
    resampling-ratio factor for the given rates, pitch and mode. *)
Variable Resample_setup : SampleRates -> double -> ResampleMode -> double.

Definition calculateInputHop (t : Timing) (request : Request) : double :=
  let unitHop :=
    (of_int (shl32 1 (log2SynthesisHop t))
     * Resample_setup (sampleRates t) (pitch request) (resampleMode request))%float in
  (unitHop * speed request)%float.

Definition preroll (t : Timing) (request : Request) : Request :=
  {| position := (position request - calculateInputHop t request)%float;
     speed := speed request;
     pitch := pitch request;
     reset := true;
     resampleMode := resampleMode request |}.

Definition next (t : Timing) (request : Request) : Request :=
  if negb (is_nan (speed request)) && negb (is_nan (position request)) then
    {| position := (position request + calculateInputHop t request)%float;
       speed := speed request;
       pitch := pitch request;
       reset := false;
       resampleMode := resampleMode request |}
  else request.

End WithResample.

End Timing.

(** ** The stretcher of [Bungee.h] *)

(** Audio samples are 32-bit floats in the code; the adapter only copies
    them and writes zeros, so their arithmetic plays no part. *)
Definition sample : Set := float.

(** A pointer into memory owned by the stretcher: an address, counted in
    elements; [nullptr] is address 0. *)
Definition pointer : Set := Z.
Definition nullptr : pointer := 0.

Record OutputChunk : Set := mkOutputChunk {
  data : pointer;
  frameCount : Z;
  channelStride : Z;
  request_begin : pointer;   (* request[OutputChunk::begin] *)
  request_end : pointer      (* request[OutputChunk::end] *)
}.

(** The function table behind [Stretcher<Edition>], as far as [Stream]
    calls it.  [E] is the engine state ([void *state]).  [analyseGrain]
    receives the caller's sample memory together with the offset of the
    [data] pointer from its start; [requestAt] and [sampleAt] read, in the
    engine's current state, the memory an [OutputChunk] points to. *)
Class Stretcher (E : Type) : Type := {
  maxInputFrameCount : E -> Z;
  specifyGrain : E -> Request -> double -> E * InputChunk;
  analyseGrain : E -> list sample -> Z -> Z -> Z -> Z -> E;
  synthesiseGrain : E -> E * OutputChunk;
  requestAt : E -> pointer -> Request;
  sampleAt : E -> pointer -> sample
}.

(** ** Sample memory: [std::vector<float>] and the caller's arrays *)

Module Mem.

Definition load (buf : list sample) (i : Z) : sample :=
  if i <? 0 then zero else nth (Z.to_nat i) buf zero.

(** A write outside the vector is undefined in C++; here it is dropped. *)
Definition store (buf : list sample) (i : Z) (v : sample) : list sample :=
  if (0 <=? i) && (i <? Z.of_nat (length buf)) then
    firstn (Z.to_nat i) buf ++ v :: skipn (S (Z.to_nat i)) buf
  else buf.

(** [std::move(first, last, d_first)] within one vector, front to back. *)
Fixpoint move_within (len : nat) (src dst : Z) (buf : list sample) : list sample :=
  match len with
  | O => buf
  | S len' => move_within len' (src + 1) (dst + 1) (store buf dst (load buf src))
  end.

(** [std::copy(first, last, d_first)] from a caller's array. *)
Fixpoint copy_from (len : nat) (src : list sample) (from dst : Z) (buf : list sample)
  : list sample :=
  match len with
  | O => buf
  | S len' => copy_from len' src (from + 1) (dst + 1) (store buf dst (load src from))
  end.

(** [std::fill(first, last, value)]. *)
Fixpoint fill (len : nat) (dst : Z) (v : sample) (buf : list sample) : list sample :=
  match len with
  | O => buf
  | S len' => fill len' (dst + 1) v (store buf dst v)
  end.

(** A caller's output array, written front to back: a write at the
    current length extends what has been rendered so far. *)
Definition render (out : list sample) (i : Z) (v : sample) : list sample :=
  if i =? Z.of_nat (length out) then out ++ [v] else store out i v.

Fixpoint render_from {E} `{Stretcher E} (st : E) (len : nat) (src : pointer) (dst : Z)
  (out : list sample) : list sample :=
  match len with
  | O => out
  | S len' => render_from st len' (src + 1) (dst + 1) (render out dst (sampleAt st src))
  end.

End Mem.

(** ** [Stream.h] *)

Module Stream.

Section WithStretcher.

Context {E : Type} `{Stretcher E}.

(** *** [Stream::InputBuffer] *)

Record InputBuffer : Type := mkInputBuffer {
  window_channelStride : Z;
  window_channelCount : Z;
  buffer : list sample;
  window_begin : Z;
  window_end : Z;
  stretcher : E;
  inputChunk : InputChunk
}.

Definition InputBuffer_make (stretcher : E) (maxSampleCount channelCount : Z)
  : InputBuffer :=
  {| window_channelStride := maxSampleCount;
     window_channelCount := channelCount;
     buffer := repeat zero (Z.to_nat (mul32 maxSampleCount channelCount));
     window_begin := 0;
     window_end := 0;
     stretcher := stretcher;
     inputChunk := {| chunk_begin := 0; chunk_end := 0 |} |}.

(** The channels [0 .. channelCount-1]. *)
Definition channels (channelCount : Z) : list Z :=
  map Z.of_nat (seq 0 (Z.to_nat channelCount)).

(** The first loop of [append]: [x] runs over the starts of the channels,
    [0, channelStride, ...], below [buffer.size()]. *)
Definition shift_left (b : InputBuffer) : list sample :=
  fold_left
    (fun buf c =>
       let x := mul32 c (window_channelStride b) in
       Mem.move_within
         (Z.to_nat (sub32 (window_end b) (chunk_begin (inputChunk b))))
         (sub32 (add32 x (chunk_begin (inputChunk b))) (window_begin b))
         x buf)
    (channels (window_channelCount b)) (buffer b).

(** The second loop of [append], with [begin] as the first part of
    [append] leaves it. *)
Definition fill_in (b : InputBuffer) (begin discard inputSampleCount : Z)
  (inputPointers : option (list (list sample))) (buf : list sample) : list sample :=
  fold_left
    (fun buf c =>
       let dst := add32 (sub32 (window_end b) begin) (mul32 c (window_channelStride b)) in
       let len := Z.to_nat (sub32 inputSampleCount discard) in
       match inputPointers with
       | Some pointers => Mem.copy_from len (nth (Z.to_nat c) pointers []) discard dst buf
       | None => Mem.fill len dst zero buf
       end)
    (channels (window_channelCount b)) buf.

Definition append (inputSampleCount : Z) (inputPointers : option (list (list sample)))
  (b : InputBuffer) : InputBuffer :=
  let '(discard, begin, buf) :=
    if chunk_begin (inputChunk b) <? window_end b then
      if window_begin b <? chunk_begin (inputChunk b) then
        (0, chunk_begin (inputChunk b), shift_left b)
      else (0, window_begin b, buffer b)
    else
      (Z.min (sub32 (chunk_begin (inputChunk b)) (window_begin b)) inputSampleCount,
       window_end b, buffer b) in
  {| window_channelStride := window_channelStride b;
     window_channelCount := window_channelCount b;
     buffer := fill_in b begin discard inputSampleCount inputPointers buf;
     window_begin := add32 begin discard;
     window_end := add32 (window_end b) inputSampleCount;
     stretcher := stretcher b;
     inputChunk := inputChunk b |}.

(** The two assertions that close [append]. *)
Definition append_asserts (b : InputBuffer) : bool :=
  (window_begin b <=? window_end b)
  && (sub32 (window_end b) (window_begin b) <=? window_channelStride b).

Definition endPosition (b : InputBuffer) : Z := window_end b.

Definition muteHead (b : InputBuffer) : Z :=
  sub32 (window_begin b) (chunk_begin (inputChunk b)).

Definition muteTail (b : InputBuffer) : Z :=
  sub32 (chunk_end (inputChunk b)) (window_end b).

(** [InputBuffer::analyseGrain] is a [const] member: of the window only
    the engine it refers to moves on. *)
Definition InputBuffer_analyseGrain (b : InputBuffer) : InputBuffer :=
  {| window_channelStride := window_channelStride b;
     window_channelCount := window_channelCount b;
     buffer := buffer b;
     window_begin := window_begin b;
     window_end := window_end b;
     stretcher :=
       analyseGrain (stretcher b) (buffer b) (- muteHead b)
         (window_channelStride b) (muteHead b) (muteTail b);
     inputChunk := inputChunk b |}.

(** The assertion of [InputBuffer::analyseGrain]. *)
Definition analyseGrain_assert (b : InputBuffer) : bool :=
  (sub32 (chunk_end (inputChunk b)) (chunk_begin (inputChunk b)) <=? muteHead b)
  || (muteTail b <=? 0).

Definition with_stretcher (b : InputBuffer) (st : E) : InputBuffer :=
  {| window_channelStride := window_channelStride b;
     window_channelCount := window_channelCount b;
     buffer := buffer b;
     window_begin := window_begin b;
     window_end := window_end b;
     stretcher := st;
     inputChunk := inputChunk b |}.

Definition with_inputChunk (b : InputBuffer) (st : E) (chunk : InputChunk)
  : InputBuffer :=
  {| window_channelStride := window_channelStride b;
     window_channelCount := window_channelCount b;
     buffer := buffer b;
     window_begin := window_begin b;
     window_end := window_end b;
     stretcher := st;
     inputChunk := chunk |}.

(** *** [Stream] *)

Record Stream : Type := mkStream {
  channelCount : Z;
  inputBuffer : InputBuffer;
  request : Request;
  outputChunk : OutputChunk;
  outputChunkConsumed : Z;
  samplesNeeded : double
}.

(** [Request request{}] and [OutputChunk outputChunk{}] are zeroed; the
    constructor then sets the position to NaN. *)
Definition make (stretcher : E) (maxInputSampleCount channelCount : Z) : Stream :=
  {| channelCount := channelCount;
     inputBuffer :=
       InputBuffer_make stretcher
         (add32 (maxInputFrameCount stretcher) maxInputSampleCount) channelCount;
     request :=
       {| position := nan; speed := zero; pitch := zero; reset := false;
          resampleMode := 0 |};
     outputChunk :=
       {| data := nullptr; frameCount := 0; channelStride := 0;
          request_begin := nullptr; request_end := nullptr |};
     outputChunkConsumed := 0;
     samplesNeeded := zero |}.

(** What one call of [process] carries around its loop: the stream, the
    local [sampleCounter], and the caller's output arrays. *)
Record Progress : Type := mkProgress {
  stream : Stream;
  sampleCounter : Z;
  rendered : list (list sample)
}.

(** The position of the next grain (line 145): the [int] part is computed
    in [int], the rest in [double]. *)
Definition grainPosition (s : Stream) (inputSampleCount : Z) (outputSampleCount : double)
  (sampleCounter : Z) : double :=
  let proportionRemainingDenominator := round outputSampleCount in
  let proportionRemainingNumerator :=
    (proportionRemainingDenominator - of_int sampleCounter)%float in
  (of_int (sub32 (endPosition (inputBuffer s))
                 (div32 (maxInputFrameCount (stretcher (inputBuffer s))) 2))
   - of_int inputSampleCount * proportionRemainingNumerator
     / proportionRemainingDenominator)%float.

(** Lines 134-139: the pending grain, if it is a real one, is analysed
    and synthesised into [outputChunk]. *)
Definition synthesisePending (s : Stream) : Stream :=
  if negb (is_nan (position (request s))) then
    let b := InputBuffer_analyseGrain (inputBuffer s) in
    let '(st, chunk) := synthesiseGrain (stretcher b) in
    {| channelCount := channelCount s;
       inputBuffer := with_stretcher b st;
       request := request s;
       outputChunk := chunk;
       outputChunkConsumed := 0;
       samplesNeeded := samplesNeeded s |}
  else s.

(** Lines 145-147: the request of the next grain.  (The unused local
    [proportionRemaining] of line 141 has no effect.) *)
Definition nextRequest (s : Stream) (inputSampleCount : Z) (outputSampleCount : double)
  (sampleCounter : Z) : Request :=
  let position' := grainPosition s inputSampleCount outputSampleCount sampleCounter in
  {| position := position';
     speed := speed (request s);
     pitch := pitch (request s);
     reset := negb (position (request s) <? position')%float;
     resampleMode := resampleMode (request s) |}.

(** The body of [if (processGrain)]; [specifyGrain] is called with its
    default [bufferStartPosition = 0.]. *)
Definition nextGrain (inputSampleCount : Z) (outputSampleCount : double) (p : Progress)
  : Progress :=
  let s1 := synthesisePending (stream p) in
  let request' := nextRequest s1 inputSampleCount outputSampleCount (sampleCounter p) in
  let '(st, chunk) := specifyGrain (stretcher (inputBuffer s1)) request' zero in
  {| stream :=
       {| channelCount := channelCount s1;
          inputBuffer := with_inputChunk (inputBuffer s1) st chunk;
          request := request';
          outputChunk := outputChunk s1;
          outputChunkConsumed := outputChunkConsumed s1;
          samplesNeeded := samplesNeeded s1 |};
     sampleCounter := sampleCounter p;
     rendered := rendered p |}.

(** The guard of the copying step (line 151). *)
Definition chunkValid (s : Stream) : bool :=
  negb (request_begin (outputChunk s) =? nullptr)
  && negb (is_nan (position (requestAt (stretcher (inputBuffer s))
                                       (request_begin (outputChunk s))))).

(** The copying step (lines 153-164). *)
Definition copyOut (p : Progress) : Progress :=
  let s := stream p in
  let need := to_int (round (samplesNeeded s) - of_int (sampleCounter p))%float in
  let available := sub32 (frameCount (outputChunk s)) (outputChunkConsumed s) in
  let n := Z.min need available in
  {| stream :=
       {| channelCount := channelCount s;
          inputBuffer := inputBuffer s;
          request := request s;
          outputChunk := outputChunk s;
          outputChunkConsumed := add32 (outputChunkConsumed s) n;
          samplesNeeded := samplesNeeded s |};
     sampleCounter := add32 (sampleCounter p) n;
     rendered :=
       map (fun c =>
              Mem.render_from (stretcher (inputBuffer s)) (Z.to_nat n)
                (data (outputChunk s) + outputChunkConsumed s
                 + c * channelStride (outputChunk s))
                (sampleCounter p)
                (nth (Z.to_nat c) (rendered p) []))
           (channels (channelCount s)) |}.

(** One turn of the [for] loop. *)
Definition iteration (processGrain : bool) (inputSampleCount : Z)
  (outputSampleCount : double) (p : Progress) : Progress :=
  let p1 := if processGrain then nextGrain inputSampleCount outputSampleCount p else p in
  if chunkValid (stream p1) then copyOut p1 else p1.

(** The loop condition: [sampleCounter != std::round(samplesNeeded)]. *)
Definition unfinished (p : Progress) : bool :=
  negb (of_int (sampleCounter p) =? round (samplesNeeded (stream p)))%float.

(** The [for] loop; [None] when [fuel] turns do not reach its exit. *)
Fixpoint loop (fuel : nat) (processGrain : bool) (inputSampleCount : Z)
  (outputSampleCount : double) (p : Progress) : option Progress :=
  if unfinished p then
    match fuel with
    | O => None
    | S fuel' =>
        loop fuel' true inputSampleCount outputSampleCount
          (iteration processGrain inputSampleCount outputSampleCount p)
    end
  else Some p.

(** The state after at most [k] turns of the loop: where it is left, or
    where [k] turns have brought it. *)
Fixpoint turns (k : nat) (processGrain : bool) (inputSampleCount : Z)
  (outputSampleCount : double) (p : Progress) : Progress :=
  match k with
  | O => p
  | S k' =>
      if unfinished p then
        turns k' true inputSampleCount outputSampleCount
          (iteration processGrain inputSampleCount outputSampleCount p)
      else p
  end.

(** The state in which [process] enters its loop. *)
Definition enter (inputPointers : option (list (list sample)))
  (outputPointers : list (list sample)) (inputSampleCount : Z)
  (outputSampleCount pitch' : double) (s : Stream) : Progress :=
  {| stream :=
       {| channelCount := channelCount s;
          inputBuffer := append inputSampleCount inputPointers (inputBuffer s);
          request :=
            {| position := position (request s);
               speed := (of_int inputSampleCount / outputSampleCount)%float;
               pitch := pitch';
               reset := reset (request s);
               resampleMode := resampleMode (request s) |};
          outputChunk := outputChunk s;
          outputChunkConsumed := outputChunkConsumed s;
          samplesNeeded := (samplesNeeded s + outputSampleCount)%float |};
     sampleCounter := 0;
     rendered := outputPointers |}.

(** What [process] gives back: the stream as the call leaves it, the
    caller's output arrays, and the returned sample count. *)
Record Result : Type := mkResult {
  after : Stream;
  outputs : list (list sample);
  returned : Z
}.

Definition leave (p : Progress) : Result :=
  let s := stream p in
  {| after :=
       {| channelCount := channelCount s;
          inputBuffer := inputBuffer s;
          request := request s;
          outputChunk := outputChunk s;
          outputChunkConsumed := outputChunkConsumed s;
          samplesNeeded := (samplesNeeded s - of_int (sampleCounter p))%float |};
     outputs := rendered p;
     returned := sampleCounter p |}.

Definition process (fuel : nat) (inputPointers : option (list (list sample)))
  (outputPointers : list (list sample)) (inputSampleCount : Z)
  (outputSampleCount pitch' : double) (s : Stream) : option Result :=
  option_map leave
    (loop fuel false inputSampleCount outputSampleCount
       (enter inputPointers outputPointers inputSampleCount outputSampleCount pitch' s)).

(** The assertion that closes [process] (line 168). *)
Definition process_assert (outputSampleCount : double) (sampleCounter : Z) : bool :=
  (of_int sampleCounter =? floor outputSampleCount)%float
  || (of_int sampleCounter =? ceil outputSampleCount)%float.

Definition inputPosition (s : Stream) : Z := endPosition (inputBuffer s).

End WithStretcher.

Arguments InputBuffer E : clear implicits.
Arguments Stream E : clear implicits.
Arguments Progress E : clear implicits.
Arguments Result E : clear implicits.

End Stream.

(** ** Engines used to exercise the adapter *)

(** An engine that behaves as the one it wraps and records every request
    that [specifyGrain] receives, latest first. *)
Record Logged (E : Type) : Type := mkLogged {
  engine : E;
  specified : list Request
}.

Arguments mkLogged {E} _ _.
Arguments engine {E} _.
Arguments specified {E} _.

#[global] Instance Logged_Stretcher {E : Type} `{Stretcher E} : Stretcher (Logged E) := {
  maxInputFrameCount l := maxInputFrameCount (engine l);
  specifyGrain l r bufferStartPosition :=
    let '(e, chunk) := specifyGrain (engine l) r bufferStartPosition in
    (mkLogged e (r :: specified l), chunk);
  analyseGrain l buf offset stride head tail :=
    mkLogged (analyseGrain (engine l) buf offset stride head tail) (specified l);
  synthesiseGrain l :=
    let '(e, chunk) := synthesiseGrain (engine l) in (mkLogged e (specified l), chunk);
  requestAt l p := requestAt (engine l) p;
  sampleAt l p := sampleAt (engine l) p
}.

(** A small engine: every grain spans the two frames around its position
    (none for a NaN position), every synthesised chunk holds three silent
    frames and lies between the two grains specified last, and at most four
    input frames are ever asked for. *)
Module TestEngine.

Record t : Set := mk {
  grain : Request;       (* the grain specified last *)
  previous : Request;    (* the grain specified before it *)
  chunk_from : Request;  (* request[0] of the chunk synthesised last *)
  chunk_to : Request     (* request[1] of the chunk synthesised last *)
}.

Definition flush : Request :=
  {| position := nan; speed := zero; pitch := zero; reset := false; resampleMode := 0 |}.

Definition fresh : t :=
  {| grain := flush; previous := flush; chunk_from := flush; chunk_to := flush |}.

Definition chunkOf (r : Request) : InputChunk :=
  if is_nan (position r) then {| chunk_begin := 0; chunk_end := 0 |}
  else {| chunk_begin := sub32 (to_int (round (position r))) 1;
          chunk_end := add32 (to_int (round (position r))) 1 |}.

#[global] Instance stretcher : Stretcher t := {
  maxInputFrameCount _ := 4;
  specifyGrain e r _ :=
    ({| grain := r; previous := grain e;
        chunk_from := chunk_from e; chunk_to := chunk_to e |}, chunkOf r);
  analyseGrain e _ _ _ _ _ := e;
  synthesiseGrain e :=
    ({| grain := grain e; previous := previous e;
        chunk_from := previous e; chunk_to := grain e |},
     {| data := 16; frameCount := 3; channelStride := 3;
        request_begin := 1; request_end := 2 |});
  requestAt e p := if p =? 1 then chunk_from e else chunk_to e;
  sampleAt _ _ := zero
}.

End TestEngine.

(** A sequence of calls of [process] on one stream. *)
Module Run.

Record Call : Set := mkCall {
  fuel : nat;
  inputPointers : option (list (list sample));
  outputPointers : list (list sample);
  inputSampleCount : Z;
  outputSampleCount : double;
  pitchShift : double   (* the parameter [pitch] *)
}.

Section WithStretcher.

Context {E : Type} `{Stretcher E}.

(** The state in which the call [c] enters its loop, and the state [k]
    turns later (or where the loop is left, if that comes first). *)
Definition entering (c : Call) (s : Stream.Stream E) : Stream.Progress E :=
  Stream.enter (inputPointers c) (outputPointers c) (inputSampleCount c)
    (outputSampleCount c) (pitchShift c) s.

Definition during (c : Call) (k : nat) (s : Stream.Stream E) : Stream.Progress E :=
  Stream.turns k false (inputSampleCount c) (outputSampleCount c) (entering c s).

Definition call (c : Call) (s : Stream.Stream E) : option (Stream.Result E) :=
  Stream.process (fuel c) (inputPointers c) (outputPointers c) (inputSampleCount c)
    (outputSampleCount c) (pitchShift c) s.

(** The stream after all the calls, if each of them returns. *)
Fixpoint run (calls : list Call) (s : Stream.Stream E) : option (Stream.Stream E) :=
  match calls with
  | [] => Some s
  | c :: calls' =>
      match call c s with
      | Some r => run calls' (Stream.after r)
      | None => None
      end
  end.

End WithStretcher.

(** A call that feeds [n] frames of silence on one channel. *)
Definition silence (fuel : nat) (n : Z) (outputSampleCount : double) : Call :=
  {| fuel := fuel; inputPointers := None; outputPointers := [[]];
     inputSampleCount := n; outputSampleCount := outputSampleCount; pitchShift := one |}.

End Run.

(** What the record of a [Logged] engine should look like: every request
    carries [reset] exactly when its position is not above the position of
    the request before it, the first one being compared with the NaN that
    the constructor leaves in [request.position]. *)
Module Trace.

Definition lastPosition (log : list Request) : double :=
  match log with
  | [] => nan
  | r :: _ => position r
  end.

Fixpoint resetsFollow (log : list Request) : Prop :=
  match log with
  | [] => True
  | r :: log' =>
      reset r = negb (lastPosition log' <? position r)%float /\ resetsFollow log'
  end.

End Trace.

(** ** The vocabulary of the properties *)

Module TimingSpec.

Import Timing.

(** The configurations in which every shift of [Timing.cpp] is defined and
    exact in its type: both rates are positive [int]s, and the adjustment
    keeps [log2SynthesisHop] within [0, 26]. *)
Definition supported (sr : SampleRates) (log2SynthesisHopAdjust : Z) : Prop :=
  0 < input sr <= INT_MAX /\ 0 < output sr <= INT_MAX /\
  0 <= log2_floor (input sr) - 6 + log2SynthesisHopAdjust <= 26.

(** The bounds as the spec writes them, over the integers. *)
Definition inputFrameBound (sr : SampleRates) (log2SynthesisHop : Z) : Z :=
  Z.shiftl (input sr) (maxPitchOctaves + log2SynthesisHop + 3) / output sr + 1.

Definition outputFrameBound (sr : SampleRates) (log2SynthesisHop : Z) : Z :=
  Z.shiftl (output sr) (maxPitchOctaves + log2SynthesisHop) / input sr + 1.

End TimingSpec.

(** Doubles as Rocq specifies them: sign, mantissa and exponent. *)
Module Binary64.

(** The mantissa shifted left by [n] bits (by none when [n <= 0]). *)
Definition shl (m : positive) (n : Z) : positive :=
  match n with
  | Z.pos d => Pos.iter xO m d
  | _ => m
  end.

(** The exponent of the canonical representation of a mantissa of [d] bits at exponent [e]. *)
Definition cexp (d e : Z) : Z := Z.max (d + e - 53) (-1074).

(** The double of a positive integer below 2^53. *)
Definition SF_of_pos (s : bool) (p : positive) : spec_float :=
  S754_finite s (shl p (53 - Z.pos (digits2_pos p))) (Z.pos (digits2_pos p) - 53).

Definition SF_of_Z (k : Z) : spec_float :=
  match k with
  | 0 => S754_zero false
  | Z.pos p => SF_of_pos false p
  | Z.neg p => SF_of_pos true p
  end.

Definition SF_half : spec_float := S754_finite false 4503599627370496 (-53).

End Binary64.

(** The inputs at which the properties are exercised. *)
Module Samples.

Import Stream Run.

(** The factor of a grain that needs no resampling. *)
Definition unit_ratio (_ : SampleRates) (_ : double) (_ : ResampleMode) : double := one.

Definition cd_rates : SampleRates := {| input := 44100; output := 44100 |}.

Definition whole_request : Request :=
  {| position := 1000%float; speed := one; pitch := one; reset := false; resampleMode := 0 |}.

Definition tenth_request : Request :=
  {| position := 0x1.999999999999ap-4%float; speed := one; pitch := one; reset := false;
     resampleMode := 0 |}.

Definition wide_rates : SampleRates := {| input := 65536; output := 1 |}.

Definition narrow_rates : SampleRates := {| input := 65535; output := 1 |}.

Definition small_stream : Stream TestEngine.t := Stream.make TestEngine.fresh 4 1.

(** The window after two calls that each feed four frames and ask for an
    eighth of a sample: no grain has been asked for yet. *)
Definition full_window : option (InputBuffer TestEngine.t) :=
  option_map inputBuffer
    (run [silence 0 4 0.125; silence 0 4 0.125] small_stream).

(** Three blocks of four frames at speed 1 on the small engine. *)
Definition three_blocks : list Call :=
  [silence 20 4 4; silence 20 4 4; silence 20 4 4].

Definition logged_stream : Stream (Logged TestEngine.t) :=
  match run three_blocks (make (mkLogged TestEngine.fresh []) 4 1) with
  | Some s => s
  | None => make (mkLogged TestEngine.fresh []) 4 1
  end.

(** The largest double below three and a half. *)
Definition below_half_past_three : double := 0x1.bffffffffffffp+1.

Definition two_fifths : double := 0x1.999999999999ap-2.

(** Five blocks of four frames, four and a half samples wanted for each. *)
Definition dithered_blocks : list Call :=
  [silence 20 4 4.5; silence 20 4 4.5; silence 20 4 4.5; silence 20 4 4.5;
   silence 20 4 4.5].

(** A window with a block in it and a grain one frame into the block:
    the small stream after four frames of input for three samples, and
    then three more samples for no input. *)
Definition overlapped_window : InputBuffer TestEngine.t :=
  match run [silence 20 4 3; silence 20 0 3] small_stream with
  | Some s => inputBuffer s
  | None => inputBuffer small_stream
  end.

End Samples.

Module Invariants.

Import Stream Trace Samples.

(** A remainder within one half, either way. *)
Definition withinHalf (x : double) : Prop :=
  (-0.5 <=? x)%float = true /\ (x <=? 0.5)%float = true.

Section WithStretcher.

Context {E : Type} `{Stretcher E}.

(** The invariant of a stream over a logging engine. *)
Definition recorded (s : Stream (Logged E)) : Prop :=
  resetsFollow (specified (stretcher (inputBuffer s)))
  /\ position (request s) = lastPosition (specified (stretcher (inputBuffer s))).

(** A call that asks for two fifths of a sample when the accumulator
    holds two fifths already, and no grain has been specified yet. *)
Definition stalled (p : Progress E) : Prop :=
  sampleCounter p = 0
  /\ samplesNeeded (stream p) = (zero + two_fifths - of_int 0 + two_fifths)%float
  /\ is_nan (position (request (stream p))) = true
  /\ request_begin (outputChunk (stream p)) = nullptr.

End WithStretcher.

End Invariants.

(** The samples asked for and the samples given, added up over a run. *)
Module Totals.

Import Stream Run.

(** The exact value of a double in units of 2^-q: [x * 2^q], when [x] is
    finite and that is an integer. *)
Definition scaled (q : Z) (x : double) : option Z :=
  match Prim2SF x with
  | S754_zero _ => Some 0
  | S754_finite s m e =>
      if 0 <=? e + q then Some (cond_Zopp s (Z.pos m * 2 ^ (e + q)))
      else if Z.pos m mod 2 ^ (- (e + q)) =? 0
           then Some (cond_Zopp s (Z.pos m / 2 ^ (- (e + q))))
           else None
  | _ => None
  end.

(** The sum of the [outputSampleCount]s of the calls, in units of 2^-q. *)
Fixpoint requested (q : Z) (calls : list Call) : option Z :=
  match calls with
  | [] => Some 0
  | c :: calls' =>
      match scaled q (outputSampleCount c), requested q calls' with
      | Some k, Some t => Some (k + t)
      | _, _ => None
      end
  end.


Section WithStretcher.

Context {E : Type} `{Stretcher E}.

(** The number of samples that the calls return in all, if each of them
    returns. *)
Fixpoint emitted (calls : list Call) (s : Stream E) : option Z :=
  match calls with
  | [] => Some 0
  | c :: calls' =>
      match call c s with
      | Some r =>
          match emitted calls' (after r) with
          | Some n => Some (returned r + n)
          | None => None
          end
      | None => None
      end
  end.

End WithStretcher.

End Totals.

(** Runs at which the totals are looked at. *)
Module TotalsSamples.

Import Stream Run Samples.

(** A stream made for blocks of eight frames. *)
Definition roomy_stream : Stream TestEngine.t := Stream.make TestEngine.fresh 8 1.

(** 2^-53 of a sample. *)
Definition sliver : double := 0x1p-53.

(** Playback at rest: no input, a sliver of a sample asked for, then
    three samples. *)
Definition paused_pair : list Call := [silence 20 0 sliver; silence 20 0 3].

(** A block of four frames for three samples, and four pairs at rest. *)
Definition warm_up : list Call :=
  silence 20 4 3 :: paused_pair ++ paused_pair ++ paused_pair ++ paused_pair.

Definition steady_stream : Stream TestEngine.t :=
  match run warm_up small_stream with
  | Some s => s
  | None => small_stream
  end.


End TotalsSamples.

(** * More of the code *)

(** ** The input window, frame by frame *)

(** The frames of the window, by their absolute position in the track. *)
Module Window.

Import Stream.

Section WithStretcher.

Context {E : Type} `{Stretcher E}.




End WithStretcher.

End Window.

(** *** The queries of [Stream] *)

Module StreamQueries.

Import Stream.

Section WithStretcher.

Context {E : Type} `{Stretcher E}.

(** [Stream::outputPosition] reads through [outputChunk.request[0]] and
    [request[1]]; both are null until a grain has been synthesised, and
    there is no value then. *)
Definition outputPosition (s : Stream E) : option double :=
  let chunk := outputChunk s in
  if (request_begin chunk =? nullptr) || (request_end chunk =? nullptr) then None
  else
    let p0 := position (requestAt (stretcher (inputBuffer s)) (request_begin chunk)) in
    let p1 := position (requestAt (stretcher (inputBuffer s)) (request_end chunk)) in
    Some (p0 + of_int (outputChunkConsumed s) * (p1 - p0) / of_int (frameCount chunk))%float.

(** [Stream::latency]. *)
Definition latency (s : Stream E) : option double :=
  option_map (fun p => (of_int (inputPosition s) - p)%float) (outputPosition s).

End WithStretcher.

End StreamQueries.

(** An engine that behaves as the one it wraps and records the calls it
    receives, latest first. *)
Inductive Event : Set :=
| Specified (r : Request)
| Analysed
| Synthesised.

Record Traced (E : Type) : Type := mkTraced {
  traced : E;
  events : list Event
}.

Arguments mkTraced {E} _ _.
Arguments traced {E} _.
Arguments events {E} _.

#[global] Instance Traced_Stretcher {E : Type} `{Stretcher E} : Stretcher (Traced E) := {
  maxInputFrameCount t := maxInputFrameCount (traced t);
  specifyGrain t r bufferStartPosition :=
    let '(e, chunk) := specifyGrain (traced t) r bufferStartPosition in
    (mkTraced e (Specified r :: events t), chunk);
  analyseGrain t buf offset stride head tail :=
    mkTraced (analyseGrain (traced t) buf offset stride head tail) (Analysed :: events t);
  synthesiseGrain t :=
    let '(e, chunk) := synthesiseGrain (traced t) in
    (mkTraced e (Synthesised :: events t), chunk);
  requestAt t p := requestAt (traced t) p;
  sampleAt t p := sampleAt (traced t) p
}.

(** The order of the grain protocol, on a record that is latest first. *)
Module Protocol.




End Protocol.

Module Demand.

Import Stream Run.

(** The frames fed by a sequence of calls. *)
Definition fedFrames (calls : list Call) : Z :=
  fold_right (fun c total => inputSampleCount c + total) 0 calls.

Section WithStretcher.

Context {E : Type} `{Stretcher E}.

(** An engine whose chunks hold a number of frames that is not negative. *)
Definition sized : Prop :=
  forall st : E, 0 <= frameCount (snd (synthesiseGrain st)) <= INT_MAX.

(** The part of the current chunk that has been handed out lies within it. *)
Definition drawn (s : Stream E) : Prop :=
  0 <= outputChunkConsumed s <= frameCount (outputChunk s)
  /\ frameCount (outputChunk s) <= INT_MAX.


(** What the loop of a call keeps while [K] samples are wanted of it. *)
Definition rendering (K : Z) (x : double) (cc : Z) (p : Progress E) : Prop :=
  0 <= sampleCounter p <= K
  /\ samplesNeeded (stream p) = x
  /\ channelCount (stream p) = cc
  /\ drawn (stream p)
  /\ length (rendered p) = Z.to_nat cc
  /\ Forall (fun out => Z.of_nat (length out) = sampleCounter p) (rendered p).

(** The requests recorded since the stream was in state [s], all of them
    with the speed, pitch and resampling mode given. *)
Definition requesting (s : Stream (Logged E)) (speed' pitch' : double) (mode : ResampleMode)
  (s1 : Stream (Logged E)) : Prop :=
  speed (request s1) = speed' /\ pitch (request s1) = pitch'
  /\ resampleMode (request s1) = mode
  /\ exists newer,
       specified (stretcher (inputBuffer s1)) = newer ++ specified (stretcher (inputBuffer s))
       /\ Forall (fun r => speed r = speed' /\ pitch r = pitch' /\ resampleMode r = mode)
            newer.

End WithStretcher.

End Demand.

(** More inputs at which the properties are exercised. *)
Module StreamSamples.

Import Stream Run Samples.

(** A stream on the small engine, three blocks in, with the grain that is
    pending just synthesised. *)
Definition fresh_chunk : Stream TestEngine.t :=
  match run three_blocks small_stream with
  | Some s => synthesisePending s
  | None => small_stream
  end.


End StreamSamples.

(** The rates of audio: the range that the command-line tool of the
    repository accepts for either rate ([CommandLine.h], lines 228 and
    236), and the range it accepts for the grain adjustment (line 114). *)
Module AudioRates.

Definition audible (rate : Z) : Prop := 8000 <= rate <= 192000.

Definition adjustable (log2SynthesisHopAdjust : Z) : Prop :=
  -1 <= log2SynthesisHopAdjust <= 1.

(** A grain at rest. *)
Definition resting_request : Request :=
  {| position := 1000%float; speed := zero; pitch := one; reset := false; resampleMode := 0 |}.

End AudioRates.

(** ** [CommandLine.h]: the audio file behind the command-line tool *)

(** Single precision.  A C++ [float] is kept as its 32 bits, which is all
    that [std::bit_cast] and the copies of samples see; its arithmetic is
    that of the binary32 format, through [decode] and [encode]. *)
Module Single.

Definition float32 : Set := Z.

Definition prec : Z := 24.
Definition emax : Z := 128.

Definition decode (bits : float32) : spec_float :=
  let s := Z.testbit bits 31 in
  let e := Z.shiftr bits 23 mod 256 in
  let m := bits mod 2 ^ 23 in
  if e =? 0 then
    match m with
    | Z.pos p => S754_finite s p (-149)
    | _ => S754_zero s
    end
  else if e =? 255 then (if m =? 0 then S754_infinity s else S754_nan)
  else
    match m + 2 ^ 23 with
    | Z.pos p => S754_finite s p (e - 150)
    | _ => S754_nan
    end.

(** The bits of a value; a NaN, which no conversion of this file
    produces, is given the bits of the default quiet NaN. *)
Definition encode (x : spec_float) : float32 :=
  let sign (s : bool) := if s then 2 ^ 31 else 0 in
  match x with
  | S754_zero s => sign s
  | S754_infinity s => sign s + 255 * 2 ^ 23
  | S754_nan => 0x7fc00000
  | S754_finite s m e =>
      if Z.pos m <? 2 ^ 23 then sign s + Z.pos m
      else sign s + (e + 150) * 2 ^ 23 + (Z.pos m - 2 ^ 23)
  end.

(** Conversion of an integer to [float], to the nearest, ties to even. *)
Definition of_int (z : Z) : spec_float := binary_normalize prec emax z 0 false.

Definition mul : spec_float -> spec_float -> spec_float := SFmul prec emax.
Definition div : spec_float -> spec_float -> spec_float := SFdiv prec emax.
Definition ldexp : spec_float -> Z -> spec_float := SFldexp prec emax.

(** [std::round] on a [float]. *)
Definition round (x : spec_float) : spec_float :=
  match x with
  | S754_finite s m e =>
      if 0 <=? e then x
      else
        match round_mag m e with
        | Z.pos k => binary_normalize prec emax (if s then Z.neg k else Z.pos k) 0 s
        | _ => S754_zero s
        end
  | _ => x
  end.

(** The integer part of a [float], toward zero; none for an infinity or a NaN. *)
Definition truncate (x : spec_float) : option Z :=
  match x with
  | S754_zero _ => Some 0
  | S754_finite s m e => Some (if s then - floor_mag m e else floor_mag m e)
  | _ => None
  end.

End Single.

Module CommandLine.

Import Single.

(** *** Fallible steps: [None] is undefined behaviour (an access outside a
    vector, a division by zero, a conversion that does not fit). *)

Definition bind {A B : Type} (x : option A) (f : A -> option B) : option B :=
  match x with
  | Some a => f a
  | None => None
  end.

Notation "x <- e ;; f" := (bind e (fun x => f))
  (at level 61, e at next level, right associativity).

Definition get {A : Type} (l : list A) (i : Z) : option A :=
  if i <? 0 then None else nth_error l (Z.to_nat i).

Definition set {A : Type} (l : list A) (i : Z) (v : A) : option (list A) :=
  if (0 <=? i) && (i <? Z.of_nat (length l)) then
    Some (firstn (Z.to_nat i) l ++ v :: skipn (S (Z.to_nat i)) l)
  else None.

(** [0, 1, ..., n-1]: the values of a loop counter. *)
Definition upto (n : Z) : list Z := map Z.of_nat (seq 0 (Z.to_nat n)).

(** A [for] loop whose body may fail. *)
Definition loop {St : Type} (n : Z) (body : St -> Z -> option St) (s : St) : option St :=
  fold_left (fun acc i => st <- acc ;; body st i) (upto n) (Some s).

(** *** The integer types that are read and written *)

Inductive IntType : Set := uint16_t | int16_t | uint32_t | int32_t.

Definition sizeof (t : IntType) : Z :=
  match t with
  | uint16_t | int16_t => 2
  | uint32_t | int32_t => 4
  end.

(** Conversion to the type: modulo 2^width. *)
Definition convert (t : IntType) (z : Z) : Z :=
  match t with
  | uint16_t => z mod 2 ^ 16
  | int16_t => wrap 16 z
  | uint32_t => z mod 2 ^ 32
  | int32_t => wrap 32 z
  end.

(** The type in which an operand of the type is computed with: [int],
    except for [uint32_t]. *)
Definition promoted (t : IntType) : IntType :=
  match t with
  | uint32_t => uint32_t
  | _ => int32_t
  end.

Definition numeric_min (t : IntType) : Z :=
  match t with
  | uint16_t | uint32_t => 0
  | int16_t => - 2 ^ 15
  | int32_t => - 2 ^ 31
  end.

Definition numeric_max (t : IntType) : Z :=
  match t with
  | uint16_t => 2 ^ 16 - 1
  | int16_t => 2 ^ 15 - 1
  | uint32_t => 2 ^ 32 - 1
  | int32_t => 2 ^ 31 - 1
  end.

Definition width (t : IntType) : Z := 8 * sizeof t.

(** The values of the type. *)
Definition representable (t : IntType) (v : Z) : Prop :=
  numeric_min t <= v <= numeric_max t.

Section WithChar.

(** Whether plain [char] is signed is up to the platform. *)
Variable char_is_signed : bool.

Definition char : Set := Z.

Definition to_char (z : Z) : char :=
  if char_is_signed then wrap 8 z else z mod 2 ^ 8.

(** The values of [char]. *)
Definition is_char (c : Z) : Prop := to_char c = c.

(** [Processor::read<Type>] for the integer types: little endian. *)
Definition read (t : IntType) (data : list char) (at_ : Z) : option Z :=
  loop (sizeof t)
    (fun value i =>
       c <- get data (at_ + i) ;;
       Some (convert t
               (Z.lor value
                  (convert (promoted t)
                     (Z.shiftl (Z.land (convert t c) 0xff) (8 * i))))))
    0.

(** [Processor::write<Type>] for the integer types. *)
Definition write (t : IntType) (data : list char) (at_ : Z) (value : Z)
  : option (list char) :=
  loop (sizeof t)
    (fun data i => set data (at_ + i) (to_char (Z.shiftr value (8 * i))))
    data.

(** *** The formats of a sample *)

Inductive Sample : Set := Int16 | Int32 | Float.

(** The integer type through which a sample is read and written: for
    [float], [read] and [write] go through [uint32_t] and
    [std::bit_cast]. *)
Definition stored (t : Sample) : IntType :=
  match t with
  | Int16 => int16_t
  | Int32 => int32_t
  | Float => uint32_t
  end.

Definition sample_size (t : Sample) : Z := sizeof (stored t).

(** The factor [k] of [toFloat]: [-1.f / std::numeric_limits<Sample>::min()]. *)
Definition scale (t : IntType) : spec_float :=
  Single.div (SFopp (Single.of_int 1)) (Single.of_int (numeric_min t)).

(** [Processor::toFloat<Sample>]. *)
Definition toFloat (t : Sample) (x : Z) : float32 :=
  match t with
  | Float => x
  | _ => encode (Single.mul (scale (stored t)) (Single.of_int x))
  end.

(** [Processor::fromFloat<Sample>]; the closing [static_cast] is undefined
    for a value that the sample type does not hold. *)
Definition fromFloat (t : Sample) (x : float32) : option Z :=
  match t with
  | Float => Some x
  | _ =>
      let lowest := numeric_min (stored t) in
      let x1 := Single.ldexp (decode x) (8 * sample_size t - 1) in
      let x2 := Single.round x1 in
      if SFltb x2 (Single.of_int lowest) then Some lowest
      else if SFleb (SFopp (Single.of_int lowest)) x2 then Some (numeric_max (stored t))
      else
        v <- truncate x2 ;;
        if (lowest <=? v) && (v <=? numeric_max (stored t)) then Some v else None
  end.

(** *** [Processor] *)

(** The members of [Processor] but for the two file streams; [o] is the
    offset of the iterator into [wavData]. *)
Record Processor : Set := mkProcessor {
  wavHeader : list char;
  wavData : list char;
  o : Z;
  sampleRates : SampleRates;
  inputFrameCount : Z;
  inputChannelStride : Z;
  sampleFormat : Z;
  channelCount : Z;
  bitsPerSample : Z;
  inputBuffer : list float32
}.

Definition with_output (p : Processor) (wavData' : list char) (o' : Z) : Processor :=
  {| wavHeader := wavHeader p; wavData := wavData'; o := o';
     sampleRates := sampleRates p; inputFrameCount := inputFrameCount p;
     inputChannelStride := inputChannelStride p; sampleFormat := sampleFormat p;
     channelCount := channelCount p; bitsPerSample := bitsPerSample p;
     inputBuffer := inputBuffer p |}.

Definition with_inputBuffer (p : Processor) (inputBuffer' : list float32) : Processor :=
  {| wavHeader := wavHeader p; wavData := wavData p; o := o p;
     sampleRates := sampleRates p; inputFrameCount := inputFrameCount p;
     inputChannelStride := inputChannelStride p; sampleFormat := sampleFormat p;
     channelCount := channelCount p; bitsPerSample := bitsPerSample p;
     inputBuffer := inputBuffer' |}.

(** [Processor::restart]. *)
Definition restart (p : Processor) (request : Request) : Processor * Request :=
  (with_output p (wavData p) 0,
   {| position :=
        if (speed request <? 0)%float then Double.of_int (sub32 (inputFrameCount p) 1)
        else 0%float;
      speed := speed request;
      pitch := pitch request;
      reset := reset request;
      resampleMode := resampleMode request |}).

(** [Processor::getInputAudio(InputChunk)]: the offset into [inputBuffer]
    of the pointer it returns. *)
Definition getInputAudio_pointer (_ : Processor) (inputChunk : InputChunk) : Z :=
  chunk_begin inputChunk.

(** [Processor::getInputAudio(float *, int, int, int)]; [out] is the
    caller's array behind [p]. *)
Definition getInputAudio (p : Processor) (out : list float32)
  (stride position_ length_ : Z) : option (list float32) :=
  loop (channelCount p)
    (fun out c =>
       loop length_
         (fun out i =>
            if (0 <=? add32 position_ i) && (add32 position_ i <? inputFrameCount p) then
              v <- get (inputBuffer p)
                     (add32 (add32 (mul32 c (inputChannelStride p)) position_) i) ;;
              set out (add32 (mul32 c stride) i) v
            else set out (add32 (mul32 c stride) i) 0)
         out)
    out.

(** [Processor::readInputAudio<Sample>]. *)
Definition readInputAudio (t : Sample) (p : Processor) : option Processor :=
  loop (inputFrameCount p)
    (fun p i =>
       loop (channelCount p)
         (fun p c =>
            x <- read (stored t) (wavData p)
                   (add32 (mul32 i (channelCount p)) c * sample_size t) ;;
            buf <- set (inputBuffer p) (add32 (mul32 c (inputChannelStride p)) i)
                     (toFloat t x) ;;
            Some (with_inputBuffer p buf))
         p)
    p.

Section WithChunkMemory.

(** The memory that an [OutputChunk] points into: the audio behind [data]
    and the two requests behind [request]. *)
Variable audioAt : pointer -> float32.
Variable requestAt : pointer -> Request.

(** [Processor::writeSamples<Sample>]: the processor as it is left, and
    whether [wavData] is full. *)
Definition writeSamples (t : Sample) (p : Processor) (chunk : OutputChunk)
  : option (Processor * bool) :=
  let count :=
    Z.min (mul32 (frameCount chunk) (channelCount p))
          (int32 (((Z.of_nat (length (wavData p)) - o p) mod 2 ^ 64) / sample_size t)) in
  if channelCount p =? 0 then None
  else
    p' <- loop (Z.quot count (channelCount p))
            (fun p f =>
               loop (channelCount p)
                 (fun p c =>
                    v <- fromFloat t
                           (audioAt (data chunk + int64 (f + int64 (c * channelStride chunk)))) ;;
                    bytes <- write (stored t) (wavData p) (o p) v ;;
                    Some (with_output p bytes (o p + sample_size t)))
                 p)
            p ;;
    Some (p', o p' =? Z.of_nat (length (wavData p'))).

(** [Processor::writeChunk]. *)
Definition writeChunk (p : Processor) (chunk : OutputChunk) : option (Processor * bool) :=
  if sampleFormat p =? 3 then writeSamples Float p chunk
  else if bitsPerSample p =? 32 then writeSamples Int32 p chunk
  else writeSamples Int16 p chunk.

(** [Processor::write(OutputChunk)]: the chunk without the frames that
    lead in to the start of the track is written. *)
Definition writeOutput (p : Processor) (chunk : OutputChunk) : option (Processor * bool) :=
  let positionBegin := position (requestAt (request_begin chunk)) in
  let positionEnd := position (requestAt (request_end chunk)) in
  if negb (is_nan positionBegin) && negb (positionBegin =? positionEnd)%float then
    let nPrerollInput :=
      if (speed (requestAt (request_begin chunk)) <? 0)%float
      then (positionBegin - Double.of_int (inputFrameCount p) + Double.of_int 1)%float
      else (- positionBegin)%float in
    let nPrerollInput := Double.of_int (Z.max 0 (to_int (Double.round nPrerollInput))) in
    let nPrerollOutput :=
      to_int (Double.round
                (nPrerollInput
                 * (Double.of_int (frameCount chunk) / abs (positionEnd - positionBegin))))%float in
    if nPrerollOutput <? frameCount chunk then
      writeChunk p
        {| data := data chunk + nPrerollOutput;
           frameCount := sub32 (frameCount chunk) nPrerollOutput;
           channelStride := channelStride chunk;
           request_begin := request_begin chunk;
           request_end := request_end chunk |}
    else Some (p, false)
  else Some (p, false).

End WithChunkMemory.

(** [Processor::writeOutputFile]: the header as it is patched, and the
    bytes that go to the output file. *)
Definition writeOutputFile (p : Processor) : option (Processor * list char) :=
  let size := Z.of_nat (length (wavHeader p)) in
  h <- write uint32_t (wavHeader p) 4
         (convert uint32_t (size + Z.of_nat (length (wavData p)) - 8)) ;;
  h <- write uint32_t h 24 (convert uint32_t (output (sampleRates p))) ;;
  h <- write uint32_t h 28
         (convert uint32_t
            (div32 (mul32 (mul32 (output (sampleRates p)) (channelCount p))
                      (bitsPerSample p)) 8)) ;;
  h <- write uint32_t h (size - 4) (convert uint32_t (Z.of_nat (length (wavData p)))) ;;
  Some ({| wavHeader := h; wavData := wavData p; o := o p;
           sampleRates := sampleRates p; inputFrameCount := inputFrameCount p;
           inputChannelStride := inputChannelStride p; sampleFormat := sampleFormat p;
           channelCount := channelCount p; bitsPerSample := bitsPerSample p;
           inputBuffer := inputBuffer p |},
        h ++ wavData p).

End WithChar.

End CommandLine.

(** What the functions of [Processor] are to achieve. *)
Module ProcessorSpec.

Import Single CommandLine.

(** The char at offset [j] of the value that is read or written. *)
Definition byte (data : list char) (at_ j : Z) : Z :=
  match get data (at_ + j) with
  | Some c => c
  | None => 0
  end.

Section WithChunkMemory.

Variable audioAt : pointer -> float32.

(** The sample that [writeSamples] takes for channel [c] of frame [f]. *)
Definition taken (t : Sample) (chunk : OutputChunk) (f c : Z) : option Z :=
  fromFloat t (audioAt (data chunk + int64 (f + int64 (c * channelStride chunk)))).

(** [n] samples into [writeSamples]: the iterator [o] has advanced by
    [n] samples; the chars behind it hold, frame by frame and channel by
    channel, the samples taken from the chunk; [wavData] has its length,
    and the chars before the first and from the iterator on are as they
    were; nothing else of the processor has changed. *)
Definition written (t : Sample) (p : Processor) (chunk : OutputChunk) (n : Z)
  (st : Processor) : Prop :=
  exists bytes,
    st = with_output p bytes (o p + n * sample_size t)
    /\ length bytes = length (wavData p)
    /\ (forall j, ~ o p <= j < o p + n * sample_size t -> get bytes j = get (wavData p) j)
    /\ forall f c,
         0 <= f -> 0 <= c < channelCount p -> f * channelCount p + c < n ->
         read (stored t) bytes (o p + (f * channelCount p + c) * sample_size t)
         = taken t chunk f c.

End WithChunkMemory.

End ProcessorSpec.

(** A small audio file to exercise [Processor]: three frames of two
    channels of 16-bit samples behind a header of 44 bytes, on a platform
    where [char] is signed. *)
Module ProcessorSamples.

Import Single CommandLine.

Definition tiny : Processor :=
  {| wavHeader :=
       [82; 73; 70; 70; 48; 0; 0; 0; 87; 65; 86; 69;
        102; 109; 116; 32; 16; 0; 0; 0; 1; 0; 2; 0;
        68; -84; 0; 0; 16; -79; 2; 0; 4; 0; 16; 0;
        100; 97; 116; 97; 12; 0; 0; 0];
     wavData := [1; 0; -1; -1; 0; 1; 0; -1; -1; 127; 0; -128];
     o := 0;
     sampleRates := {| input := 44100; output := 44100 |};
     inputFrameCount := 3;
     inputChannelStride := 3;
     sampleFormat := 1;
     channelCount := 2;
     bitsPerSample := 16;
     inputBuffer := repeat 0 6 |}.

(** Silence behind every pointer. *)
Definition silent (_ : pointer) : float32 := 0.

(** Two frames of silence. *)
Definition two_frames : OutputChunk :=
  {| data := 16; frameCount := 2; channelStride := 2; request_begin := 1; request_end := 2 |}.

(** The requests behind a chunk that spans the frames 0 to 2 of the track. *)
Definition leading (pointer : pointer) : Request :=
  {| position := if pointer =? 1 then 0%float else 2%float;
     speed := 1%float; pitch := 1%float; reset := false; resampleMode := 0 |}.

End ProcessorSamples.

(** What the conversions of samples are to achieve. *)
Module SampleSpec.

Import Single CommandLine.

(** The value of the type that is nearest to [v]. *)
Definition clamp (t : IntType) (v : Z) : Z :=
  Z.max (numeric_min t) (Z.min (numeric_max t) v).

(** The sample for the float with the bits [x]: the float times
    2^(width-1), to the nearest integer, halves away from zero, and from
    there to the nearest value of the sample type; none for a NaN. *)
Definition nearest (t : Sample) (x : float32) : option Z :=
  match decode x with
  | S754_zero _ => Some 0
  | S754_infinity s =>
      Some (if s then numeric_min (stored t) else numeric_max (stored t))
  | S754_nan => None
  | S754_finite s m e =>
      Some (clamp (stored t)
              (cond_Zopp s (round_mag m (e + (width (stored t) - 1)))))
  end.

(** The float of a positive integer below 2^24. *)
Definition normal (s : bool) (p : positive) : spec_float :=
  S754_finite s (Binary64.shl p (24 - Z.pos (digits2_pos p)))
    (Z.pos (digits2_pos p) - 24).

End SampleSpec.

(** * Properties *)

(** Closed comparisons and equations, by evaluation. *)
Ltac closed_facts :=
  vm_compute; repeat split; intros; try reflexivity; try discriminate.

(** ** Machine integers *)

Lemma int32_range z : fits32 (int32 z).
Proof.
  unfold fits32, int32, wrap, INT_MIN, INT_MAX.
  pose proof (Z.mod_pos_bound (z + 2 ^ (32 - 1)) (2 ^ 32) ltac:(lia)).
  change (2 ^ (32 - 1)) with 2147483648 in *.
  change (2 ^ 32) with 4294967296 in *.
  change (2 ^ 31) with 2147483648. lia.
Qed.

Lemma int32_id z : fits32 z -> int32 z = z.
Proof.
  unfold fits32, int32, wrap, INT_MIN, INT_MAX.
  change (2 ^ (32 - 1)) with 2147483648.
  change (2 ^ 32) with 4294967296.
  change (2 ^ 31) with 2147483648.
  intros Hz. rewrite Z.mod_small; lia.
Qed.

Lemma int64_id z : fits64 z -> int64 z = z.
Proof.
  unfold fits64, int64, wrap.
  change (2 ^ (64 - 1)) with 9223372036854775808.
  change (2 ^ 64) with 18446744073709551616.
  change (2 ^ 63) with 9223372036854775808.
  intros Hz. rewrite Z.mod_small; lia.
Qed.

Lemma fits32_bounds z : fits32 z <-> -2147483648 <= z <= 2147483647.
Proof. unfold fits32, INT_MIN, INT_MAX. change (2 ^ 31) with 2147483648. lia. Qed.

Lemma fits64_bounds z :
  fits64 z <-> -9223372036854775808 <= z <= 9223372036854775807.
Proof. unfold fits64. change (2 ^ 63) with 9223372036854775808. lia. Qed.

(** ** Doubles, through their binary representation *)

Module BinaryFacts.

Import Binary64.

(** 2^(digits - 1) <= m < 2^digits. *)
Lemma digits2_pos_bounds (m : positive) :
  2 ^ (Z.pos (digits2_pos m) - 1) <= Z.pos m < 2 ^ Z.pos (digits2_pos m).
Proof.
  induction m as [m IH | m IH |]; cbn [digits2_pos].
  - rewrite Pos2Z.inj_succ. change (Z.pos m~1) with (2 * Z.pos m + 1).
    replace (Z.succ (Z.pos (digits2_pos m)) - 1) with (Z.succ (Z.pos (digits2_pos m) - 1)) by lia.
    rewrite !Z.pow_succ_r by lia.
    revert IH. generalize (2 ^ (Z.pos (digits2_pos m) - 1)) (2 ^ Z.pos (digits2_pos m)). lia.
  - rewrite Pos2Z.inj_succ. change (Z.pos m~0) with (2 * Z.pos m).
    replace (Z.succ (Z.pos (digits2_pos m)) - 1) with (Z.succ (Z.pos (digits2_pos m) - 1)) by lia.
    rewrite !Z.pow_succ_r by lia.
    revert IH. generalize (2 ^ (Z.pos (digits2_pos m) - 1)) (2 ^ Z.pos (digits2_pos m)). lia.
  - cbn. lia.
Qed.

Lemma digits2_pos_le (m : positive) (n : Z) :
  0 <= n -> Z.pos m < 2 ^ n -> Z.pos (digits2_pos m) <= n.
Proof.
  intros Hn Hm. pose proof (digits2_pos_bounds m) as [Hlo _].
  assert (2 ^ (Z.pos (digits2_pos m) - 1) < 2 ^ n) as Hlt by lia.
  apply Z.pow_lt_mono_r_iff in Hlt; lia.
Qed.

Lemma iter_xO_value (m d : positive) : Z.pos (Pos.iter xO m d) = Z.pos m * 2 ^ Z.pos d.
Proof.
  induction d as [|d IH] using Pos.peano_ind.
  - cbn. lia.
  - rewrite Pos.iter_succ.
    change (Z.pos (Pos.iter xO m d)~0) with (2 * Z.pos (Pos.iter xO m d)).
    rewrite IH, Pos2Z.inj_succ, Z.pow_succ_r by lia. lia.
Qed.

Lemma iter_xO_digits (m d : positive) :
  Z.pos (digits2_pos (Pos.iter xO m d)) = Z.pos (digits2_pos m) + Z.pos d.
Proof.
  induction d as [|d IH] using Pos.peano_ind.
  - cbn [Pos.iter digits2_pos]. lia.
  - rewrite Pos.iter_succ. cbn [digits2_pos]. rewrite Pos2Z.inj_succ, IH. lia.
Qed.

Lemma shl_value m n : 0 <= n -> Z.pos (shl m n) = Z.pos m * 2 ^ n.
Proof.
  intros Hn. destruct n as [|d|d]; cbn [shl]; [cbn; lia | apply iter_xO_value | lia].
Qed.

Lemma shl_digits m n :
  0 <= n -> Z.pos (digits2_pos (shl m n)) = Z.pos (digits2_pos m) + n.
Proof.
  intros Hn. destruct n as [|d|d]; cbn [shl]; [lia | apply iter_xO_digits | lia].
Qed.

Lemma shl_align_le m e e' :
  e' <= e -> shl_align m e e' = (shl m (e - e'), e').
Proof.
  intros He. unfold shl_align.
  destruct (e' - e) as [|d|d] eqn:Hd.
  - replace (e - e') with 0 by lia. replace e' with e by lia. reflexivity.
  - lia.
  - replace (e - e') with (Z.pos d) by lia. reflexivity.
Qed.

Lemma shl_align_ge m e e' :
  e <= e' -> shl_align m e e' = (m, e).
Proof.
  intros He. unfold shl_align. destruct (e' - e) as [|d|d] eqn:Hd; try reflexivity. lia.
Qed.

Lemma fexp_cexp d e : fexp prec emax (d + e) = cexp d e.
Proof. reflexivity. Qed.

(** [binary_round] is exact on a mantissa of at most 53 bits whose exponent is not below the least one. *)
Lemma binary_round_exact s m e :
  Z.pos (digits2_pos m) <= 53 -> -1074 <= e ->
  cexp (Z.pos (digits2_pos m)) e <= 971 ->
  binary_round prec emax s m e
  = S754_finite s (shl m (e - cexp (Z.pos (digits2_pos m)) e)) (cexp (Z.pos (digits2_pos m)) e).
Proof.
  intros Hd He Hmax. unfold binary_round.
  rewrite fexp_cexp.
  set (e' := cexp (Z.pos (digits2_pos m)) e) in *.
  assert (e' <= e) as Hle by (unfold e', cexp; lia).
  rewrite (shl_align_le _ _ _ Hle).
  unfold binary_round_aux, shr_fexp.
  cbn [Zdigits2 shr_record_of_loc].
  rewrite (shl_digits m (e - e')) by lia.
  replace (Z.pos (digits2_pos m) + (e - e') + e') with (Z.pos (digits2_pos m) + e) by lia.
  rewrite fexp_cexp. fold e'. rewrite Z.sub_diag.
  cbn [shr shr_m loc_of_shr_record round_nearest_even Zdigits2 shr_record_of_loc].
  rewrite (shl_digits m (e - e')) by lia.
  replace (Z.pos (digits2_pos m) + (e - e') + e') with (Z.pos (digits2_pos m) + e) by lia.
  rewrite fexp_cexp. fold e'. rewrite Z.sub_diag.
  cbn [shr shr_m].
  replace (Z.sub emax prec) with 971 by reflexivity.
  destruct (Z.leb_spec e' 971); [reflexivity | lia].
Qed.

(** *** What validity says about a finite double *)

Lemma valid_finite s m e :
  valid_binary (S754_finite s m e) = true ->
  Z.pos (digits2_pos m) <= 53 /\ -1074 <= e <= 971
  /\ (Z.pos (digits2_pos m) = 53 \/ e = -1074).
Proof.
  cbn [SpecFloat.valid_binary]. unfold bounded, canonical_mantissa.
  rewrite fexp_cexp. intros Hv. apply andb_true_iff in Hv as [Hc Hb].
  apply Z.eqb_eq in Hc. apply Z.leb_le in Hb.
  change (Z.sub emax prec) with 971 in Hb. unfold cexp in Hc. lia.
Qed.

(** *** Integers as doubles *)

Lemma Prim2SF_of_pos (p : positive) :
  Z.pos p < 2 ^ 53 ->
  Prim2SF (of_uint63 (Uint63.of_Z (Z.pos p))) = SF_of_pos false p.
Proof.
  intros Hp. rewrite of_uint63_spec, Uint63.of_Z_spec.
  rewrite Z.mod_small.
  2:{ split; [lia|]. unfold wB, size. change (2 ^ 53) with 9007199254740992 in Hp.
      change (2 ^ Z.of_nat 63) with 9223372036854775808. lia. }
  cbn [binary_normalize].
  pose proof (digits2_pos_le p 53 ltac:(lia) Hp) as Hd.
  rewrite binary_round_exact; unfold cexp; try lia.
  unfold SF_of_pos. f_equal; [f_equal|]; lia.
Qed.

Lemma Prim2SF_of_int (k : Z) :
  - 2 ^ 53 < k < 2 ^ 53 -> Prim2SF (of_int k) = SF_of_Z k.
Proof.
  intros Hk. destruct k as [|p|p]; unfold of_int.
  - reflexivity.
  - cbn [Z.ltb Z.compare]. apply Prim2SF_of_pos. lia.
  - cbn [Z.ltb Z.compare Z.opp]. rewrite FloatAxioms.opp_spec, Prim2SF_of_pos by lia. reflexivity.
Qed.

Lemma Prim2SF_signed_int s (k : Z) :
  0 <= k < 2 ^ 53 ->
  Prim2SF (signed_int s k)
  = match k with
    | Z.pos p => SF_of_pos s p
    | _ => S754_zero s
    end.
Proof.
  intros Hk. destruct k as [|p|p]; unfold signed_int; [|cbn [Z.eqb]|lia].
  - destruct s; reflexivity.
  - destruct s; [rewrite FloatAxioms.opp_spec|]; rewrite Prim2SF_of_pos by lia; reflexivity.
Qed.

(** *** [std::round] on the representation *)

Lemma round_mag_spec m e :
  e < 0 ->
  let d := 2 ^ (- e) in
  0 <= round_mag m e
  /\ 2 * Z.abs (Z.pos m - round_mag m e * d) <= d
  /\ 2 * round_mag m e <= Z.pos m + 1
  /\ (round_mag m e = 0 -> 2 * Z.pos m < d)
  /\ (0 < round_mag m e -> d <= 2 * Z.pos m).
Proof.
  intros He d. unfold round_mag. destruct (Z.leb_spec 0 e) as [|_]; [lia|].
  fold d.
  assert (2 <= d) as Hd.
  { unfold d. change 2 with (2 ^ 1) at 1. apply Z.pow_le_mono_r; lia. }
  pose proof (Z.div_mod (Z.pos m) d ltac:(lia)) as Hdm.
  pose proof (Z.mod_pos_bound (Z.pos m) d ltac:(lia)) as Hr.
  assert (0 <= Z.pos m / d) as Hq by (apply Z.div_pos; lia).
  destruct (Z.leb_spec d (2 * (Z.pos m mod d))) as [Hup | Hdown]; nia.
Qed.

Lemma Prim2SF_round (x : double) :
  Prim2SF (round x)
  = match Prim2SF x with
    | S754_finite s m e =>
        if 0 <=? e then S754_finite s m e
        else match round_mag m e with
             | Z.pos p => SF_of_pos s p
             | _ => S754_zero s
             end
    | X => X
    end.
Proof.
  unfold round. pose proof (Prim2SF_valid x) as Hv.
  destruct (Prim2SF x) as [s | s | | s m e] eqn:Hx; try exact Hx.
  destruct (Z.leb_spec 0 e) as [He | He]; [exact Hx|].
  apply valid_finite in Hv as (Hd & _ & _).
  pose proof (digits2_pos_bounds m) as [_ Hm].
  assert (Z.pos m < 2 ^ 53) as Hm53.
  { eapply Z.lt_le_trans; [exact Hm|]. apply Z.pow_le_mono_r; lia. }
  destruct (round_mag_spec m e He) as (H0 & _ & Hhalf & _).
  apply Prim2SF_signed_int. change (2 ^ 53) with 9007199254740992 in *. lia.
Qed.

(** *** Comparisons with one half *)

Lemma SFleb_small m e h :
  Z.pos h = 2 ^ 52 ->
  Z.pos (digits2_pos m) = 53 \/ e = -1074 ->
  e <= -1 -> 2 * Z.pos m <= 2 ^ (- e) ->
  SFleb (S754_finite false m e) (S754_finite false h (-53)) = true
  /\ SFleb (S754_finite true h (-53)) (S754_finite true m e) = true.
Proof.
  intros Hh Hcan He Hm.
  assert (e <= -53) as He53.
  { destruct (Z.le_gt_cases e (-53)) as [|Hgt]; [assumption|exfalso].
    destruct Hcan as [Hd | ->]; [|lia].
    pose proof (digits2_pos_bounds m) as [Hlo _]. rewrite Hd in Hlo.
    assert (2 ^ (- e) <= 2 ^ 52) as Hp by (apply Z.pow_le_mono_r; lia).
    change (53 - 1) with 52 in Hlo. lia. }
  unfold SFleb, SFcompare. split.
  - destruct (Z.compare_spec e (-53)) as [-> | Hlt | Hgt]; [|reflexivity|lia].
    change (PosDef.Pos.compare_cont Eq m h) with (Pos.compare m h).
    change (- -53) with 53 in Hm. change (2 ^ 53) with (2 * 2 ^ 52) in Hm.
    destruct (Pos.compare_spec m h) as [Heq | Hlt | Hgt]; [reflexivity | reflexivity | lia].
  - destruct (Z.compare_spec (-53) e) as [<- | Hlt | Hgt]; [|lia|reflexivity].
    change (PosDef.Pos.compare_cont Eq h m) with (Pos.compare h m).
    change (- -53) with 53 in Hm. change (2 ^ 53) with (2 * 2 ^ 52) in Hm.
    destruct (Pos.compare_spec h m) as [Heq | Hlt | Hgt]; [reflexivity | lia | reflexivity].
Qed.

Lemma SF_le_half m e :
  Z.pos (digits2_pos m) = 53 \/ e = -1074 ->
  e <= -1 -> 2 * Z.pos m <= 2 ^ (- e) ->
  SFleb (S754_finite false m e) SF_half = true
  /\ SFleb (SFopp SF_half) (S754_finite true m e) = true.
Proof. apply SFleb_small. reflexivity. Qed.

Lemma SFeqb_finite s m e (y : spec_float) :
  SFeqb (S754_finite s m e) y = true -> y = S754_finite s m e.
Proof.
  unfold SFeqb, SFcompare.
  destruct y as [s' | s' | | s' m' e']; try (destruct s; discriminate);
    try (destruct s'; discriminate).
  destruct s, s'; try discriminate;
    destruct (Z.compare_spec e e') as [<- | |]; try discriminate;
    change (PosDef.Pos.compare_cont Eq m m') with (Pos.compare m m'); destruct (Pos.compare_spec m m') as [<- | |];
    try discriminate; reflexivity.
Qed.

Lemma SFeqb_zero (y : spec_float) :
  SFeqb (S754_zero false) y = true -> exists s, y = S754_zero s.
Proof.
  unfold SFeqb, SFcompare.
  destruct y as [s' | s' | | s' m' e']; try discriminate;
    try (destruct s'; discriminate). eauto.
Qed.

(** *** A difference of at most one half, computed exactly *)

Lemma normalize_within_half (N ez : Z) :
  -1074 <= ez <= -1 -> 2 * Z.abs N <= 2 ^ (- ez) -> Z.abs N < 2 ^ 53 ->
  SFleb (SFopp SF_half) (binary_normalize prec emax N ez false) = true
  /\ SFleb (binary_normalize prec emax N ez false) SF_half = true.
Proof.
  intros Hez Hhalf Hsmall.
  destruct N as [|n|n]; cbn [binary_normalize]; [split; reflexivity| |].
  - change (Z.abs (Z.pos n)) with (Z.pos n) in *.
    pose proof (digits2_pos_le n 53 ltac:(lia) Hsmall) as Hd.
    pose proof (digits2_pos_bounds n) as [_ Hn].
    rewrite binary_round_exact by (unfold cexp; lia).
    set (e' := cexp (Z.pos (digits2_pos n)) ez).
    assert (e' <= ez /\ (e' = Z.pos (digits2_pos n) + ez - 53 \/ e' = -1074)) as [Hle Hcan]
      by (unfold e', cexp; lia).
    split; [reflexivity|].
    apply SF_le_half.
    + rewrite shl_digits by lia. lia.
    + lia.
    + rewrite shl_value by lia.
      replace (- e') with (- ez + (ez - e')) by lia.
      rewrite Z.pow_add_r by lia.
      pose proof (Z.pow_pos_nonneg 2 (ez - e') ltac:(lia) ltac:(lia)). nia.
  - change (Z.abs (Z.neg n)) with (Z.pos n) in *.
    pose proof (digits2_pos_le n 53 ltac:(lia) Hsmall) as Hd.
    rewrite binary_round_exact by (unfold cexp; lia).
    set (e' := cexp (Z.pos (digits2_pos n)) ez).
    assert (e' <= ez /\ (e' = Z.pos (digits2_pos n) + ez - 53 \/ e' = -1074)) as [Hle Hcan]
      by (unfold e', cexp; lia).
    split; [|reflexivity].
    apply SF_le_half.
    + rewrite shl_digits by lia. lia.
    + lia.
    + rewrite shl_value by lia.
      replace (- e') with (- ez + (ez - e')) by lia.
      rewrite Z.pow_add_r by lia.
      pose proof (Z.pow_pos_nonneg 2 (ez - e') ltac:(lia) ltac:(lia)). nia.
Qed.

Lemma scaled_difference (m mag e ez : Z) :
  e < 0 -> ez <= e ->
  2 * Z.abs (m - mag * 2 ^ (- e)) <= 2 ^ (- e) ->
  2 * Z.abs (m * 2 ^ (e - ez) - mag * 2 ^ (- ez)) <= 2 ^ (- ez).
Proof.
  intros He Hez Hm.
  replace (- ez) with (e - ez + - e) by lia.
  rewrite Z.pow_add_r by lia.
  pose proof (Z.pow_pos_nonneg 2 (e - ez) ltac:(lia) ltac:(lia)) as Ht.
  replace (m * 2 ^ (e - ez) - mag * (2 ^ (e - ez) * 2 ^ (- e)))
    with (2 ^ (e - ez) * (m - mag * 2 ^ (- e))) by ring.
  rewrite Z.abs_mul, (Z.abs_eq (2 ^ (e - ez))) by lia. nia.
Qed.

(** The double [x = m * 2^e] with [e < 0] minus its own rounding [p]: the
    subtraction is exact and its result lies within one half. *)
Lemma SFsub_round_within_half s m e p :
  valid_binary (S754_finite s m e) = true -> e < 0 ->
  round_mag m e = Z.pos p ->
  SFleb (SFopp SF_half) (SF64sub (S754_finite s m e) (SF_of_pos s p)) = true
  /\ SFleb (SF64sub (S754_finite s m e) (SF_of_pos s p)) SF_half = true.
Proof.
  intros Hv He Hp. apply valid_finite in Hv as (Hd & [Hlo Hhi] & _).
  destruct (round_mag_spec m e He) as (_ & Hdiff & Hmag & _ & Hbig).
  rewrite Hp in Hdiff, Hmag, Hbig. specialize (Hbig ltac:(lia)).
  pose proof (digits2_pos_bounds m) as [_ Hm].
  assert (Z.pos m < 2 ^ 53) as Hm53.
  { eapply Z.lt_le_trans; [exact Hm|]. apply Z.pow_le_mono_r; lia. }
  assert (Z.pos p < 2 ^ 53) as Hp53 by lia.
  pose proof (digits2_pos_le p 53 ltac:(lia) Hp53) as Hdp.
  unfold SF64sub, SFsub, SF_of_pos.
  set (eR := Z.pos (digits2_pos p) - 53).
  set (ez := Z.min e eR).
  rewrite !shl_align_le by lia. cbn [fst].
  set (a := Z.pos (shl m (e - ez))).
  set (b := Z.pos (shl (shl p (53 - Z.pos (digits2_pos p))) (eR - ez))).
  assert (a = Z.pos m * 2 ^ (e - ez)) as Ha by (unfold a; rewrite shl_value; lia).
  assert (b = Z.pos p * 2 ^ (- ez)) as Hb.
  { unfold b. rewrite !shl_value by lia. rewrite <- Z.mul_assoc, <- Z.pow_add_r by lia.
    f_equal. f_equal. lia. }
  pose proof (scaled_difference (Z.pos m) (Z.pos p) e ez He ltac:(lia) Hdiff) as Hab.
  rewrite <- Ha, <- Hb in Hab.
  assert (Z.abs (a - b) < 2 ^ 53) as Hsmall.
  { destruct (Z.min_spec e eR) as [[_ Hmin] | [_ Hmin]]; fold ez in Hmin.
    - rewrite Hmin, Z.sub_diag, Z.mul_1_r in Ha. rewrite Hmin in Hb.
      rewrite Ha, Hb. lia.
    - assert (2 ^ (- ez) <= 2 ^ 52) as Hpw by (apply Z.pow_le_mono_r; lia).
      change (2 ^ 52) with 4503599627370496 in Hpw.
      change (2 ^ 53) with 9007199254740992. lia. }
  assert (Z.abs (cond_Zopp s a - cond_Zopp s b) = Z.abs (a - b)) as Hsign
    by (destruct s; cbn [cond_Zopp]; lia).
  apply normalize_within_half; rewrite ?Hsign; try assumption. lia.
Qed.

Lemma SFsub_diag_zero s m e :
  SF64sub (S754_finite s m e) (S754_finite s m e) = S754_zero false.
Proof.
  unfold SF64sub, SFsub. rewrite Z.min_id, shl_align_ge by lia. cbn [fst].
  rewrite Z.sub_diag. reflexivity.
Qed.

Lemma Prim2SF_half : Prim2SF 0.5 = SF_half /\ Prim2SF (-0.5) = SFopp SF_half.
Proof. split; vm_compute; reflexivity. Qed.

Lemma SF_of_Z_cases (k : Z) :
  k = 0 /\ SF_of_Z k = S754_zero false
  \/ exists s p, SF_of_Z k = SF_of_pos s p.
Proof. destruct k; cbn; eauto. Qed.

(** When the loop of [process] is left, [sampleCounter == std::round(x)]
    holds for the accumulator [x]; what is then carried over,
    [x - sampleCounter], lies within one half. *)
Lemma remainder_within_half (x : double) (k : Z) :
  - 2 ^ 53 < k < 2 ^ 53 ->
  (of_int k =? round x)%float = true ->
  (-0.5 <=? x - of_int k)%float = true /\ (x - of_int k <=? 0.5)%float = true.
Proof.
  intros Hk Heq.
  rewrite FloatAxioms.eqb_spec, Prim2SF_round, (Prim2SF_of_int k Hk) in Heq.
  rewrite !FloatAxioms.leb_spec, FloatAxioms.sub_spec, (Prim2SF_of_int k Hk).
  destruct Prim2SF_half as [-> ->].
  pose proof (Prim2SF_valid x) as Hv.
  destruct (SF_of_Z_cases k) as [[_ HK] | (sk & pk & HK)]; rewrite HK in *.
  - (* sampleCounter = 0 *)
    apply SFeqb_zero in Heq as [s0 Hr].
    destruct (Prim2SF x) as [s | s | | s m e]; try discriminate Hr.
    + destruct s; split; reflexivity.
    + destruct (Z.leb_spec 0 e) as [He | He]; [discriminate Hr|].
      destruct (round_mag m e) as [|p|p] eqn:Hmag; try discriminate Hr.
      * destruct (round_mag_spec m e He) as (_ & _ & _ & Hzero & _).
        specialize (Hzero Hmag). apply valid_finite in Hv as (_ & _ & Hcan).
        unfold SF64sub, SFsub.
        destruct (SF_le_half m e Hcan ltac:(lia) ltac:(lia)) as [Hpos Hneg].
        destruct s; split; try assumption; reflexivity.
      * destruct (round_mag_spec m e He) as (H0 & _). lia.
  - (* sampleCounter <> 0: the rounding is the double of sampleCounter itself *)
    unfold SF_of_pos in Heq at 1. apply SFeqb_finite in Heq. fold (SF_of_pos sk pk) in Heq.
    destruct (Prim2SF x) as [s | s | | s m e]; try discriminate Heq.
    destruct (Z.leb_spec 0 e) as [He | He].
    + rewrite <- Heq, SFsub_diag_zero. split; reflexivity.
    + destruct (round_mag m e) as [|p|p] eqn:Hmag; try discriminate Heq.
      rewrite <- Heq. apply SFsub_round_within_half; assumption.
Qed.

Lemma shl_inj m m' n : 0 <= n -> shl m n = shl m' n -> m = m'.
Proof.
  intros Hn Heq. apply (f_equal Z.pos) in Heq. rewrite !shl_value in Heq by lia.
  pose proof (Z.pow_pos_nonneg 2 n ltac:(lia) Hn).
  assert (Z.pos m = Z.pos m') as Hm by nia. congruence.
Qed.

Lemma finite_inj s m e s' m' e' :
  S754_finite s m e = S754_finite s' m' e' -> s = s' /\ m = m' /\ e = e'.
Proof. intros [= -> -> ->]. auto. Qed.

Lemma SF_of_pos_inj s p s' p' :
  Z.pos (digits2_pos p) <= 53 ->
  SF_of_pos s p = SF_of_pos s' p' -> s = s' /\ p = p'.
Proof.
  unfold SF_of_pos. intros Hd Heq. apply finite_inj in Heq as (-> & Hm & He).
  split; [reflexivity|].
  assert (Z.pos (digits2_pos p) = Z.pos (digits2_pos p')) as Hd' by lia.
  rewrite <- Hd' in Hm. eapply shl_inj; [|exact Hm]. lia.
Qed.

Lemma SF_of_Z_finite a :
  a <> 0 ->
  exists s p, SF_of_Z a = SF_of_pos s p /\ Z.pos p = Z.abs a
              /\ cond_Zopp s (Z.pos p) = a.
Proof.
  destruct a as [|p|p]; [congruence| |]; intros _.
  - exists false, p. auto.
  - exists true, p. auto.
Qed.

(** Two integers that compare equal as doubles are equal. *)
Lemma of_int_inj (k j : Z) :
  - 2 ^ 53 < k < 2 ^ 53 -> - 2 ^ 53 < j < 2 ^ 53 ->
  (of_int k =? of_int j)%float = true -> k = j.
Proof.
  intros Hk Hj. rewrite FloatAxioms.eqb_spec, !Prim2SF_of_int by assumption.
  intros Heq. destruct (Z.eq_dec k 0) as [-> | Hk0].
  - apply SFeqb_zero in Heq as [s Hz].
    destruct j; [reflexivity | discriminate Hz | discriminate Hz].
  - destruct (SF_of_Z_finite k Hk0) as (sk & pk & HK & Hpk & Hsk).
    rewrite HK in Heq. unfold SF_of_pos in Heq at 1. apply SFeqb_finite in Heq.
    fold (SF_of_pos sk pk) in Heq.
    destruct (Z.eq_dec j 0) as [-> | Hj0]; [discriminate Heq|].
    destruct (SF_of_Z_finite j Hj0) as (sj & pj & HJ & Hpj & Hsj).
    rewrite HJ in Heq. symmetry in Heq. apply SF_of_pos_inj in Heq as [-> ->].
    + congruence.
    + apply digits2_pos_le; lia.
Qed.

(** *** Sums and differences of integers *)

(** [iter_pos] is iteration. *)
Lemma iter_pos_nat {A} (f : A -> A) (p : positive) (x : A) :
  iter_pos f p x = Nat.iter (Pos.to_nat p) f x.
Proof.
  revert x. induction p as [p IH | p IH |]; intros x; cbn [iter_pos].
  - rewrite !IH, Pos2Nat.inj_xI. cbn [Nat.iter Nat.mul].
    rewrite <- Nat.iter_succ_r. rewrite <- Nat.iter_add. f_equal. lia.
  - rewrite !IH, Pos2Nat.inj_xO, <- Nat.iter_add. f_equal. lia.
  - reflexivity.
Qed.

(** Shifting out the zero bits that were shifted in loses nothing. *)
Lemma shr_exact (m : positive) (k : nat) :
  Nat.iter k shr_1 {| shr_m := Z.pos (Nat.iter k xO m); shr_r := false; shr_s := false |}
  = {| shr_m := Z.pos m; shr_r := false; shr_s := false |}.
Proof.
  induction k as [|k IH]; [reflexivity|].
  rewrite Nat.iter_succ_r. cbn [Nat.iter shr_1 orb]. exact IH.
Qed.

Lemma shr_shl (m : positive) (k : positive) :
  iter_pos shr_1 k {| shr_m := Z.pos (shl m (Z.pos k)); shr_r := false; shr_s := false |}
  = {| shr_m := Z.pos m; shr_r := false; shr_s := false |}.
Proof.
  rewrite iter_pos_nat. cbn [shl]. rewrite Pos2Nat.inj_iter. apply shr_exact.
Qed.

Lemma shl_shl m j k : 0 <= j -> 0 <= k -> shl (shl m j) k = shl m (j + k).
Proof.
  intros Hj Hk. assert (Z.pos (shl (shl m j) k) = Z.pos (shl m (j + k))) as Heq.
  { rewrite !shl_value by lia. rewrite Z.pow_add_r by lia. ring. }
  congruence.
Qed.

(** A mantissa of at most 53 bits that was shifted left by [j] bits, at an
    exponent lowered by [j], rounds as the mantissa itself: exactly. *)
Lemma binary_round_shl s q j e :
  0 <= j -> Z.pos (digits2_pos q) <= 53 -> -1074 <= e ->
  cexp (Z.pos (digits2_pos q)) e <= 971 ->
  binary_round prec emax s (shl q j) (e - j) = binary_round prec emax s q e.
Proof.
  intros Hj Hd He Hmax. rewrite (binary_round_exact s q e) by assumption.
  set (e' := cexp (Z.pos (digits2_pos q)) e) in *.
  assert (-1074 <= e' <= e) as He' by (unfold e', cexp; lia).
  assert (cexp (Z.pos (digits2_pos (shl q j))) (e - j) = e') as Hc
    by (rewrite shl_digits by lia; unfold e', cexp; f_equal; lia).
  destruct (Z.le_gt_cases e' (e - j)) as [Hle | Hgt].
  - rewrite binary_round_exact; rewrite ?Hc; try lia.
    + rewrite shl_shl by lia. do 2 f_equal. lia.
    + rewrite shl_digits by lia. unfold e', cexp in Hle. lia.
  - unfold binary_round. rewrite fexp_cexp, Hc, shl_align_ge by lia.
    unfold binary_round_aux, shr_fexp. cbn [Zdigits2 shr_record_of_loc].
    rewrite fexp_cexp, Hc. unfold shr at 1.
    destruct (e' - (e - j)) as [|k|k] eqn:Hk; try lia.
    replace (shl q j) with (shl (shl q (j - Z.pos k)) (Z.pos k))
      by (rewrite shl_shl by lia; f_equal; lia).
    rewrite shr_shl. cbn [shr_m loc_of_shr_record round_nearest_even Zdigits2].
    rewrite fexp_cexp.
    replace (cexp (Z.pos (digits2_pos (shl q (j - Z.pos k)))) (e - j + Z.pos k)) with e'
      by (rewrite shl_digits by lia; unfold e', cexp; f_equal; lia).
    replace (e - j + Z.pos k) with e' by lia. rewrite Z.sub_diag. cbn [shr shr_m].
    replace (Z.sub emax prec) with 971 by reflexivity.
    destruct (Z.leb_spec e' 971); [|lia]. do 2 f_equal. lia.
Qed.

Lemma binary_round_of_pos s q :
  Z.pos q < 2 ^ 53 -> binary_round prec emax s q 0 = SF_of_pos s q.
Proof.
  intros Hq. pose proof (digits2_pos_le q 53 ltac:(lia) Hq) as Hd.
  rewrite binary_round_exact; unfold cexp; try lia.
  unfold SF_of_pos. f_equal; [f_equal|]; lia.
Qed.

(** An integer below 2^53 in magnitude, scaled by 2^j and normalised at the
    exponent -j, is the double of that integer. *)
Lemma normalize_of_Z (A j : Z) :
  0 <= j -> Z.abs A < 2 ^ 53 ->
  binary_normalize prec emax (A * 2 ^ j) (- j) false = SF_of_Z A.
Proof.
  intros Hj HA. pose proof (Z.pow_pos_nonneg 2 j ltac:(lia) Hj) as Hp.
  destruct A as [|q|q]; [reflexivity| |].
  - replace (Z.pos q * 2 ^ j) with (Z.pos (shl q j)) by (rewrite shl_value; lia).
    cbn [binary_normalize SF_of_Z].
    pose proof (digits2_pos_le q 53 ltac:(lia) HA) as Hd.
    replace (- j) with (0 - j) by lia.
    rewrite (binary_round_shl false q j 0) by (unfold cexp; lia).
    apply binary_round_of_pos. exact HA.
  - replace (Z.neg q * 2 ^ j) with (Z.neg (shl q j))
      by (rewrite <- !Pos2Z.opp_pos, shl_value; lia).
    cbn [binary_normalize SF_of_Z].
    pose proof (digits2_pos_le q 53 ltac:(lia) HA) as Hd.
    replace (- j) with (0 - j) by lia.
    rewrite (binary_round_shl true q j 0) by (unfold cexp; lia).
    apply binary_round_of_pos. exact HA.
Qed.

(** The mantissa of the double of [p], aligned at a lower exponent. *)
Lemma aligned_of_pos p ez :
  Z.pos p < 2 ^ 53 -> ez <= Z.pos (digits2_pos p) - 53 ->
  fst (shl_align (shl p (53 - Z.pos (digits2_pos p))) (Z.pos (digits2_pos p) - 53) ez)
  = shl p (- ez).
Proof.
  intros Hp Hez. pose proof (digits2_pos_le p 53 ltac:(lia) Hp) as Hd.
  rewrite shl_align_le by lia. cbn [fst]. rewrite shl_shl by lia. f_equal. lia.
Qed.

(** Integers below 2^52 in magnitude are subtracted and added exactly. *)
Lemma SF64sub_of_Z a b :
  Z.abs a < 2 ^ 52 -> Z.abs b < 2 ^ 52 ->
  SF64sub (SF_of_Z a) (SF_of_Z b) = SF_of_Z (a - b).
Proof.
  intros Ha Hb. change (2 ^ 52) with 4503599627370496 in *.
  destruct (Z.eq_dec a 0) as [-> | Ha0]; [destruct b; reflexivity|].
  destruct (Z.eq_dec b 0) as [-> | Hb0]; [rewrite Z.sub_0_r; destruct a; reflexivity|].
  destruct (SF_of_Z_finite a Ha0) as (sa & pa & -> & Hpa & Hsa).
  destruct (SF_of_Z_finite b Hb0) as (sb & pb & -> & Hpb & Hsb).
  unfold SF64sub, SFsub, SF_of_pos.
  set (ez := Z.min (Z.pos (digits2_pos pa) - 53) (Z.pos (digits2_pos pb) - 53)).
  assert (Z.pos pa < 2 ^ 53 /\ Z.pos pb < 2 ^ 53) as [Hpa53 Hpb53]
    by (change (2 ^ 53) with 9007199254740992; lia).
  pose proof (digits2_pos_le pa 53 ltac:(lia) Hpa53).
  pose proof (digits2_pos_le pb 53 ltac:(lia) Hpb53).
  rewrite !aligned_of_pos by lia. rewrite !shl_value by lia.
  replace (cond_Zopp sa (Z.pos pa * 2 ^ (- ez)) - cond_Zopp sb (Z.pos pb * 2 ^ (- ez)))
    with ((a - b) * 2 ^ (- ez))
    by (rewrite <- Hsa, <- Hsb; destruct sa, sb; cbn [cond_Zopp]; ring).
  replace ez with (- - ez) at 2 by lia.
  apply normalize_of_Z; [lia|]. change (2 ^ 53) with 9007199254740992. lia.
Qed.

Lemma SF64add_of_Z a b :
  Z.abs a < 2 ^ 52 -> Z.abs b < 2 ^ 52 ->
  SF64add (SF_of_Z a) (SF_of_Z b) = SF_of_Z (a + b).
Proof.
  intros Ha Hb. change (2 ^ 52) with 4503599627370496 in *.
  destruct (Z.eq_dec a 0) as [-> | Ha0]; [destruct b; reflexivity|].
  destruct (Z.eq_dec b 0) as [-> | Hb0]; [rewrite Z.add_0_r; destruct a; reflexivity|].
  destruct (SF_of_Z_finite a Ha0) as (sa & pa & -> & Hpa & Hsa).
  destruct (SF_of_Z_finite b Hb0) as (sb & pb & -> & Hpb & Hsb).
  unfold SF64add, SFadd, SF_of_pos.
  set (ez := Z.min (Z.pos (digits2_pos pa) - 53) (Z.pos (digits2_pos pb) - 53)).
  assert (Z.pos pa < 2 ^ 53 /\ Z.pos pb < 2 ^ 53) as [Hpa53 Hpb53]
    by (change (2 ^ 53) with 9007199254740992; lia).
  pose proof (digits2_pos_le pa 53 ltac:(lia) Hpa53).
  pose proof (digits2_pos_le pb 53 ltac:(lia) Hpb53).
  rewrite !aligned_of_pos by lia. rewrite !shl_value by lia.
  replace (cond_Zopp sa (Z.pos pa * 2 ^ (- ez)) + cond_Zopp sb (Z.pos pb * 2 ^ (- ez)))
    with ((a + b) * 2 ^ (- ez))
    by (rewrite <- Hsa, <- Hsb; destruct sa, sb; cbn [cond_Zopp]; ring).
  replace ez with (- - ez) at 2 by lia.
  apply normalize_of_Z; [lia|]. change (2 ^ 53) with 9007199254740992. lia.
Qed.

(** Whole numbers below 2^51 in magnitude: taking one away and adding it
    back gives the very double one started from. *)
Lemma sub_add_of_int (a b : Z) :
  Z.abs a < 2 ^ 51 -> Z.abs b < 2 ^ 51 ->
  (of_int a - of_int b + of_int b)%float = of_int a.
Proof.
  intros Ha Hb. change (2 ^ 51) with 2251799813685248 in *.
  apply Prim2SF_inj.
  rewrite FloatAxioms.add_spec, FloatAxioms.sub_spec.
  rewrite !Prim2SF_of_int by (change (2 ^ 53) with 9007199254740992; lia).
  rewrite SF64sub_of_Z, SF64add_of_Z by (change (2 ^ 52) with 4503599627370496; lia).
  f_equal. ring.
Qed.

(** *** NaN, infinities and zeros *)

Lemma is_nan_spec (x : double) :
  is_nan x = match Prim2SF x with S754_nan => true | _ => false end.
Proof.
  unfold is_nan. rewrite FloatAxioms.eqb_spec.
  destruct (Prim2SF x) as [s | s | | s m e]; try reflexivity; try (destruct s; reflexivity).
  unfold SFeqb, SFcompare. rewrite Z.compare_refl.
  change (PosDef.Pos.compare_cont Eq m m) with (Pos.compare m m).
  rewrite Pos.compare_refl. destruct s; reflexivity.
Qed.


Lemma is_finite_spec (x : double) :
  is_finite x = true ->
  exists s, Prim2SF x = S754_zero s \/ exists m e, Prim2SF x = S754_finite s m e.
Proof.
  unfold is_finite, is_infinity. rewrite is_nan_spec, FloatAxioms.eqb_spec, FloatAxioms.abs_spec.
  change (Prim2SF infinity) with (S754_infinity false).
  destruct (Prim2SF x) as [s | s | | s m e]; try discriminate; eauto.
Qed.


(** A hop at infinite speed is infinite or NaN, whatever the resampling factor. *)
Lemma mul_infinity (u : double) :
  Prim2SF (u * infinity) = S754_nan \/ exists s, Prim2SF (u * infinity) = S754_infinity s.
Proof.
  rewrite FloatAxioms.mul_spec. change (Prim2SF infinity) with (S754_infinity false).
  destruct (Prim2SF u); cbn; eauto.
Qed.


Lemma SFeqb_refl_finite s m e : SFeqb (S754_finite s m e) (S754_finite s m e) = true.
Proof.
  unfold SFeqb, SFcompare. rewrite Z.compare_refl.
  change (PosDef.Pos.compare_cont Eq m m) with (Pos.compare m m).
  rewrite Pos.compare_refl. destruct s; reflexivity.
Qed.


Lemma SFeqb_zero_r (y : spec_float) :
  SFeqb y (S754_zero false) = true -> exists s, y = S754_zero s.
Proof.
  unfold SFeqb, SFcompare.
  destruct y as [s' | s' | | s' m' e']; try discriminate;
    try (destruct s'; discriminate). eauto.
Qed.


(** When the hop is zero (a grain at rest), nothing is rounded. *)
Lemma sub_add_zero (p h : double) :
  is_nan p = false -> (h =? 0)%float = true -> (p - h + h =? p)%float = true.
Proof.
  rewrite is_nan_spec, !FloatAxioms.eqb_spec, FloatAxioms.add_spec, FloatAxioms.sub_spec.
  change (Prim2SF 0) with (S754_zero false).
  intros Hp Hh. apply SFeqb_zero_r in Hh as [sh ->].
  destruct (Prim2SF p) as [s | s | | s m e]; try discriminate Hp.
  - destruct s, sh; reflexivity.
  - destruct s, sh; reflexivity.
  - cbn. apply SFeqb_refl_finite.
Qed.


End BinaryFacts.

(** ** Timing *)

Module TimingFacts.

Import Timing TimingSpec.

Lemma log2_floor_int x : 0 < x <= INT_MAX -> 0 <= log2_floor x <= 30.
Proof.
  unfold INT_MAX, log2_floor. change (2 ^ 31) with 2147483648. intros Hx.
  split; [apply Z.log2_nonneg|].
  assert (Z.log2 x < 31); [|lia].
  apply Z.log2_lt_pow2; [lia|]. change (2 ^ 31) with 2147483648. lia.
Qed.

Lemma hop_of_make sr adj :
  supported sr adj ->
  log2SynthesisHop (make sr adj) = log2_floor (input sr) - 6 + adj.
Proof.
  intros (Hi & Ho & Hh). pose proof (log2_floor_int _ Hi) as HL.
  unfold make, add32, sub32. cbn [log2SynthesisHop].
  rewrite (int32_id (_ - 6)) by (apply fits32_bounds; lia).
  apply int32_id. apply fits32_bounds. lia.
Qed.

Lemma pow2_le_pow2 a b : 0 <= a <= b -> 0 < 2 ^ a <= 2 ^ b.
Proof.
  intros Hab. split; [apply Z.pow_pos_nonneg; lia|].
  apply Z.pow_le_mono_r; lia.
Qed.

Lemma shifted_rate_bound x s :
  0 < x <= INT_MAX -> 0 <= s <= 31 -> 0 < Z.shiftl x s < 2 ^ 62.
Proof.
  unfold INT_MAX. intros Hx Hs. rewrite Z.shiftl_mul_pow2 by lia.
  pose proof (pow2_le_pow2 s 31 ltac:(lia)) as Hp.
  change (2 ^ 31) with 2147483648 in *.
  change (2 ^ 62) with 4611686018427387904. nia.
Qed.

Lemma maxInputFrameCount_value sr adj :
  supported sr adj ->
  maxInputFrameCount (make sr adj)
  = int32 (inputFrameBound sr (log2SynthesisHop (make sr adj))).
Proof.
  intros Hsup. pose proof Hsup as (Hi & Ho & Hh).
  unfold maxInputFrameCount, inputFrameBound. rewrite (hop_of_make _ _ Hsup).
  cbn [sampleRates make]. set (h := log2_floor (input sr) - 6 + adj) in *.
  unfold add32, maxPitchOctaves, shl64.
  rewrite (int32_id (2 + h)) by (apply fits32_bounds; lia).
  rewrite (int32_id (2 + h + 3)) by (apply fits32_bounds; lia).
  pose proof (shifted_rate_bound (input sr) (2 + h + 3) Hi ltac:(lia)) as Hb.
  change (2 ^ 62) with 4611686018427387904 in Hb.
  rewrite (int64_id (Z.shiftl _ _)) by (apply fits64_bounds; lia).
  rewrite Z.quot_div_nonneg by lia.
  assert (0 <= Z.shiftl (input sr) (2 + h + 3) / output sr
          <= Z.shiftl (input sr) (2 + h + 3)) as Hq.
  { split; [apply Z.div_pos; lia|].
    apply Z.div_le_upper_bound; [lia|].
    rewrite <- (Z.mul_1_l (Z.shiftl _ _)) at 1.
    apply Z.mul_le_mono_nonneg_r; lia. }
  rewrite int64_id by (apply fits64_bounds; lia). reflexivity.
Qed.

Lemma maxOutputFrameCount_value sr adj :
  supported sr adj ->
  maxOutputFrameCount (make sr adj)
  = int32 (outputFrameBound sr (log2SynthesisHop (make sr adj))).
Proof.
  intros Hsup. pose proof Hsup as (Hi & Ho & Hh).
  unfold maxOutputFrameCount, outputFrameBound. rewrite (hop_of_make _ _ Hsup).
  cbn [sampleRates make]. set (h := log2_floor (input sr) - 6 + adj) in *.
  unfold add32, maxPitchOctaves, shl64.
  rewrite (int32_id (2 + h)) by (apply fits32_bounds; lia).
  pose proof (shifted_rate_bound (output sr) (2 + h) Ho ltac:(lia)) as Hb.
  change (2 ^ 62) with 4611686018427387904 in Hb.
  rewrite (int64_id (Z.shiftl _ _)) by (apply fits64_bounds; lia).
  rewrite Z.quot_div_nonneg by lia.
  assert (0 <= Z.shiftl (output sr) (2 + h) / input sr
          <= Z.shiftl (output sr) (2 + h)) as Hq.
  { split; [apply Z.div_pos; lia|].
    apply Z.div_le_upper_bound; [lia|].
    rewrite <- (Z.mul_1_l (Z.shiftl _ _)) at 1.
    apply Z.mul_le_mono_nonneg_r; lia. }
  rewrite int64_id by (apply fits64_bounds; lia). reflexivity.
Qed.

Lemma inputFrameBound_pos sr h :
  0 < input sr -> 0 < output sr -> 0 <= maxPitchOctaves + h + 3 ->
  0 < inputFrameBound sr h.
Proof.
  intros Hi Ho Hs. unfold inputFrameBound.
  rewrite Z.shiftl_mul_pow2 by lia.
  assert (0 <= input sr * 2 ^ (maxPitchOctaves + h + 3) / output sr); [|lia].
  apply Z.div_pos; [|lia]. pose proof (Z.pow_pos_nonneg 2 _ ltac:(lia) Hs). nia.
Qed.

Lemma outputFrameBound_pos sr h :
  0 < input sr -> 0 < output sr -> 0 <= maxPitchOctaves + h ->
  0 < outputFrameBound sr h.
Proof.
  intros Hi Ho Hs. unfold outputFrameBound.
  rewrite Z.shiftl_mul_pow2 by lia.
  assert (0 <= output sr * 2 ^ (maxPitchOctaves + h) / input sr); [|lia].
  apply Z.div_pos; [|lia]. pose proof (Z.pow_pos_nonneg 2 _ ltac:(lia) Hs). nia.
Qed.

End TimingFacts.

Module TimingClaims.

Import Timing TimingSpec TimingFacts Samples BinaryFacts.

(** C4: when speed and position are both finite, [next] adds
    [calculateInputHop] to the position and clears [reset]; when either of
    them is NaN, the position is left as it is. *)
Theorem next_advances_or_keeps setup t (r : Request) :
  (is_finite (speed r) = true /\ is_finite (position r) = true ->
   position (next setup t r) = (position r + calculateInputHop setup t r)%float
   /\ reset (next setup t r) = false)
  /\ (is_nan (speed r) = true \/ is_nan (position r) = true ->
      position (next setup t r) = position r).
Proof.
  unfold next, is_finite. split.
  - intros [Hs Hp].
    destruct (is_nan (speed r)); [discriminate Hs|].
    destruct (is_nan (position r)); [discriminate Hp|].
    cbn. split; reflexivity.
  - intros [Hn | Hn]; rewrite Hn; cbn; [|rewrite andb_false_r]; reflexivity.
Qed.

(** C10: [preroll] and [next] leave speed, pitch and resampleMode alone. *)
Theorem preroll_next_frame setup t (r : Request) :
  (speed (preroll setup t r) = speed r
   /\ pitch (preroll setup t r) = pitch r
   /\ resampleMode (preroll setup t r) = resampleMode r)
  /\ (speed (next setup t r) = speed r
      /\ pitch (next setup t r) = pitch r
      /\ resampleMode (next setup t r) = resampleMode r).
Proof.
  split; [cbn; auto|]. unfold next.
  destruct (negb (is_nan (speed r)) && negb (is_nan (position r))); cbn; auto.
Qed.

(** [calculateInputHop] reads speed, pitch and resampleMode only, so it is
    the same before and after [preroll]. *)
Lemma hop_after_preroll setup t r :
  calculateInputHop setup t (preroll setup t r) = calculateInputHop setup t r.
Proof. reflexivity. Qed.

(** C5, as the code has it: [next] after [preroll] adds back the hop that
    [preroll] took away, each operation rounded to a double, and clears
    [reset]; the other fields are those of the request.  The position is
    the one before [preroll] when the hop is zero, and when position and
    hop are whole numbers of frames below 2^51; otherwise it is so only as
    far as the two roundings allow. *)
Theorem preroll_then_next setup t (r : Request) :
  is_nan (speed r) = false ->
  is_nan (position r - calculateInputHop setup t r)%float = false ->
  next setup t (preroll setup t r)
  = {| position :=
         (position r - calculateInputHop setup t r
          + calculateInputHop setup t r)%float;
       speed := speed r;
       pitch := pitch r;
       reset := false;
       resampleMode := resampleMode r |}
  /\ ((calculateInputHop setup t r =? 0)%float = true ->
      (position (next setup t (preroll setup t r)) =? position r)%float = true)
  /\ (forall a b,
        Z.abs a < 2 ^ 51 -> Z.abs b < 2 ^ 51 ->
        position r = of_int a -> calculateInputHop setup t r = of_int b ->
        position (next setup t (preroll setup t r)) = position r).
Proof.
  intros Hs Hp.
  assert (next setup t (preroll setup t r)
          = {| position :=
                 (position r - calculateInputHop setup t r
                  + calculateInputHop setup t r)%float;
               speed := speed r;
               pitch := pitch r;
               reset := false;
               resampleMode := resampleMode r |}) as Hnext.
  { unfold next. rewrite hop_after_preroll.
    cbn [preroll speed position pitch resampleMode]. rewrite Hs, Hp. reflexivity. }
  split; [exact Hnext|]. rewrite Hnext. cbn [position]. split.
  - intros Hzero. apply sub_add_zero; [|exact Hzero].
    rewrite is_nan_spec in Hp |- *. rewrite FloatAxioms.sub_spec in Hp.
    destruct (Prim2SF (position r));
      [reflexivity | reflexivity | discriminate Hp | reflexivity].
  - intros a b Ha Hb -> ->. apply sub_add_of_int; assumption.
Qed.

Lemma preroll_then_next_witness :
  next unit_ratio (make cd_rates 0) (preroll unit_ratio (make cd_rates 0) whole_request)
  = {| position := (1000 - 512 + 512)%float; speed := one; pitch := one; reset := false;
       resampleMode := 0 |}
  /\ ((calculateInputHop unit_ratio (make cd_rates 0) whole_request =? 0)%float = true ->
      (position (next unit_ratio (make cd_rates 0)
                  (preroll unit_ratio (make cd_rates 0) whole_request))
       =? position whole_request)%float = true)
  /\ (forall a b,
        Z.abs a < 2 ^ 51 -> Z.abs b < 2 ^ 51 ->
        position whole_request = of_int a ->
        calculateInputHop unit_ratio (make cd_rates 0) whole_request = of_int b ->
        position (next unit_ratio (make cd_rates 0)
                    (preroll unit_ratio (make cd_rates 0) whole_request))
        = position whole_request).
Proof.
  exact (preroll_then_next unit_ratio (make cd_rates 0) whole_request
           (eq_refl false) (eq_refl false)).
Defined.

Example whole_request_roundtrip :
  (position (next unit_ratio (make cd_rates 0)
               (preroll unit_ratio (make cd_rates 0) whole_request))
   =? 1000)%float = true.
Proof. vm_compute. reflexivity. Qed.

(** C5 fails on rounding: at 44100 Hz the hop of a grain at speed 1 is 512
    frames, and 0.1 - 512 + 512 is not 0.1 in doubles. *)
Lemma preroll_next_not_roundtrip :
  let t := make cd_rates 0 in
  is_finite (position tenth_request) = true
  /\ is_nan (speed tenth_request) = false
  /\ (calculateInputHop unit_ratio t tenth_request =? 512)%float = true
  /\ (position (next unit_ratio t (preroll unit_ratio t tenth_request))
      =? position tenth_request)%float = false
  /\ (position (next unit_ratio t (preroll unit_ratio t tenth_request))
      =? 0x1.999999999ap-4)%float = true.
Proof. vm_compute. repeat split. Qed.

(** C5 also fails at an infinite speed, whatever the resampling factor is:
    the hop is then infinite or NaN, and the position ends up NaN. *)
Lemma preroll_next_infinite_speed setup t (r : Request) :
  is_finite (position r) = true -> speed r = infinity ->
  is_nan (position (next setup t (preroll setup t r))) = true.
Proof.
  intros Hp Hs.
  set (u := (of_int (shl32 1 (log2SynthesisHop t))
             * setup (sampleRates t) (pitch r) (resampleMode r))%float).
  assert (calculateInputHop setup t (preroll setup t r) = (u * infinity)%float) as Hhop
    by (unfold calculateInputHop; cbn [preroll speed pitch resampleMode]; rewrite Hs;
        reflexivity).
  assert (position (preroll setup t r) = (position r - u * infinity)%float) as Hpre
    by (rewrite <- Hhop; reflexivity).
  unfold next. rewrite Hhop, Hpre.
  destruct (is_nan (position r - u * infinity)) eqn:Hn;
    [rewrite andb_false_r; rewrite Hpre; exact Hn|].
  replace (speed (preroll setup t r)) with infinity by (symmetry; exact Hs).
  change (is_nan infinity) with false. cbn [negb andb position].
  rewrite is_nan_spec in Hn |- *. rewrite FloatAxioms.add_spec.
  rewrite FloatAxioms.sub_spec in Hn |- *.
  apply is_finite_spec in Hp as [sp [Hp | (m & e & Hp)]]; rewrite Hp in *;
    destruct (mul_infinity u) as [Hu | [su Hu]]; rewrite Hu in *;
    try discriminate Hn; destruct su; reflexivity.
Qed.


(** C6, as the code has it: in a supported configuration the hop is
    floor(log2(input)) - 6 + adjust, and the two frame counts are the
    bounds of the spec narrowed to [int]: the bounds themselves whenever
    these fit 32 bits. *)
Theorem frame_counts_of_make sr adj :
  supported sr adj ->
  let t := make sr adj in
  log2SynthesisHop t = log2_floor (input sr) - 6 + adj
  /\ maxInputFrameCount t = int32 (inputFrameBound sr (log2SynthesisHop t))
  /\ maxOutputFrameCount t = int32 (outputFrameBound sr (log2SynthesisHop t))
  /\ (fits32 (inputFrameBound sr (log2SynthesisHop t)) ->
      maxInputFrameCount t = inputFrameBound sr (log2SynthesisHop t))
  /\ (fits32 (outputFrameBound sr (log2SynthesisHop t)) ->
      maxOutputFrameCount t = outputFrameBound sr (log2SynthesisHop t)).
Proof.
  intros Hsup t. subst t.
  rewrite (maxInputFrameCount_value _ _ Hsup), (maxOutputFrameCount_value _ _ Hsup).
  repeat split; auto using hop_of_make, int32_id.
Qed.

Lemma cd_rates_supported : supported cd_rates 0.
Proof. unfold supported, INT_MAX. simpl. lia. Qed.

Lemma frame_counts_of_make_witness :
  let t := make cd_rates 0 in
  log2SynthesisHop t = log2_floor (input cd_rates) - 6 + 0
  /\ maxInputFrameCount t = int32 (inputFrameBound cd_rates (log2SynthesisHop t))
  /\ maxOutputFrameCount t = int32 (outputFrameBound cd_rates (log2SynthesisHop t))
  /\ (fits32 (inputFrameBound cd_rates (log2SynthesisHop t)) ->
      maxInputFrameCount t = inputFrameBound cd_rates (log2SynthesisHop t))
  /\ (fits32 (outputFrameBound cd_rates (log2SynthesisHop t)) ->
      maxOutputFrameCount t = outputFrameBound cd_rates (log2SynthesisHop t)).
Proof. exact (frame_counts_of_make cd_rates 0 cd_rates_supported). Defined.

Lemma wide_rates_supported : supported wide_rates 0.
Proof. unfold supported, INT_MAX. simpl. lia. Qed.

(** C6 fails where the bound does not fit [int]: for 65536 Hz in and 1 Hz
    out the bound is 2^31 + 1, and [int(max + 1)] is -(2^31 - 1). *)
Lemma maxInputFrameCount_narrowed :
  let t := make wide_rates 0 in
  supported wide_rates 0
  /\ log2SynthesisHop t = 10
  /\ inputFrameBound wide_rates (log2SynthesisHop t) = 2147483649
  /\ maxInputFrameCount t = -2147483647
  /\ maxInputFrameCount t <> inputFrameBound wide_rates (log2SynthesisHop t).
Proof.
  split; [exact wide_rates_supported|]. vm_compute. repeat split; discriminate.
Qed.

(** C7 fails at the same place: the count is negative there, and smaller
    than the count of the lower input rate 65535 Hz. *)
Lemma maxInputFrameCount_not_positive :
  supported wide_rates 0 /\ supported narrow_rates 0
  /\ output narrow_rates = output wide_rates
  /\ input narrow_rates <= input wide_rates
  /\ maxInputFrameCount (make wide_rates 0) = -2147483647
  /\ maxInputFrameCount (make narrow_rates 0) = 1073725441
  /\ ~ 0 < maxInputFrameCount (make wide_rates 0)
  /\ ~ maxInputFrameCount (make narrow_rates 0) <= maxInputFrameCount (make wide_rates 0).
Proof.
  split; [exact wide_rates_supported|].
  split; [unfold supported, INT_MAX; simpl; lia|].
  vm_compute. repeat split; try discriminate; intros Hc; apply Hc; reflexivity.
Qed.

Lemma inputFrameBound_mono sr sr' adj :
  supported sr adj -> supported sr' adj ->
  output sr' = output sr -> input sr <= input sr' ->
  inputFrameBound sr (log2SynthesisHop (make sr adj))
  <= inputFrameBound sr' (log2SynthesisHop (make sr' adj)).
Proof.
  intros Hs Hs' Ho Hi. rewrite !hop_of_make by assumption.
  destruct Hs as (Hi1 & Ho1 & Hh1), Hs' as (Hi2 & Ho2 & Hh2).
  unfold inputFrameBound, maxPitchOctaves. rewrite Ho.
  rewrite !Z.shiftl_mul_pow2 by lia.
  assert (log2_floor (input sr) <= log2_floor (input sr')) as HL
    by (apply Z.log2_le_mono; lia).
  apply Z.add_le_mono_r, Z.div_le_mono; [lia|].
  pose proof (pow2_le_pow2 (2 + (log2_floor (input sr) - 6 + adj) + 3)
                (2 + (log2_floor (input sr') - 6 + adj) + 3) ltac:(lia)).
  nia.
Qed.

Lemma outputFrameBound_mono sr sr' adj :
  supported sr adj -> supported sr' adj ->
  input sr' = input sr -> output sr <= output sr' ->
  outputFrameBound sr (log2SynthesisHop (make sr adj))
  <= outputFrameBound sr' (log2SynthesisHop (make sr' adj)).
Proof.
  intros Hs Hs' Hi Ho. rewrite !hop_of_make by assumption.
  destruct Hs as (Hi1 & Ho1 & Hh1), Hs' as (Hi2 & Ho2 & Hh2).
  unfold outputFrameBound, maxPitchOctaves. rewrite Hi.
  rewrite !Z.shiftl_mul_pow2 by lia.
  apply Z.add_le_mono_r, Z.div_le_mono; [lia|].
  pose proof (pow2_le_pow2 (2 + (log2_floor (input sr) - 6 + adj))
                (2 + (log2_floor (input sr) - 6 + adj)) ltac:(lia)).
  nia.
Qed.

(** C7, as the code has it: in a supported configuration whose bounds fit
    [int], both frame counts are positive; [maxInputFrameCount] does not
    decrease when the input rate grows (output rate and adjustment fixed),
    nor [maxOutputFrameCount] when the output rate grows (input rate and
    adjustment fixed), as long as the bound at the larger rate fits. *)
Theorem frame_counts_positive_monotone sr adj :
  supported sr adj ->
  (fits32 (inputFrameBound sr (log2SynthesisHop (make sr adj))) ->
   0 < maxInputFrameCount (make sr adj))
  /\ (fits32 (outputFrameBound sr (log2SynthesisHop (make sr adj))) ->
      0 < maxOutputFrameCount (make sr adj))
  /\ (forall sr',
        supported sr' adj -> output sr' = output sr -> input sr <= input sr' ->
        fits32 (inputFrameBound sr' (log2SynthesisHop (make sr' adj))) ->
        maxInputFrameCount (make sr adj) <= maxInputFrameCount (make sr' adj))
  /\ (forall sr',
        supported sr' adj -> input sr' = input sr -> output sr <= output sr' ->
        fits32 (outputFrameBound sr' (log2SynthesisHop (make sr' adj))) ->
        maxOutputFrameCount (make sr adj) <= maxOutputFrameCount (make sr' adj)).
Proof.
  intros Hsup. pose proof Hsup as (Hi & Ho & Hh).
  pose proof (hop_of_make _ _ Hsup) as Hhop.
  assert (0 < inputFrameBound sr (log2SynthesisHop (make sr adj))) as Hpi
    by (apply inputFrameBound_pos; unfold maxPitchOctaves; lia).
  assert (0 < outputFrameBound sr (log2SynthesisHop (make sr adj))) as Hpo
    by (apply outputFrameBound_pos; unfold maxPitchOctaves; lia).
  repeat split.
  - intros Hf. rewrite maxInputFrameCount_value, int32_id; assumption.
  - intros Hf. rewrite maxOutputFrameCount_value, int32_id; assumption.
  - intros sr' Hsup' Hout Hin Hf.
    pose proof (inputFrameBound_mono _ _ _ Hsup Hsup' Hout Hin) as Hm.
    rewrite !maxInputFrameCount_value by assumption.
    rewrite (int32_id _ Hf). rewrite int32_id; [assumption|].
    apply fits32_bounds. apply (proj1 (fits32_bounds _)) in Hf. lia.
  - intros sr' Hsup' Hin Hout Hf.
    pose proof (outputFrameBound_mono _ _ _ Hsup Hsup' Hin Hout) as Hm.
    rewrite !maxOutputFrameCount_value by assumption.
    rewrite (int32_id _ Hf). rewrite int32_id; [assumption|].
    apply fits32_bounds. apply (proj1 (fits32_bounds _)) in Hf. lia.
Qed.

Lemma frame_counts_positive_monotone_witness :
  (fits32 (inputFrameBound cd_rates (log2SynthesisHop (make cd_rates 0))) ->
   0 < maxInputFrameCount (make cd_rates 0))
  /\ (fits32 (outputFrameBound cd_rates (log2SynthesisHop (make cd_rates 0))) ->
      0 < maxOutputFrameCount (make cd_rates 0))
  /\ (forall sr',
        supported sr' 0 -> output sr' = output cd_rates -> input cd_rates <= input sr' ->
        fits32 (inputFrameBound sr' (log2SynthesisHop (make sr' 0))) ->
        maxInputFrameCount (make cd_rates 0) <= maxInputFrameCount (make sr' 0))
  /\ (forall sr',
        supported sr' 0 -> input sr' = input cd_rates -> output cd_rates <= output sr' ->
        fits32 (outputFrameBound sr' (log2SynthesisHop (make sr' 0))) ->
        maxOutputFrameCount (make cd_rates 0) <= maxOutputFrameCount (make sr' 0)).
Proof. exact (frame_counts_positive_monotone cd_rates 0 cd_rates_supported). Defined.

End TimingClaims.

(** ** The input sliding window *)

Module WindowClaims.

Import Stream Samples.

Section WithStretcher.

Context {E : Type} `{Stretcher E}.

(** [append] touches neither the engine, nor the chunk, nor the sizes. *)
Lemma append_frame n inputs (b : InputBuffer E) :
  stretcher (append n inputs b) = stretcher b
  /\ inputChunk (append n inputs b) = inputChunk b
  /\ window_channelStride (append n inputs b) = window_channelStride b
  /\ window_channelCount (append n inputs b) = window_channelCount b.
Proof.
  unfold append.
  destruct (chunk_begin (inputChunk b) <? window_end b);
    [destruct (window_begin b <? chunk_begin (inputChunk b))|];
    cbn; auto.
Qed.

(** Where the window begins and ends after [append], overflow apart. *)
Lemma append_bounds n inputs (b : InputBuffer E) :
  fits32 (chunk_begin (inputChunk b)) ->
  0 <= window_begin b <= window_end b ->
  0 <= n -> window_end b + n <= INT_MAX ->
  window_end (append n inputs b) = window_end b + n
  /\ window_begin (append n inputs b)
     = if chunk_begin (inputChunk b) <? window_end b
       then Z.max (window_begin b) (chunk_begin (inputChunk b))
       else window_end b + Z.min (chunk_begin (inputChunk b) - window_begin b) n.
Proof.
  intros Hc Hbe Hn Hov.
  apply (proj1 (fits32_bounds _)) in Hc.
  unfold INT_MAX in Hov. change (2 ^ 31) with 2147483648 in Hov.
  unfold append.
  destruct (Z.ltb_spec (chunk_begin (inputChunk b)) (window_end b)) as [Hlt | Hge].
  - destruct (Z.ltb_spec (window_begin b) (chunk_begin (inputChunk b))) as [Hlt' | Hge'];
      cbn [window_end window_begin]; unfold add32;
      rewrite !int32_id by (apply fits32_bounds; lia); split; lia.
  - cbn [window_end window_begin]. unfold add32, sub32.
    rewrite (int32_id (chunk_begin (inputChunk b) - window_begin b))
      by (apply fits32_bounds; lia).
    rewrite !int32_id by (apply fits32_bounds; lia). split; reflexivity.
Qed.

(** What [append] does keep: [0 <= begin <= end] and
    [end - begin <= capacity] (so both of its assertions pass) when the
    count is between 0 and the block size the buffer was made for,
    [end + inputSampleCount] does not overflow [int], and a chunk that
    still overlaps the window begins at most [maxInputFrameCount()]
    frames before the window's end. *)
Theorem append_keeps_window n maxInputSampleCount inputs (b : InputBuffer E) :
  fits32 (chunk_begin (inputChunk b)) ->
  window_channelStride b = maxInputFrameCount (stretcher b) + maxInputSampleCount ->
  0 <= maxInputFrameCount (stretcher b) ->
  0 <= window_begin b <= window_end b ->
  window_end b - window_begin b <= window_channelStride b ->
  0 <= n <= maxInputSampleCount ->
  window_end b + n <= INT_MAX ->
  (chunk_begin (inputChunk b) < window_end b ->
   window_end b - chunk_begin (inputChunk b) <= maxInputFrameCount (stretcher b)) ->
  let b' := append n inputs b in
  0 <= window_begin b' <= window_end b'
  /\ window_end b' - window_begin b' <= window_channelStride b'
  /\ append_asserts b' = true.
Proof.
  intros Hc Hcap HM Hbe Hinv Hn Hov Htail b'.
  destruct (append_bounds n inputs b Hc Hbe (proj1 Hn) Hov) as [He Hb].
  destruct (append_frame n inputs b) as (_ & _ & Hstride & _).
  fold b' in He, Hb, Hstride.
  assert (0 <= window_begin b' <= window_end b'
          /\ window_end b' - window_begin b' <= window_channelStride b') as Hgoal.
  { rewrite He, Hb, Hstride.
    destruct (Z.ltb_spec (chunk_begin (inputChunk b)) (window_end b)) as [Hlt | Hge].
    - specialize (Htail Hlt). lia.
    - lia. }
  destruct Hgoal as [Hord Hsize]. repeat split; try lia.
  unfold append_asserts. apply andb_true_intro. split; [apply Z.leb_le; lia|].
  apply Z.leb_le. unfold sub32. rewrite int32_id; [lia|].
  apply fits32_bounds. unfold INT_MAX in Hov.
  change (2 ^ 31) with 2147483648 in Hov. lia.
Qed.

(** C9: [InputBuffer::analyseGrain] hands the engine the window's own
    memory, with the data pointer [muteHead] frames before its start,
    the window's stride, [muteHead = begin - inputChunk.begin] and
    [muteTail = inputChunk.end - end] (in [int] arithmetic); the window
    itself, its samples included, is left as it was.  When [muteHead]
    does not overflow, frame [i] behind the forwarded pointer is the
    cell the window keeps for the absolute frame [inputChunk.begin + i]. *)
Theorem analyseGrain_forwards_window (b : InputBuffer E) :
  let head := sub32 (window_begin b) (chunk_begin (inputChunk b)) in
  let tail := sub32 (chunk_end (inputChunk b)) (window_end b) in
  stretcher (InputBuffer_analyseGrain b)
  = analyseGrain (stretcher b) (buffer b) (- head) (window_channelStride b) head tail
  /\ buffer (InputBuffer_analyseGrain b) = buffer b
  /\ window_begin (InputBuffer_analyseGrain b) = window_begin b
  /\ window_end (InputBuffer_analyseGrain b) = window_end b
  /\ inputChunk (InputBuffer_analyseGrain b) = inputChunk b
  /\ window_channelStride (InputBuffer_analyseGrain b) = window_channelStride b
  /\ window_channelCount (InputBuffer_analyseGrain b) = window_channelCount b
  /\ (fits32 (window_begin b - chunk_begin (inputChunk b)) ->
      forall i, - head + i = (chunk_begin (inputChunk b) + i) - window_begin b).
Proof.
  cbn. repeat split. intros Hf i. unfold sub32. rewrite (int32_id _ Hf). lia.
Qed.

(** [Stream] forwards a grain in [synthesisePending] only: the window it
    holds afterwards has the samples, bounds and chunk it had before. *)
Lemma synthesisePending_keeps_window (s : Stream E) :
  let b := inputBuffer (synthesisePending s) in
  buffer b = buffer (inputBuffer s)
  /\ window_begin b = window_begin (inputBuffer s)
  /\ window_end b = window_end (inputBuffer s)
  /\ inputChunk b = inputChunk (inputBuffer s).
Proof.
  unfold synthesisePending. destruct (negb _); [|cbn; auto].
  destruct (synthesiseGrain _). cbn. auto.
Qed.

End WithStretcher.

Import Run.

(** The window [0, 4) with the chunk [1, 3): [append] moves the window
    up to the chunk and adds the block behind it. *)
Lemma append_keeps_window_witness :
  (chunk_begin (inputChunk overlapped_window) < window_end overlapped_window
   /\ window_begin overlapped_window < chunk_begin (inputChunk overlapped_window))
  /\ let b' := append 4 None overlapped_window in
     0 <= window_begin b' <= window_end b'
     /\ window_end b' - window_begin b' <= window_channelStride b'
     /\ append_asserts b' = true.
Proof.
  split; [vm_compute; split; reflexivity|].
  apply (append_keeps_window 4 4 None overlapped_window); closed_facts.
Defined.

(** C3: [append] breaks the invariant, and fails its own assertion, on
    calls that [process] admits.  The buffer was made for blocks of four
    frames and holds eight.  Two calls of [process] that each feed four
    frames and ask for an eighth of a sample return (nothing is due yet)
    and leave the window full, [0, 8), with the chunk still the empty
    [0, 0) of a stream that has specified no grain: the count, the chunk
    and the invariant are as C3 asks.  The third such call appends four
    more frames: the window is [0, 12), longer than the buffer, and
    [assert(end - begin <= channelStride)] fails. *)
Lemma append_overflows_window :
  exists b : InputBuffer TestEngine.t,
    full_window = Some b
    /\ maxInputFrameCount (stretcher b) = 4
    /\ window_channelStride b = maxInputFrameCount (stretcher b) + 4
    /\ window_begin b = 0 /\ window_end b = 8
    /\ append_asserts b = true
    /\ inputChunk b = {| chunk_begin := 0; chunk_end := 0 |}
    /\ window_begin (append 4 None b) = 0
    /\ window_end (append 4 None b) = 12
    /\ ~ window_end (append 4 None b) - window_begin (append 4 None b)
         <= window_channelStride (append 4 None b)
    /\ append_asserts (append 4 None b) = false
    /\ option_map (fun s => (window_begin (inputBuffer s), window_end (inputBuffer s),
                             append_asserts (inputBuffer s)))
         (run [silence 0 4 0.125; silence 0 4 0.125; silence 0 4 0.125] small_stream)
       = Some (0, 12, false).
Proof.
  eexists. split; [vm_compute; reflexivity|].
  vm_compute. repeat split; try discriminate. intros Hc. apply Hc. reflexivity.
Qed.

(** Two more ways out of the invariant that the count's type leaves open:
    a negative count, and a count that overflows [end]. *)
Lemma append_negative_count :
  let b := append 4 None (inputBuffer small_stream) in
  append_asserts b = true /\ append_asserts (append (-5) None b) = false.
Proof. vm_compute. split; reflexivity. Qed.

Lemma append_overflows_int :
  let b := append INT_MAX None (inputBuffer small_stream) in
  window_begin b = 0 /\ window_end b = 2147483647
  /\ window_begin (append 1 None b) = 0
  /\ window_end (append 1 None b) = -2147483648.
Proof. lazy. repeat split. Qed.

End WindowClaims.

(** ** The reset flag of the grains that [process] specifies *)

Module ResetClaims.

Import Stream Run Trace Samples Invariants.

Lemma nan_not_below (x : double) : (nan <? x)%float = false.
Proof. rewrite FloatAxioms.ltb_spec. reflexivity. Qed.

Section WithStretcher.

Context {E : Type} `{Stretcher E}.

(** The request that [nextGrain] passes on carries [reset] exactly when
    the new position is not above the one the stream held before. *)
Lemma nextGrain_reset n o (p : Progress E) :
  let r := request (stream p) in
  let r' := request (stream (nextGrain n o p)) in
  reset r' = negb (position r <? position r')%float.
Proof.
  cbn zeta. unfold nextGrain.
  assert (request (synthesisePending (stream p)) = request (stream p)) as Hr.
  { unfold synthesisePending. destruct (negb _); [|reflexivity].
    destruct (synthesiseGrain _). reflexivity. }
  destruct (specifyGrain _ _ _). cbn. rewrite Hr. reflexivity.
Qed.

Lemma recorded_make (e : E) maxInputSampleCount channelCount :
  recorded (make (mkLogged e []) maxInputSampleCount channelCount).
Proof. split; cbn; auto. Qed.

Lemma recorded_enter inputs outs n o pitch' (s : Stream (Logged E)) :
  recorded s -> recorded (stream (enter inputs outs n o pitch' s)).
Proof.
  intros [Hl Hp]. unfold recorded. cbn [enter stream inputBuffer request position].
  destruct (WindowClaims.append_frame n inputs (inputBuffer s)) as (-> & _). auto.
Qed.

Lemma recorded_synthesisePending (s : Stream (Logged E)) :
  recorded s -> recorded (synthesisePending s).
Proof.
  intros [Hl Hp]. unfold synthesisePending.
  destruct (negb _); [|split; assumption].
  cbn. destruct (synthesiseGrain _). split; assumption.
Qed.

Lemma recorded_nextGrain n o (p : Progress (Logged E)) :
  recorded (stream p) -> recorded (stream (nextGrain n o p)).
Proof.
  intros Hrec. apply recorded_synthesisePending in Hrec. destruct Hrec as [Hl Hp].
  unfold nextGrain. cbn. destruct (specifyGrain _ _ _). cbn.
  split; [|reflexivity]. split; [|assumption].
  cbn. rewrite Hp. reflexivity.
Qed.

Lemma recorded_iteration g n o (p : Progress (Logged E)) :
  recorded (stream p) -> recorded (stream (iteration g n o p)).
Proof.
  intros Hrec. unfold iteration.
  assert (recorded (stream (if g then nextGrain n o p else p))) as Hrec'
    by (destruct g; auto using recorded_nextGrain).
  destruct (chunkValid _); [|assumption]. exact Hrec'.
Qed.

Lemma recorded_loop fuel g n o (p p' : Progress (Logged E)) :
  recorded (stream p) -> loop fuel g n o p = Some p' -> recorded (stream p').
Proof.
  revert g p. induction fuel as [|fuel IH]; intros g p Hrec; cbn [loop];
    destruct (unfinished p); try discriminate; try (intros [= <-]; assumption).
  apply IH. apply recorded_iteration. assumption.
Qed.

Lemma recorded_call c (s : Stream (Logged E)) r :
  recorded s -> call c s = Some r -> recorded (after r).
Proof.
  intros Hrec. unfold call, process.
  destruct (loop _ _ _ _ _) as [p'|] eqn:Hloop; [|discriminate].
  intros [= <-]. apply recorded_loop in Hloop; [|apply recorded_enter; assumption].
  exact Hloop.
Qed.

Lemma recorded_run calls (s s' : Stream (Logged E)) :
  recorded s -> run calls s = Some s' -> recorded s'.
Proof.
  revert s. induction calls as [|c calls IH]; intros s Hrec; cbn [run].
  - intros [= <-]. assumption.
  - destruct (call c s) as [r|] eqn:Hc; [|discriminate].
    apply IH. eapply recorded_call; eassumption.
Qed.

Lemma first_request_resets (log : list Request) r :
  resetsFollow (log ++ [r]) -> reset r = true.
Proof.
  induction log as [|r' log IH]; cbn.
  - intros [Hr _]. rewrite Hr, nan_not_below. reflexivity.
  - intros [_ Hl]. auto.
Qed.

Lemma recorded_turns k g n o (p : Progress (Logged E)) :
  recorded (stream p) -> recorded (stream (turns k g n o p)).
Proof.
  revert g p. induction k as [|k IH]; intros g p Hrec; cbn [turns]; [assumption|].
  destruct (unfinished p); [|assumption]. apply IH, recorded_iteration, Hrec.
Qed.

(** C8: a fresh stream is taken through any calls of [process] that return
    and then any number of turns into a further call, finished or not.  Of
    the requests handed to [specifyGrain] so far, each has [reset] set
    exactly when its position is not strictly greater than the position of
    the request before it ([request.position] as the stream held it, NaN
    before the first grain); the first request so handed over has [reset]
    set. *)
Theorem resets_follow_positions (e : E) maxInputSampleCount channelCount calls
  (s' : Stream (Logged E)) c k :
  run calls (make (mkLogged e []) maxInputSampleCount channelCount) = Some s' ->
  let log := specified (stretcher (inputBuffer (stream (during c k s')))) in
  resetsFollow log /\ (forall log' r, log = log' ++ [r] -> reset r = true).
Proof.
  intros Hrun log. apply recorded_run in Hrun; [|apply recorded_make].
  assert (recorded (stream (during c k s'))) as [Hl _]
    by (apply recorded_turns, recorded_enter, Hrun).
  fold log in Hl. split; [assumption|].
  intros log' r Hlog. rewrite Hlog in Hl. eapply first_request_resets; eassumption.
Qed.

End WithStretcher.

Lemma resets_follow_positions_witness :
  let log :=
    specified (stretcher (inputBuffer (stream (during (silence 20 4 4) 3 logged_stream)))) in
  resetsFollow log /\ (forall log' r, log = log' ++ [r] -> reset r = true).
Proof.
  apply (resets_follow_positions TestEngine.fresh 4 1 three_blocks logged_stream
           (silence 20 4 4) 3).
  vm_compute. reflexivity.
Defined.

Example logged_positions :
  map (fun r => (to_int (position r), reset r))
    (specified (stretcher (inputBuffer (stream (during (silence 20 4 4) 3 logged_stream)))))
  = [(13, false); (10, false); (7, false); (4, false); (1, false); (-2, true); (-2, true);
     (-2, true)].
Proof. vm_compute. reflexivity. Qed.

End ResetClaims.

(** ** The output dithering loop *)

Module DitherClaims.

Import Stream Run Samples Invariants.

(** C1 fails on a rounding: after a call that asks for just under three
    and a half samples (and returns three), the remainder is just under one
    half; a call that then asks for exactly 512 samples finds 512.5 in the
    rounded accumulator and returns 513, which is neither floor(512) nor
    ceil(512): the assertion that closes [process] fails. *)
Lemma process_beyond_ceil :
  exists r1 r2 : Result TestEngine.t,
    call (silence 20 4 below_half_past_three) small_stream = Some r1
    /\ returned r1 = 3
    /\ process_assert below_half_past_three (returned r1) = true
    /\ (samplesNeeded (after r1) =? 0x1.ffffffffffff8p-2)%float = true
    /\ (samplesNeeded (after r1) + 512 =? 512.5)%float = true
    /\ call (silence 400 4 512) (after r1) = Some r2
    /\ returned r2 = 513
    /\ map (@length sample) (outputs r2) = [513%nat]
    /\ (floor 512 =? 512)%float = true /\ (ceil 512 =? 512)%float = true
    /\ process_assert 512 (returned r2) = false.
Proof.
  eexists. eexists.
  split; [vm_compute; reflexivity|].
  split; [reflexivity|].
  split; [vm_compute; reflexivity|].
  split; [vm_compute; reflexivity|].
  split; [vm_compute; reflexivity|].
  split; [vm_compute; reflexivity|].
  vm_compute. repeat split.
Qed.

Lemma sub_nan_is_nan (x : double) : is_nan (x - nan) = true.
Proof.
  unfold is_nan. rewrite FloatAxioms.eqb_spec, FloatAxioms.sub_spec.
  change (Prim2SF nan) with S754_nan.
  destruct (Prim2SF x); reflexivity.
Qed.

Section WithStretcher.

Context {E : Type} `{Stretcher E}.

Lemma stalled_unfinished (p : Progress E) : stalled p -> unfinished p = true.
Proof. intros (Hc & Hs & _). unfold unfinished. rewrite Hc, Hs. reflexivity. Qed.

Lemma stalled_iteration g (p : Progress E) :
  stalled p -> stalled (iteration g 256 two_fifths p).
Proof.
  intros (Hc & Hs & Hn & Hq). unfold iteration.
  assert (stalled (if g then nextGrain 256 two_fifths p else p)) as (Hc' & Hs' & Hn' & Hq').
  { destruct g; [|repeat split; assumption].
    unfold nextGrain, synthesisePending. rewrite Hn. cbn [negb].
    destruct (specifyGrain _ _ _). cbn.
    repeat split; try assumption.
    unfold grainPosition. rewrite Hc.
    change (of_int 256 * (round two_fifths - of_int 0) / round two_fifths)%float
      with nan.
    apply sub_nan_is_nan. }
  unfold chunkValid. rewrite Hq'. cbn [Z.eqb nullptr negb andb].
  repeat split; assumption.
Qed.

Lemma stalled_loop fuel g (p : Progress E) :
  stalled p -> loop fuel g 256 two_fifths p = None.
Proof.
  revert g p. induction fuel as [|fuel IH]; intros g p Hp; cbn [loop];
    rewrite (stalled_unfinished p Hp); [reflexivity|].
  apply IH, stalled_iteration, Hp.
Qed.

(** On any engine: a fresh stream is asked twice for two fifths of a
    sample per block of 256 frames.  The first call returns no sample;
    the second owes one, computes the position of its grain as
    256 * 0 / 0, a NaN, never has a grain synthesised, and so never
    leaves its loop, however many turns it is given. *)
Theorem process_stalls (e : E) maxInputSampleCount channelCount
  fuel1 inputs1 outs1 pitch1 fuel2 inputs2 outs2 pitch2 :
  exists r1 : Result E,
    process fuel1 inputs1 outs1 256 two_fifths pitch1
      (make e maxInputSampleCount channelCount) = Some r1
    /\ returned r1 = 0
    /\ process fuel2 inputs2 outs2 256 two_fifths pitch2 (after r1) = None.
Proof.
  eexists. split; [|split].
  - unfold process. destruct fuel1; cbn [loop]; reflexivity.
  - reflexivity.
  - unfold process. rewrite stalled_loop; [reflexivity|].
    repeat split.
Qed.

End WithStretcher.

End DitherClaims.

(** ** The fractional accumulator *)

Module AccumulatorClaims.

Import Stream Run Binary64 BinaryFacts Samples Invariants.

Section WithStretcher.

Context {E : Type} `{Stretcher E}.

Lemma nextGrain_keeps n o (p : Progress E) :
  sampleCounter (nextGrain n o p) = sampleCounter p
  /\ samplesNeeded (stream (nextGrain n o p)) = samplesNeeded (stream p).
Proof.
  unfold nextGrain.
  assert (samplesNeeded (synthesisePending (stream p)) = samplesNeeded (stream p)) as Hs.
  { unfold synthesisePending. destruct (negb _); [|reflexivity].
    destruct (synthesiseGrain _). reflexivity. }
  destruct (specifyGrain _ _ _). cbn. auto.
Qed.

(** What a turn of the loop leaves alone, and the type of what it changes. *)
Lemma iteration_keeps g n o (p : Progress E) :
  fits32 (sampleCounter p) ->
  fits32 (sampleCounter (iteration g n o p))
  /\ samplesNeeded (stream (iteration g n o p)) = samplesNeeded (stream p).
Proof.
  intros Hc. unfold iteration.
  assert (fits32 (sampleCounter (if g then nextGrain n o p else p))
          /\ samplesNeeded (stream (if g then nextGrain n o p else p))
             = samplesNeeded (stream p)) as [Hc' Hs'].
  { destruct g; [|auto]. destruct (nextGrain_keeps n o p) as [-> ->]. auto. }
  destruct (chunkValid _); [|auto].
  cbn [copyOut sampleCounter stream samplesNeeded]. split; [apply int32_range|assumption].
Qed.

(** The loop is left only with [sampleCounter == std::round(samplesNeeded)],
    and [samplesNeeded] is then what it was on entry. *)
Lemma loop_exit fuel g n o (p p' : Progress E) :
  fits32 (sampleCounter p) ->
  loop fuel g n o p = Some p' ->
  fits32 (sampleCounter p')
  /\ samplesNeeded (stream p') = samplesNeeded (stream p)
  /\ (of_int (sampleCounter p') =? round (samplesNeeded (stream p)))%float = true.
Proof.
  revert g p. induction fuel as [|fuel IH]; intros g p Hc; cbn [loop];
    destruct (unfinished p) eqn:Hu; try discriminate.
  - intros [= <-]. unfold unfinished in Hu. apply negb_false_iff in Hu. auto.
  - intros Hl. destruct (iteration_keeps g n o p Hc) as [Hc' Hs'].
    destruct (IH _ _ Hc' Hl) as (? & ? & ?). rewrite Hs' in *. auto.
  - intros [= <-]. unfold unfinished in Hu. apply negb_false_iff in Hu. auto.
Qed.

(** A loop that is left within [fuel] turns is left where [turns] says. *)
Lemma loop_turns fuel g n o (p p' : Progress E) :
  loop fuel g n o p = Some p' -> p' = turns fuel g n o p.
Proof.
  revert g p. induction fuel as [|fuel IH]; intros g p; cbn [loop turns];
    destruct (unfinished p); try discriminate; try (intros [= <-]; reflexivity).
  apply IH.
Qed.

Lemma fits32_small k : fits32 k -> - 2 ^ 53 < k < 2 ^ 53.
Proof.
  intros Hk. apply (proj1 (fits32_bounds _)) in Hk.
  change (2 ^ 53) with 9007199254740992. lia.
Qed.

(** What a call of [process] that returns has done to the accumulator. *)
Lemma call_returns c (s : Stream E) r :
  call c s = Some r ->
  let x := (samplesNeeded s + outputSampleCount c)%float in
  fits32 (returned r)
  /\ (of_int (returned r) =? round x)%float = true
  /\ samplesNeeded (after r) = (x - of_int (returned r))%float.
Proof.
  intros Hc x. unfold call, process in Hc.
  match type of Hc with
  | option_map _ ?l = _ => destruct l as [p'|] eqn:Hl; [|discriminate]
  end.
  injection Hc as <-.
  apply loop_exit in Hl; [|apply (proj2 (fits32_bounds _)); unfold enter; cbn [sampleCounter]; lia].
  destruct Hl as (Hf & Hs & He). cbn [enter stream samplesNeeded] in Hs, He.
  cbn [leave returned after samplesNeeded]. rewrite Hs. auto.
Qed.

Lemma call_within_half c (s : Stream E) r :
  call c s = Some r -> withinHalf (samplesNeeded (after r)).
Proof.
  intros Hc. destruct (call_returns c s r Hc) as (Hf & He & ->).
  apply remainder_within_half; [apply fits32_small|]; assumption.
Qed.

(** At every call boundary the carried remainder [samplesNeeded] lies
    in [-1/2, +1/2]. *)
Lemma run_within_half calls (s s' : Stream E) :
  withinHalf (samplesNeeded s) -> run calls s = Some s' -> withinHalf (samplesNeeded s').
Proof.
  revert s. induction calls as [|c calls IH]; intros s Hs; cbn [run].
  - intros [= <-]. assumption.
  - destruct (call c s) as [r|] eqn:Hc; [|discriminate].
    apply IH. eapply call_within_half. eassumption.
Qed.

(** On any engine: when a fresh stream is asked for just under three and
    a half samples and then for exactly 512, and both calls return, the
    first returns 3 and the second 513, against the assertion that closes
    [process]. *)
Theorem process_returns_one_too_many (e : E) maxInputSampleCount channelCount c1 c2
  (r1 r2 : Result E) :
  outputSampleCount c1 = below_half_past_three ->
  outputSampleCount c2 = 512%float ->
  call c1 (make e maxInputSampleCount channelCount) = Some r1 ->
  call c2 (after r1) = Some r2 ->
  returned r1 = 3 /\ returned r2 = 513
  /\ process_assert (outputSampleCount c2) (returned r2) = false.
Proof.
  intros Ho1 Ho2 Hc1 Hc2.
  destruct (call_returns _ _ _ Hc1) as (Hf1 & He1 & Hs1).
  destruct (call_returns _ _ _ Hc2) as (Hf2 & He2 & _).
  rewrite Ho1 in He1, Hs1. cbn [make samplesNeeded] in He1, Hs1.
  change (round (zero + below_half_past_three)) with (of_int 3) in He1.
  apply of_int_inj in He1; [|apply fits32_small; assumption|vm_compute; split; reflexivity].
  rewrite He1 in Hs1. rewrite Hs1, Ho2 in He2.
  change (round (zero + below_half_past_three - of_int 3 + 512)) with (of_int 513) in He2.
  apply of_int_inj in He2; [|apply fits32_small; assumption|vm_compute; split; reflexivity].
  rewrite He1, He2, Ho2. repeat split.
Qed.

End WithStretcher.

End AccumulatorClaims.

(** ** Doubles that are multiples of 2^-20 *)
Module ScaledFacts.

Import Binary64 BinaryFacts Totals.







(** Rounding to an integer does not see how the mantissa is aligned. *)
Lemma round_mag_shl m j e :
  0 <= j -> e - j < 0 -> round_mag (shl m j) (e - j) = round_mag m e.
Proof.
  intros Hj He. unfold round_mag.
  destruct (Z.leb_spec 0 (e - j)) as [|_]; [lia|].
  rewrite shl_value by lia.
  pose proof (Z.pow_pos_nonneg 2 j ltac:(lia) Hj) as Hpj.
  destruct (Z.leb_spec 0 e) as [Hpos | Hneg].
  - replace (Z.pos m * 2 ^ j) with (Z.pos m * 2 ^ e * 2 ^ (- (e - j)))
      by (rewrite <- Z.mul_assoc, <- Z.pow_add_r by lia; do 2 f_equal; lia).
    pose proof (Z.pow_pos_nonneg 2 (- (e - j)) ltac:(lia) ltac:(lia)) as Hp.
    rewrite Z.div_mul, Z.mod_mul by lia.
    destruct (Z.leb_spec (2 ^ (- (e - j))) (2 * 0)); [lia | reflexivity].
  - replace (2 ^ (- (e - j))) with (2 ^ (- e) * 2 ^ j)
      by (rewrite <- Z.pow_add_r by lia; f_equal; lia).
    pose proof (Z.pow_pos_nonneg 2 (- e) ltac:(lia) ltac:(lia)) as Hp.
    rewrite Z.div_mul_cancel_r, Z.mul_mod_distr_r by lia.
    set (d := 2 ^ (- e)) in *. set (r := Z.pos m mod d).
    destruct (Z.leb_spec (d * 2 ^ j) (2 * (r * 2 ^ j))) as [H1 | H1];
      destruct (Z.leb_spec d (2 * r)) as [H2 | H2]; try reflexivity; nia.
Qed.





End ScaledFacts.

(** ** The samples given against the samples asked for *)
Module TotalsClaims.

Import Stream Run Binary64 BinaryFacts Samples Invariants Totals TotalsSamples ScaledFacts.
Import AccumulatorClaims.

Section WithStretcher.

Context {E : Type} `{Stretcher E}.







End WithStretcher.


(** The five calls that ask for four and a half samples each give 5, 4,
    5, 4 and 5: 23 samples for the 22.5 asked for.  The assertions of
    [append], of [process] and of [analyseGrain] pass in every call. *)
Example dithered_counts :
  map (fun n =>
         (emitted (firstn n dithered_blocks) roomy_stream,
          option_map samplesNeeded (run (firstn n dithered_blocks) roomy_stream),
          option_map (fun s => append_asserts (inputBuffer s))
            (run (firstn n dithered_blocks) roomy_stream)))
      [1; 2; 3; 4; 5]%nat
  = [(Some 5, Some (-0.5)%float, Some true); (Some 9, Some 0%float, Some true);
     (Some 14, Some (-0.5)%float, Some true); (Some 18, Some 0%float, Some true);
     (Some 23, Some (-0.5)%float, Some true)]
  /\ requested 20 dithered_blocks = Some (45 * 2 ^ 19)
  /\ process_assert 4.5 5 = true /\ process_assert 4.5 4 = true
  /\ forallb
       (fun n =>
          forallb
            (fun k =>
               match run (firstn n dithered_blocks) roomy_stream with
               | Some s =>
                   analyseGrain_assert
                     (inputBuffer (stream (during (silence 20 4 4.5) k s)))
               | None => false
               end)
            [0; 1; 2; 3; 4]%nat)
       [0; 1; 2; 3; 4]%nat
     = true.
Proof. vm_compute. repeat split; reflexivity. Qed.

(** The assertions of [append], of [analyseGrain] and of [process] pass
    throughout a pair at rest. *)
Example paused_pair_asserts :
  map (fun k =>
         option_map
           (fun s =>
              let b := inputBuffer (stream (during (silence 20 0 3) k s)) in
              (append_asserts b, analyseGrain_assert b))
           (run [silence 20 0 sliver] steady_stream))
      [0; 1; 2]%nat
  = [Some (true, true); Some (true, true); Some (true, true)]
  /\ append_asserts (inputBuffer steady_stream) = true
  /\ process_assert sliver 0 = true /\ process_assert 3 3 = true.
Proof. vm_compute. repeat split; reflexivity. Qed.


(** *** Sums that are rounded *)






End TotalsClaims.

(** * Properties of more of the code *)

Module IntFacts.

(** Wrapping an intermediate result does not change the wrapped total. *)
Lemma int32_add_l a b : int32 (int32 a + b) = int32 (a + b).
Proof.
  unfold int32, wrap. f_equal.
  replace ((a + 2 ^ (32 - 1)) mod 2 ^ 32 - 2 ^ (32 - 1) + b + 2 ^ (32 - 1))
    with ((a + 2 ^ (32 - 1)) mod 2 ^ 32 + b) by lia.
  rewrite Zplus_mod_idemp_l. f_equal; lia.
Qed.


End IntFacts.

Module MemFacts.











End MemFacts.

Module WindowFacts.

Import Stream Window MemFacts.


(** Channel [c] lies below channel [k] in the vector when [c < k]. *)
Lemma channel_below c k stride i :
  0 <= c < k -> 0 <= i < stride -> c * stride + i < k * stride.
Proof. intros Hc Hi. nia. Qed.

Lemma channel_above c k stride i :
  0 <= k < c -> 0 <= i -> 0 <= stride -> k * stride + stride <= c * stride + i.
Proof. intros Hc Hi Hs. nia. Qed.

Lemma channel_within k n stride :
  0 <= k < n -> 0 <= stride -> 0 <= k * stride /\ k * stride + stride <= stride * n.
Proof. intros Hk Hs. nia. Qed.

Section WithStretcher.

Context {E : Type} `{Stretcher E}.




End WithStretcher.

End WindowFacts.

Module WindowContents.

Import Stream Samples Window MemFacts WindowFacts.

Section WithStretcher.

Context {E : Type} `{Stretcher E}.


End WithStretcher.


End WindowContents.

Module LoopFacts.

Import Stream Run.

Section WithStretcher.

Context {E : Type} `{Stretcher E}.

(** What every turn keeps holds when the loop is left. *)
Lemma loop_invariant (P : Progress E -> Prop) fuel g n o (p p' : Progress E) :
  (forall g p, P p -> unfinished p = true -> P (iteration g n o p)) ->
  P p -> loop fuel g n o p = Some p' -> P p'.
Proof.
  intros Hstep. revert g p. induction fuel as [|fuel IH]; intros g p Hp; cbn [loop];
    destruct (unfinished p) eqn:Hu; try discriminate; try (intros [= <-]; assumption).
  apply IH. apply Hstep; assumption.
Qed.

Lemma turns_invariant (P : Progress E -> Prop) k g n o (p : Progress E) :
  (forall g p, P p -> unfinished p = true -> P (iteration g n o p)) ->
  P p -> P (turns k g n o p).
Proof.
  intros Hstep. revert g p. induction k as [|k IH]; intros g p Hp; cbn [turns];
    [assumption|].
  destruct (unfinished p) eqn:Hu; [|assumption]. apply IH. apply Hstep; assumption.
Qed.

(** A run keeps what every call keeps. *)
Lemma run_invariant (P : Stream E -> Prop) calls (s s' : Stream E) :
  (forall c s r, P s -> call c s = Some r -> P (after r)) ->
  P s -> run calls s = Some s' -> P s'.
Proof.
  intros Hcall. revert s. induction calls as [|c calls IH]; intros s Hs; cbn [run].
  - intros [= <-]. assumption.
  - destruct (call c s) as [r|] eqn:Hc; [|discriminate].
    apply IH. eapply Hcall; eassumption.
Qed.

Lemma call_inversion c (s : Stream E) r :
  call c s = Some r ->
  exists p', loop (fuel c) false (inputSampleCount c) (outputSampleCount c) (entering c s)
             = Some p' /\ r = leave p'.
Proof.
  unfold call, process, entering.
  destruct (loop _ _ _ _ _) as [p'|]; [|discriminate]. intros [= <-]. eauto.
Qed.

(** The window is touched by [append] only. *)
Lemma nextGrain_window n o (p : Progress E) :
  window_begin (inputBuffer (stream (nextGrain n o p))) = window_begin (inputBuffer (stream p))
  /\ window_end (inputBuffer (stream (nextGrain n o p))) = window_end (inputBuffer (stream p))
  /\ buffer (inputBuffer (stream (nextGrain n o p))) = buffer (inputBuffer (stream p)).
Proof.
  unfold nextGrain.
  destruct (WindowClaims.synthesisePending_keeps_window (stream p)) as (Hb & Hbe & Hen & _).
  destruct (specifyGrain _ _ _). cbn. auto.
Qed.

Lemma iteration_window g n o (p : Progress E) :
  window_begin (inputBuffer (stream (iteration g n o p)))
  = window_begin (inputBuffer (stream p))
  /\ window_end (inputBuffer (stream (iteration g n o p)))
     = window_end (inputBuffer (stream p))
  /\ buffer (inputBuffer (stream (iteration g n o p))) = buffer (inputBuffer (stream p)).
Proof.
  unfold iteration.
  assert (window_begin (inputBuffer (stream (if g then nextGrain n o p else p)))
          = window_begin (inputBuffer (stream p))
          /\ window_end (inputBuffer (stream (if g then nextGrain n o p else p)))
             = window_end (inputBuffer (stream p))
          /\ buffer (inputBuffer (stream (if g then nextGrain n o p else p)))
             = buffer (inputBuffer (stream p))) as Hg
    by (destruct g; [apply nextGrain_window | auto]).
  destruct (chunkValid _); [|exact Hg]. exact Hg.
Qed.

End WithStretcher.

End LoopFacts.

Module PositionClaims.

Import Stream Run Samples Demand LoopFacts IntFacts.

Section WithStretcher.

Context {E : Type} `{Stretcher E}.

Lemma append_end n inputs (b : InputBuffer E) :
  window_end (append n inputs b) = add32 (window_end b) n.
Proof.
  unfold append.
  destruct (chunk_begin (inputChunk b) <? window_end b);
    [destruct (window_begin b <? chunk_begin (inputChunk b))|]; reflexivity.
Qed.

Lemma call_inputPosition c (s : Stream E) r :
  call c s = Some r ->
  inputPosition (after r) = add32 (inputPosition s) (inputSampleCount c).
Proof.
  intros Hc. apply call_inversion in Hc as (p' & Hloop & ->).
  apply (loop_invariant
           (fun p => window_end (inputBuffer (stream p))
                     = add32 (inputPosition s) (inputSampleCount c))) in Hloop.
  - exact Hloop.
  - intros g p Hp _. destruct (iteration_window g (inputSampleCount c)
                                 (outputSampleCount c) p) as (_ & -> & _). exact Hp.
  - apply append_end.
Qed.

Lemma run_inputPosition calls (s s' : Stream E) :
  fits32 (inputPosition s) ->
  run calls s = Some s' -> inputPosition s' = int32 (inputPosition s + fedFrames calls).
Proof.
  revert s. induction calls as [|c calls IH]; intros s Hs; cbn [run fedFrames fold_right].
  - intros [= <-]. rewrite Z.add_0_r. symmetry. apply int32_id, Hs.
  - destruct (call c s) as [r|] eqn:Hc; [|discriminate]. intros Hrun.
    apply call_inputPosition in Hc.
    rewrite (IH (after r)); [|rewrite Hc; apply int32_range|exact Hrun].
    rewrite Hc. unfold add32. rewrite int32_add_l. fold (fedFrames calls). apply f_equal. lia.
Qed.

(** X2: [inputPosition()] is the sum of [inputSampleCount] over all the
    calls of [process] so far, as an [int]: the sum itself while it fits
    32 bits, the sum wrapped around beyond. *)
Theorem inputPosition_sums (e : E) maxInputSampleCount channelCount calls (s' : Stream E) :
  run calls (make e maxInputSampleCount channelCount) = Some s' ->
  inputPosition s' = int32 (fedFrames calls)
  /\ (fits32 (fedFrames calls) -> inputPosition s' = fedFrames calls).
Proof.
  intros Hrun. apply run_inputPosition in Hrun; [|apply fits32_bounds; cbn; lia].
  change (inputPosition (make e maxInputSampleCount channelCount)) with 0 in Hrun.
  rewrite Z.add_0_l in Hrun. split; [exact Hrun|].
  intros Hf. rewrite Hrun. apply int32_id, Hf.
Qed.

End WithStretcher.

Lemma inputPosition_sums_witness :
  inputPosition logged_stream = int32 (fedFrames three_blocks)
  /\ (fits32 (fedFrames three_blocks) -> inputPosition logged_stream = fedFrames three_blocks).
Proof.
  apply (inputPosition_sums (mkLogged TestEngine.fresh []) 4 1 three_blocks logged_stream).
  vm_compute. reflexivity.
Defined.

End PositionClaims.

(** ** The order in which [process] drives the engine *)

Module ProtocolClaims.

Import Stream Run Samples StreamSamples Demand Protocol LoopFacts.

Section WithStretcher.

Context {E : Type} `{Stretcher E}.







End WithStretcher.


End ProtocolClaims.

(** ** What [process] renders *)

Module RenderClaims.

Import Stream Run Samples Demand LoopFacts Binary64 BinaryFacts.

(** An [int] survives the conversion to [double] and back. *)
Lemma to_int_of_int z : fits32 z -> to_int (of_int z) = z.
Proof.
  intros Hz. pose proof (proj1 (fits32_bounds _) Hz) as Hb.
  unfold to_int. rewrite Prim2SF_of_int by (change (2 ^ 53) with 9007199254740992; lia).
  destruct (Z.eq_dec z 0) as [-> | Hz0]; [reflexivity|].
  destruct (SF_of_Z_finite z Hz0) as (s & p & -> & Hp & Hs).
  unfold SF_of_pos.
  pose proof (digits2_pos_le p 32 ltac:(lia)
                ltac:(change (2 ^ 32) with 4294967296; lia)) as Hd.
  pose proof (Pos2Z.is_pos (digits2_pos p)) as Hd0.
  unfold floor_mag.
  destruct (Z.leb_spec 0 (Z.pos (digits2_pos p) - 53)); [lia|].
  rewrite shl_value by lia.
  replace (- (Z.pos (digits2_pos p) - 53)) with (53 - Z.pos (digits2_pos p)) by lia.
  rewrite Z.div_mul by (apply Z.pow_nonzero; lia).
  assert ((if s then - Z.pos p else Z.pos p) = z) as ->
    by (rewrite <- Hs; destruct s; reflexivity).
  assert ((INT_MIN <=? z) && (z <=? INT_MAX) = true) as ->; [|reflexivity].
  apply andb_true_intro. unfold INT_MIN, INT_MAX. change (2 ^ 31) with 2147483648.
  split; apply Z.leb_le; lia.
Qed.

(** The difference of two [int]s is exact in [double]. *)
Lemma of_int_sub a b :
  fits32 a -> fits32 b -> (of_int a - of_int b)%float = of_int (a - b).
Proof.
  intros Ha Hb. apply (proj1 (fits32_bounds _)) in Ha, Hb.
  apply Prim2SF_inj. rewrite FloatAxioms.sub_spec.
  rewrite !Prim2SF_of_int by (change (2 ^ 53) with 9007199254740992; lia).
  apply SF64sub_of_Z; change (2 ^ 52) with 4503599627370496; lia.
Qed.

(** A double that compares equal to a positive [int] is that [int]. *)
Lemma eqb_of_int K (x : double) :
  0 < K -> fits32 K -> (of_int K =? x)%float = true -> x = of_int K.
Proof.
  intros HK Hf. apply (proj1 (fits32_bounds _)) in Hf.
  rewrite FloatAxioms.eqb_spec.
  rewrite Prim2SF_of_int by (change (2 ^ 53) with 9007199254740992; lia).
  destruct (SF_of_Z_finite K ltac:(lia)) as (s & p & HSF & _). rewrite HSF.
  unfold SF_of_pos. intros Heq. apply SFeqb_finite in Heq.
  apply Prim2SF_inj. rewrite Heq.
  rewrite Prim2SF_of_int by (change (2 ^ 53) with 9007199254740992; lia).
  rewrite HSF. reflexivity.
Qed.

Section WithStretcher.

Context {E : Type} `{Stretcher E}.

Lemma length_render (out : list sample) i v :
  Z.of_nat (length out) = i -> Z.of_nat (length (Mem.render out i v)) = i + 1.
Proof.
  intros <-. unfold Mem.render. rewrite Z.eqb_refl, length_app. cbn [length]. lia.
Qed.

Lemma length_render_from (st : E) len src dst (out : list sample) :
  Z.of_nat (length out) = dst ->
  Z.of_nat (length (Mem.render_from st len src dst out)) = dst + Z.of_nat len.
Proof.
  revert src dst out. induction len as [|len IH]; intros src dst out Hl;
    cbn [Mem.render_from]; [lia|].
  rewrite (IH _ (dst + 1)) by (apply length_render, Hl). lia.
Qed.

Lemma rendering_nextGrain K x cc n o (p : Progress E) :
  sized -> rendering K x cc p -> rendering K x cc (nextGrain n o p).
Proof.
  intros Hsized (Hc & Hx & Hcc & Hd & Hlen & Hall).
  unfold nextGrain, synthesisePending.
  destruct (negb (is_nan (position (request (stream p))))).
  - destruct (synthesiseGrain _) as [st chunk] eqn:Hsy. cbn.
    destruct (specifyGrain _ _ _) as [st' chunk']. unfold rendering, drawn. cbn.
    pose proof (Hsized (stretcher (InputBuffer_analyseGrain (inputBuffer (stream p)))))
      as Hfc.
    rewrite Hsy in Hfc. cbn in Hfc. repeat split; try assumption; lia.
  - destruct (specifyGrain _ _ _) as [st' chunk']. unfold rendering, drawn. cbn.
    destruct Hd as [Hd1 Hd2]. repeat split; try assumption; lia.
Qed.

Lemma rendering_copyOut K cc (p : Progress E) :
  fits32 K ->
  (of_int K =? round (samplesNeeded (stream p)))%float = true ->
  sampleCounter p < K ->
  rendering K (samplesNeeded (stream p)) cc p ->
  rendering K (samplesNeeded (stream p)) cc (copyOut p).
Proof.
  intros HK Hround Hlt (Hc & _ & Hcc & [Hd1 Hd2] & Hlen & Hall).
  pose proof (proj1 (fits32_bounds _) HK) as HKb.
  unfold INT_MAX in Hd2. change (2 ^ 31) with 2147483648 in Hd2.
  assert (fits32 (sampleCounter p)) as Hfc by (apply fits32_bounds; lia).
  assert (to_int (round (samplesNeeded (stream p)) - of_int (sampleCounter p))%float
          = K - sampleCounter p) as Hneed.
  { rewrite (eqb_of_int K _ ltac:(lia) HK Hround).
    rewrite of_int_sub by assumption.
    apply to_int_of_int, fits32_bounds. lia. }
  assert (sub32 (frameCount (outputChunk (stream p))) (outputChunkConsumed (stream p))
          = frameCount (outputChunk (stream p)) - outputChunkConsumed (stream p)) as Havail
    by (apply int32_id, fits32_bounds; lia).
  unfold rendering, drawn, copyOut. cbn. rewrite Hneed, Havail.
  set (n := Z.min (K - sampleCounter p)
              (frameCount (outputChunk (stream p)) - outputChunkConsumed (stream p))).
  assert (0 <= n <= K - sampleCounter p
          /\ n <= frameCount (outputChunk (stream p)) - outputChunkConsumed (stream p))
    as (Hn0 & Hn1) by (unfold n; lia).
  unfold add32. rewrite !int32_id by (apply fits32_bounds; lia).
  repeat split; try assumption; try lia.
  - rewrite length_map. unfold channels. rewrite length_map, length_seq. rewrite Hcc.
    reflexivity.
  - apply Forall_map, Forall_forall. intros c Hin.
    rewrite length_render_from; [rewrite Z2Nat.id by lia; reflexivity|].
    unfold channels in Hin. apply in_map_iff in Hin as (i & <- & Hi).
    apply in_seq in Hi. rewrite Nat2Z.id.
    rewrite Forall_forall in Hall. apply Hall, nth_In. rewrite Hcc in Hi. lia.
Qed.

Lemma rendering_iteration K cc g n o (p : Progress E) :
  sized -> fits32 K ->
  (of_int K =? round (samplesNeeded (stream p)))%float = true ->
  unfinished p = true ->
  rendering K (samplesNeeded (stream p)) cc p ->
  rendering K (samplesNeeded (stream p)) cc (iteration g n o p).
Proof.
  intros Hsized HK Hround Hu Hr.
  assert (sampleCounter p < K) as Hlt.
  { destruct Hr as (Hc & _). destruct (Z.eq_dec (sampleCounter p) K) as [Heq | Hne]; [|lia].
    unfold unfinished in Hu. rewrite Heq, Hround in Hu. discriminate Hu. }
  unfold iteration.
  set (p1 := if g then nextGrain n o p else p).
  assert (rendering K (samplesNeeded (stream p)) cc p1) as Hr1
    by (unfold p1; destruct g; [apply rendering_nextGrain|]; assumption).
  destruct (chunkValid (stream p1)); [|exact Hr1].
  pose proof Hr1 as (Hc1 & Hx1 & _).
  assert (sampleCounter p1 = sampleCounter p) as Hsame.
  { unfold p1. destruct g; [|reflexivity].
    unfold nextGrain. destruct (specifyGrain _ _ _). reflexivity. }
  rewrite <- Hx1 in *. apply rendering_copyOut; try assumption. lia.
Qed.

Lemma drawn_make (e : E) maxInputSampleCount channelCount :
  drawn (make e maxInputSampleCount channelCount).
Proof. unfold drawn, INT_MAX. cbn. lia. Qed.

(** X4: on an engine whose chunks have a frame count that is not
    negative, a call that is to deliver [K] samples (the rounded
    accumulator, within [int]) and returns has returned [K], has rendered
    exactly [K] samples to each of the [channelCount] output arrays, and
    has not handed out more than the current chunk holds; this last is
    true of a fresh stream and so stays true over such calls. *)
Theorem process_renders_returned c (s : Stream E) r K :
  sized -> drawn s ->
  0 <= K <= INT_MAX ->
  (of_int K =? round (samplesNeeded s + outputSampleCount c))%float = true ->
  outputPointers c = repeat [] (Z.to_nat (channelCount s)) ->
  call c s = Some r ->
  returned r = K
  /\ length (outputs r) = Z.to_nat (channelCount s)
  /\ Forall (fun out => Z.of_nat (length out) = K) (outputs r)
  /\ drawn (after r).
Proof.
  intros Hsized Hdrawn HK Hround Houts Hc.
  assert (fits32 K) as HfK
    by (apply fits32_bounds; unfold INT_MAX in HK; change (2 ^ 31) with 2147483648 in HK; lia).
  apply call_inversion in Hc as (p' & Hloop & ->).
  set (x := (samplesNeeded s + outputSampleCount c)%float) in *.
  pose proof Hloop as Hexit.
  apply AccumulatorClaims.loop_exit in Hexit; [|apply fits32_bounds; cbn; lia].
  destruct Hexit as (_ & _ & Hexit). change (samplesNeeded (stream (entering c s))) with x in Hexit.
  apply (loop_invariant (rendering K x (channelCount s))) in Hloop.
  - destruct Hloop as (Hc' & Hx' & Hcc' & Hd' & Hlen' & Hall').
    assert (sampleCounter p' = K) as Hret.
    { destruct (Z.eq_dec (sampleCounter p') K) as [|Hne]; [assumption|exfalso].
      rewrite (eqb_of_int K _ ltac:(lia) HfK Hround) in Hexit.
      apply of_int_inj in Hexit; [lia| |];
        apply (proj1 (fits32_bounds _)) in HfK;
        change (2 ^ 53) with 9007199254740992; lia. }
    unfold leave, drawn. cbn. rewrite <- Hret. repeat split; try assumption; apply Hd'.
  - intros g p Hp Hu. pose proof Hp as (_ & Hx & _). rewrite <- Hx in *.
    apply rendering_iteration; assumption.
  - unfold rendering, entering. cbn. fold x. rewrite Houts.
    repeat split; try lia; try apply Hdrawn.
    + apply repeat_length.
    + apply Forall_forall. intros out Hin. apply repeat_spec in Hin. subst out. reflexivity.
Qed.

End WithStretcher.

Lemma process_renders_returned_witness :
  exists r,
    call (silence 20 4 4) small_stream = Some r
    /\ returned r = 4
    /\ length (outputs r) = Z.to_nat (channelCount small_stream)
    /\ Forall (fun out => Z.of_nat (length out) = 4) (outputs r)
    /\ drawn (after r).
Proof.
  eexists. split; [vm_compute; reflexivity|].
  apply (process_renders_returned (silence 20 4 4) small_stream _ 4).
  - intros st. vm_compute. split; discriminate.
  - apply drawn_make.
  - vm_compute. split; discriminate.
  - vm_compute. reflexivity.
  - reflexivity.
  - vm_compute. reflexivity.
Defined.

End RenderClaims.

(** ** [outputPosition] and [latency] *)

Module QueryClaims.

Import Stream Run Samples StreamSamples StreamQueries Binary64 BinaryFacts.

Lemma finite_difference (p0 p1 : double) :
  is_finite (p1 - p0) = true ->
  exists s, Prim2SF p0 = S754_zero s \/ exists m e, Prim2SF p0 = S754_finite s m e.
Proof.
  intros Hf. apply is_finite_spec in Hf as [sd Hd].
  rewrite FloatAxioms.sub_spec in Hd.
  destruct (Prim2SF p0) as [s | s | | s m e]; eauto;
    destruct (Prim2SF p1) as [s1 | s1 | | s1 m1 e1]; cbn in Hd;
    try (destruct Hd as [Hd | (? & ? & Hd)]; discriminate Hd);
    destruct s, s1; cbn in Hd; destruct Hd as [Hd | (? & ? & Hd)]; discriminate Hd.
Qed.

Section WithStretcher.

Context {E : Type} `{Stretcher E}.

(** X5: when nothing of the current chunk has been handed out yet and the
    two positions that bound it are a finite distance apart,
    [outputPosition()] is the position at which the chunk begins, and
    [latency()] the distance from there to [inputPosition()]; for a chunk
    without frames the interpolation divides zero by zero, and both are
    NaN. *)
Theorem outputPosition_at_chunk_begin (s : Stream E) :
  let chunk := outputChunk s in
  let p0 := position (requestAt (stretcher (inputBuffer s)) (request_begin chunk)) in
  let p1 := position (requestAt (stretcher (inputBuffer s)) (request_end chunk)) in
  request_begin chunk <> nullptr -> request_end chunk <> nullptr ->
  outputChunkConsumed s = 0 ->
  fits32 (frameCount chunk) ->
  is_finite (p1 - p0) = true ->
  exists p,
    outputPosition s = Some p
    /\ latency s = Some (of_int (inputPosition s) - p)%float
    /\ (frameCount chunk <> 0 -> (p =? p0)%float = true)
    /\ (frameCount chunk = 0 -> is_nan p = true).
Proof.
  intros chunk p0 p1 Hb He Hc Hfc Hfin.
  unfold latency, outputPosition. fold chunk.
  destruct (Z.eqb_spec (request_begin chunk) nullptr) as [|_]; [contradiction|].
  destruct (Z.eqb_spec (request_end chunk) nullptr) as [|_]; [contradiction|].
  cbn [orb option_map]. fold p0 p1. rewrite Hc.
  eexists. split; [reflexivity|]. split; [reflexivity|].
  destruct (finite_difference p0 p1 Hfin) as [s0 Hp0].
  apply is_finite_spec in Hfin as [sd Hd].
  apply (proj1 (fits32_bounds _)) in Hfc.
  assert (exists sz, Prim2SF (of_int 0 * (p1 - p0)) = S754_zero sz) as [sz Hz].
  { rewrite FloatAxioms.mul_spec. change (Prim2SF (of_int 0)) with (S754_zero false).
    destruct Hd as [-> | (m & e & ->)]; cbn; eauto. }
  split.
  - intros Hne. rewrite FloatAxioms.eqb_spec, FloatAxioms.add_spec, FloatAxioms.div_spec, Hz.
    rewrite Prim2SF_of_int by (change (2 ^ 53) with 9007199254740992; lia).
    destruct (SF_of_Z_finite _ Hne) as (sf & pf & -> & _).
    unfold SF_of_pos. cbn [SF64div SFdiv].
    destruct Hp0 as [-> | (m & e & ->)].
    + destruct s0, sz, sf; reflexivity.
    + cbn. apply SFeqb_refl_finite.
  - intros Hzero. rewrite is_nan_spec, FloatAxioms.add_spec, FloatAxioms.div_spec, Hz.
    rewrite Hzero. change (Prim2SF (of_int 0)) with (S754_zero false).
    destruct Hp0 as [-> | (m & e & ->)]; reflexivity.
Qed.

End WithStretcher.

Lemma outputPosition_at_chunk_begin_witness :
  let chunk := outputChunk fresh_chunk in
  let p0 :=
    position (requestAt (stretcher (inputBuffer fresh_chunk)) (request_begin chunk)) in
  exists p,
    outputPosition fresh_chunk = Some p
    /\ latency fresh_chunk = Some (of_int (inputPosition fresh_chunk) - p)%float
    /\ (frameCount chunk <> 0 -> (p =? p0)%float = true)
    /\ (frameCount chunk = 0 -> is_nan p = true).
Proof.
  apply (outputPosition_at_chunk_begin fresh_chunk);
    vm_compute; repeat split; intros; try reflexivity; try discriminate.
Defined.

Example fresh_chunk_position :
  outputPosition fresh_chunk = Some 4%float /\ latency fresh_chunk = Some 8%float.
Proof. vm_compute. split; reflexivity. Qed.

End QueryClaims.

(** ** The requests that [process] makes *)

Module RequestClaims.

Import Stream Run Samples Demand LoopFacts.

Section AnyStretcher.

Context {E : Type} `{Stretcher E}.

Lemma mode_call c (s : Stream E) r :
  call c s = Some r -> resampleMode (request (after r)) = resampleMode (request s).
Proof.
  intros Hc. apply call_inversion in Hc as (p' & Hloop & ->).
  apply (loop_invariant
           (fun p => resampleMode (request (stream p)) = resampleMode (request s)))
    in Hloop; [exact Hloop| |reflexivity].
  intros g p Hp _. unfold iteration.
  assert (resampleMode (request (stream (if g then nextGrain (inputSampleCount c)
                                                     (outputSampleCount c) p else p)))
          = resampleMode (request s)) as Hg.
  { destruct g; [|exact Hp]. unfold nextGrain.
    destruct (specifyGrain _ _ _). cbn. unfold synthesisePending.
    destruct (negb _); [|exact Hp]. destruct (synthesiseGrain _). exact Hp. }
  destruct (chunkValid _); exact Hg.
Qed.

End AnyStretcher.

Section WithStretcher.

Context {E : Type} `{Stretcher E}.

Lemma requesting_nextGrain s speed' pitch' mode n o (p : Progress (Logged E)) :
  requesting s speed' pitch' mode (stream p) ->
  requesting s speed' pitch' mode (stream (nextGrain n o p)).
Proof.
  intros (Hs & Hp & Hm & newer & Hlog & Hall).
  assert (speed (request (synthesisePending (stream p))) = speed'
          /\ pitch (request (synthesisePending (stream p))) = pitch'
          /\ resampleMode (request (synthesisePending (stream p))) = mode
          /\ specified (stretcher (inputBuffer (synthesisePending (stream p))))
             = newer ++ specified (stretcher (inputBuffer s))) as (Hs1 & Hp1 & Hm1 & Hlog1).
  { unfold synthesisePending. destruct (negb _); [|auto].
    destruct (synthesiseGrain _) as [st chunk] eqn:Hsy. cbn in Hsy.
    match type of Hsy with
    | (let '(_, _) := ?x in _) = _ => destruct x as [e1 chunk1]
    end.
    injection Hsy as <- <-. cbn. auto. }
  unfold nextGrain.
  destruct (specifyGrain _ _ _) as [st chunk] eqn:Hsp. cbn in Hsp.
  match type of Hsp with
  | (let '(_, _) := ?x in _) = _ => destruct x as [e2 chunk2]
  end.
  injection Hsp as <- <-. unfold requesting. cbn.
  repeat split; try assumption.
  eexists (_ :: newer). split; [rewrite Hlog1; reflexivity|].
  constructor; [cbn; auto | exact Hall].
Qed.

Lemma requesting_iteration s speed' pitch' mode g n o (p : Progress (Logged E)) :
  requesting s speed' pitch' mode (stream p) ->
  requesting s speed' pitch' mode (stream (iteration g n o p)).
Proof.
  intros Hr. unfold iteration.
  assert (requesting s speed' pitch' mode (stream (if g then nextGrain n o p else p))) as Hr'
    by (destruct g; auto using requesting_nextGrain).
  destruct (chunkValid _); exact Hr'.
Qed.

(** X16: every request that a call of [process] hands to [specifyGrain]
    carries the speed [inputSampleCount / outputSampleCount] of the call,
    the pitch of the call, and the resampling mode that the constructor
    left in the request (the enumerator of value zero). *)
Theorem process_requests (e : E) maxInputSampleCount channelCount calls
  (s' : Stream (Logged E)) c k :
  run calls (make (mkLogged e []) maxInputSampleCount channelCount) = Some s' ->
  exists newer,
    specified (stretcher (inputBuffer (stream (during c k s'))))
    = newer ++ specified (stretcher (inputBuffer s'))
    /\ Forall
         (fun r =>
            speed r = (of_int (inputSampleCount c) / outputSampleCount c)%float
            /\ pitch r = pitchShift c /\ resampleMode r = 0)
         newer.
Proof.
  intros Hrun.
  apply (run_invariant (fun s => resampleMode (request s) = 0)) in Hrun;
    [|intros c0 s0 r0 Hs0 Hc0; rewrite (mode_call c0 s0 r0 Hc0); exact Hs0|reflexivity].
  assert (requesting s' (of_int (inputSampleCount c) / outputSampleCount c)%float
            (pitchShift c) 0 (stream (during c k s'))) as (_ & _ & _ & Hnew).
  { unfold during.
    apply (turns_invariant
             (fun p => requesting s' (of_int (inputSampleCount c) / outputSampleCount c)%float
                         (pitchShift c) 0 (stream p))).
    - intros g p Hp _. apply requesting_iteration, Hp.
    - unfold requesting, entering. cbn [enter stream request speed pitch resampleMode
                                         inputBuffer].
      destruct (WindowClaims.append_frame (inputSampleCount c) (inputPointers c)
                  (inputBuffer s')) as (-> & _).
      repeat split; try assumption. exists []. split; [reflexivity | constructor]. }
  exact Hnew.
Qed.

End WithStretcher.

Lemma process_requests_witness :
  exists newer,
    specified (stretcher (inputBuffer (stream (during (silence 20 4 4) 3 logged_stream))))
    = newer ++ specified (stretcher (inputBuffer logged_stream))
    /\ Forall
         (fun r =>
            speed r = (of_int (inputSampleCount (silence 20 4 4))
                       / outputSampleCount (silence 20 4 4))%float
            /\ pitch r = pitchShift (silence 20 4 4) /\ resampleMode r = 0)
         newer.
Proof.
  apply (process_requests TestEngine.fresh 4 1 three_blocks logged_stream (silence 20 4 4) 3).
  vm_compute. reflexivity.
Defined.

End RequestClaims.

Module AudioRateClaims.

Import Timing TimingSpec TimingFacts AudioRates Samples BinaryFacts.

Lemma audible_log2 rate : audible rate -> 12 <= log2_floor rate <= 17.
Proof.
  intros [Hlo Hhi]. unfold log2_floor. split.
  - change 12 with (Z.log2 8000). apply Z.log2_le_mono, Hlo.
  - change 17 with (Z.log2 192000). apply Z.log2_le_mono, Hhi.
Qed.

Lemma audible_supported sr adj :
  audible (input sr) -> audible (output sr) -> adjustable adj -> supported sr adj.
Proof.
  intros Hi Ho Ha. pose proof (audible_log2 _ Hi). unfold audible, adjustable in *.
  unfold supported, INT_MAX. change (2 ^ 31) with 2147483648. lia.
Qed.

Lemma shifted_quotient a b s A B S Q :
  0 < a <= A -> B <= b -> 0 < B -> 0 <= s <= S -> A * 2 ^ S <= B * Q ->
  0 <= Z.shiftl a s / b <= Q.
Proof.
  intros Ha Hb HB Hs HQ. rewrite Z.shiftl_mul_pow2 by lia.
  pose proof (pow2_le_pow2 s S Hs) as Hp.
  split; [apply Z.div_pos; nia|].
  apply Z.div_le_upper_bound; [lia|].
  assert (a * 2 ^ s <= A * 2 ^ S) by nia.
  assert (B * Q <= b * Q) by nia. lia.
Qed.

(** X6: for rates between 8000 Hz and 192000 Hz and a grain adjustment of
    -1, 0 or +1, [log2SynthesisHop] lies between 5 and 12, and
    [maxInputFrameCount()] and [maxOutputFrameCount()] are the bounds
    of [Timing.cpp] themselves: positive, at most 3145729 and 393217, so
    that nothing is lost when they are narrowed to [int]. *)
Theorem audible_frame_counts sr adj :
  audible (input sr) -> audible (output sr) -> adjustable adj ->
  let t := make sr adj in
  5 <= log2SynthesisHop t <= 12
  /\ maxInputFrameCount t = inputFrameBound sr (log2SynthesisHop t)
  /\ maxOutputFrameCount t = outputFrameBound sr (log2SynthesisHop t)
  /\ 0 < maxInputFrameCount t <= 3145729
  /\ 0 < maxOutputFrameCount t <= 393217.
Proof.
  intros Hi Ho Ha t.
  pose proof (audible_supported sr adj Hi Ho Ha) as Hsup.
  pose proof (audible_log2 _ Hi) as HL.
  pose proof (hop_of_make sr adj Hsup) as Hhop. fold t in Hhop.
  unfold audible, adjustable in *.
  assert (5 <= log2SynthesisHop t <= 12) as Hh by lia.
  assert (0 <= Z.shiftl (input sr) (maxPitchOctaves + log2SynthesisHop t + 3) / output sr
          <= 3145728) as HbI
    by (apply (shifted_quotient _ _ _ 192000 8000 17); unfold maxPitchOctaves; lia).
  assert (0 <= Z.shiftl (output sr) (maxPitchOctaves + log2SynthesisHop t) / input sr
          <= 393216) as HbO
    by (apply (shifted_quotient _ _ _ 192000 8000 14); unfold maxPitchOctaves; lia).
  assert (maxInputFrameCount t = inputFrameBound sr (log2SynthesisHop t)) as HI.
  { unfold t. rewrite (maxInputFrameCount_value _ _ Hsup). apply int32_id, fits32_bounds.
    fold t. unfold inputFrameBound. lia. }
  assert (maxOutputFrameCount t = outputFrameBound sr (log2SynthesisHop t)) as HO.
  { unfold t. rewrite (maxOutputFrameCount_value _ _ Hsup). apply int32_id, fits32_bounds.
    fold t. unfold outputFrameBound. lia. }
  split; [exact Hh|]. split; [exact HI|]. split; [exact HO|].
  rewrite HI, HO. unfold inputFrameBound, outputFrameBound. lia.
Qed.

Lemma audible_frame_counts_witness :
  let t := make cd_rates 1 in
  5 <= log2SynthesisHop t <= 12
  /\ maxInputFrameCount t = inputFrameBound cd_rates (log2SynthesisHop t)
  /\ maxOutputFrameCount t = outputFrameBound cd_rates (log2SynthesisHop t)
  /\ 0 < maxInputFrameCount t <= 3145729
  /\ 0 < maxOutputFrameCount t <= 393217.
Proof.
  apply (audible_frame_counts cd_rates 1); unfold audible, adjustable; cbn; lia.
Defined.

(** X7: a grain at rest.  At speed zero, with a hop for speed one that is
    finite, [calculateInputHop] is zero, and neither [preroll] nor [next]
    moves a position that is a number. *)
Theorem zero_speed_keeps_position setup t (r : Request) :
  (speed r =? 0)%float = true ->
  is_finite (of_int (shl32 1 (log2SynthesisHop t))
             * setup (sampleRates t) (pitch r) (resampleMode r)) = true ->
  (calculateInputHop setup t r =? 0)%float = true
  /\ (is_nan (position r) = false ->
      (position (preroll setup t r) =? position r)%float = true
      /\ (position (next setup t r) =? position r)%float = true).
Proof.
  intros Hs Hu.
  assert (exists sh, Prim2SF (calculateInputHop setup t r) = S754_zero sh) as [sh Hh].
  { unfold calculateInputHop. rewrite FloatAxioms.mul_spec.
    rewrite FloatAxioms.eqb_spec in Hs. change (Prim2SF 0) with (S754_zero false) in Hs.
    apply SFeqb_zero_r in Hs as [ss ->].
    apply is_finite_spec in Hu as [su [-> | (m & e & ->)]]; cbn; eauto. }
  split.
  - rewrite FloatAxioms.eqb_spec, Hh. reflexivity.
  - intros Hp.
    assert (is_nan (speed r) = false) as Hns.
    { rewrite is_nan_spec. rewrite FloatAxioms.eqb_spec in Hs.
      change (Prim2SF 0) with (S754_zero false) in Hs.
      apply SFeqb_zero_r in Hs as [ss ->]. reflexivity. }
    unfold next. rewrite Hns, Hp. cbn [negb andb preroll position].
    rewrite !FloatAxioms.eqb_spec, FloatAxioms.sub_spec, FloatAxioms.add_spec, Hh.
    rewrite is_nan_spec in Hp.
    destruct (Prim2SF (position r)) as [s | s | | s m e]; try discriminate Hp.
    + destruct s, sh; split; reflexivity.
    + destruct s, sh; split; reflexivity.
    + cbn. split; apply SFeqb_refl_finite.
Qed.

Lemma zero_speed_keeps_position_witness :
  (calculateInputHop unit_ratio (make cd_rates 0) resting_request =? 0)%float = true
  /\ (is_nan (position resting_request) = false ->
      (position (preroll unit_ratio (make cd_rates 0) resting_request)
       =? position resting_request)%float = true
      /\ (position (next unit_ratio (make cd_rates 0) resting_request)
          =? position resting_request)%float = true).
Proof.
  apply (zero_speed_keeps_position unit_ratio (make cd_rates 0) resting_request);
    vm_compute; reflexivity.
Defined.

End AudioRateClaims.

Module CodecFacts.

Import CommandLine ProcessorSpec.

Lemma bind_some {A B} (x : option A) (f : A -> option B) b :
  bind x f = Some b <-> exists a, x = Some a /\ f a = Some b.
Proof.
  destruct x as [a|]; cbn; split.
  - eauto.
  - intros (a' & [= <-] & Hf). exact Hf.
  - discriminate.
  - intros (a' & [=] & _).
Qed.

Lemma upto_succ n : 0 <= n -> upto (n + 1) = upto n ++ [n].
Proof.
  intros Hn. unfold upto. rewrite Z2Nat.inj_add by lia.
  change (Z.to_nat 1) with 1%nat. rewrite Nat.add_1_r, seq_S, map_app.
  cbn [map Nat.add]. rewrite Z2Nat.id by lia. reflexivity.
Qed.

Lemma loop_succ {St} n (body : St -> Z -> option St) s :
  0 <= n -> loop (n + 1) body s = bind (loop n body s) (fun st => body st n).
Proof.
  intros Hn. unfold loop. rewrite upto_succ by assumption.
  rewrite fold_left_app. reflexivity.
Qed.

Lemma loop_zero {St} n (body : St -> Z -> option St) s : n <= 0 -> loop n body s = Some s.
Proof.
  intros Hn. unfold loop, upto. replace (Z.to_nat n) with 0%nat by lia. reflexivity.
Qed.

(** A loop whose body keeps an invariant, and does not fail where the
    invariant holds, does not fail and ends in the invariant. *)
Lemma for_invariant {St} (Inv : Z -> St -> Prop) n (body : St -> Z -> option St) s :
  0 <= n -> Inv 0 s ->
  (forall i st, 0 <= i < n -> Inv i st -> exists st', body st i = Some st' /\ Inv (i + 1) st') ->
  exists s', loop n body s = Some s' /\ Inv n s'.
Proof.
  intros Hn H0 Hstep.
  assert (forall k : nat, Z.of_nat k <= n ->
            exists s', loop (Z.of_nat k) body s = Some s' /\ Inv (Z.of_nat k) s') as Hk.
  { induction k as [|k IH]; intros Hle.
    - exists s. split; [apply loop_zero; lia | exact H0].
    - destruct (IH ltac:(lia)) as (st & Hl & Hi).
      destruct (Hstep (Z.of_nat k) st ltac:(lia) Hi) as (st' & Hb & Hi').
      exists st'. rewrite Nat2Z.inj_succ, <- Z.add_1_r.
      rewrite loop_succ by lia. rewrite Hl. cbn [bind]. auto. }
  destruct (Hk (Z.to_nat n) ltac:(lia)) as (s' & Hl & Hi).
  rewrite Z2Nat.id in Hl, Hi by lia. eauto.
Qed.

(** Conversely, a loop that has not failed has kept the invariant. *)
Lemma for_inversion {St} (Inv : Z -> St -> Prop) n (body : St -> Z -> option St) s s' :
  0 <= n -> Inv 0 s ->
  (forall i st st', 0 <= i < n -> Inv i st -> body st i = Some st' -> Inv (i + 1) st') ->
  loop n body s = Some s' -> Inv n s'.
Proof.
  intros Hn H0 Hstep.
  assert (forall k : nat, Z.of_nat k <= n -> forall s',
            loop (Z.of_nat k) body s = Some s' -> Inv (Z.of_nat k) s') as Hk.
  { induction k as [|k IH]; intros Hle s1.
    - rewrite loop_zero by lia. intros [= <-]. exact H0.
    - rewrite Nat2Z.inj_succ, <- Z.add_1_r. rewrite loop_succ by lia.
      intros Hb. apply bind_some in Hb as (st & Hl & Hb).
      eapply Hstep; [|apply IH; [lia | exact Hl]|exact Hb]. lia. }
  intros Hl. specialize (Hk (Z.to_nat n) ltac:(lia) s').
  rewrite Z2Nat.id in Hk by lia. auto.
Qed.

(** *** Vectors *)

Lemma get_some {A} (l : list A) i v :
  get l i = Some v -> 0 <= i < Z.of_nat (length l).
Proof.
  unfold get. destruct (Z.ltb_spec i 0); [discriminate|]. intros Hn.
  assert (Z.to_nat i < length l)%nat by (apply nth_error_Some; congruence). lia.
Qed.

Lemma get_in_bounds {A} (l : list A) i :
  0 <= i < Z.of_nat (length l) -> exists v, get l i = Some v.
Proof.
  intros Hi. unfold get. destruct (Z.ltb_spec i 0); [lia|].
  destruct (nth_error l (Z.to_nat i)) as [v|] eqn:Hn; [eauto|].
  apply nth_error_None in Hn. lia.
Qed.

Lemma set_in_bounds {A} (l : list A) i v :
  0 <= i < Z.of_nat (length l) -> exists l', set l i v = Some l'.
Proof.
  intros Hi. unfold set.
  destruct (Z.leb_spec 0 i), (Z.ltb_spec i (Z.of_nat (length l))); try lia. cbn. eauto.
Qed.

Lemma update_spec {A} (l : list A) n v :
  (n < length l)%nat ->
  length (firstn n l ++ v :: skipn (S n) l) = length l
  /\ forall k, nth_error (firstn n l ++ v :: skipn (S n) l) k
               = if (k =? n)%nat then Some v else nth_error l k.
Proof.
  intros Hn. split.
  - rewrite length_app, length_firstn.
    change (length (v :: skipn (S n) l)) with (S (length (skipn (S n) l))).
    rewrite length_skipn. lia.
  - intros k. destruct (Nat.eqb_spec k n) as [-> | Hne].
    + rewrite nth_error_app2 by (rewrite length_firstn; lia).
      rewrite length_firstn. replace (n - Nat.min n (length l))%nat with 0%nat by lia.
      reflexivity.
    + destruct (Nat.lt_ge_cases k n).
      * rewrite nth_error_app1 by (rewrite length_firstn; lia).
        rewrite nth_error_firstn.
        destruct (Nat.ltb_spec k n); [reflexivity | lia].
      * rewrite nth_error_app2 by (rewrite length_firstn; lia).
        rewrite length_firstn.
        replace (k - Nat.min n (length l))%nat with (S (k - S n))%nat by lia.
        change (nth_error (v :: skipn (S n) l) (S (k - S n)))
          with (nth_error (skipn (S n) l) (k - S n)).
        rewrite nth_error_skipn. f_equal. lia.
Qed.

Lemma set_some {A} (l l' : list A) i v :
  set l i v = Some l' ->
  0 <= i < Z.of_nat (length l) /\ length l' = length l
  /\ forall j, get l' j = if j =? i then Some v else get l j.
Proof.
  unfold set.
  destruct (Z.leb_spec 0 i), (Z.ltb_spec i (Z.of_nat (length l))); try discriminate.
  destruct (update_spec l (Z.to_nat i) v ltac:(lia)) as [Hlen Hnth].
  intros Hs. injection Hs as <-. split; [lia|]. split; [exact Hlen|].
  intros j. unfold get. destruct (Z.ltb_spec j 0).
  - destruct (Z.eqb_spec j i); [lia | reflexivity].
  - rewrite Hnth. destruct (Z.eqb_spec j i) as [-> | Hne].
    + rewrite Nat.eqb_refl. reflexivity.
    + destruct (Nat.eqb_spec (Z.to_nat j) (Z.to_nat i)); [lia | reflexivity].
Qed.

(** Two vectors with the same cells are the same vector. *)
Lemma get_ext {A} (l l' : list A) : (forall j, get l j = get l' j) -> l = l'.
Proof.
  intros Hg. apply nth_error_ext. intros n. specialize (Hg (Z.of_nat n)).
  unfold get in Hg. destruct (Z.ltb_spec (Z.of_nat n) 0); [lia|].
  rewrite Nat2Z.id in Hg. exact Hg.
Qed.

(** *** Conversions keep the low bits *)

Lemma wrap_mod w z : 0 < w -> wrap w z mod 2 ^ w = z mod 2 ^ w.
Proof.
  intros Hw. unfold wrap. rewrite Zminus_mod_idemp_l. f_equal. lia.
Qed.

Lemma convert_mod t z : convert t z mod 2 ^ width t = z mod 2 ^ width t.
Proof.
  destruct t; unfold convert, width, sizeof;
    first [apply Zmod_mod | apply wrap_mod; lia].
Qed.

Lemma testbit_convert t z k : k < width t -> Z.testbit (convert t z) k = Z.testbit z k.
Proof.
  intros Hk. rewrite <- (Z.mod_pow2_bits_low (convert t z) (width t) k Hk).
  rewrite convert_mod. apply Z.mod_pow2_bits_low, Hk.
Qed.

Lemma testbit_promoted t z k :
  k < width t -> Z.testbit (convert (promoted t) z) k = Z.testbit z k.
Proof.
  intros Hk. apply testbit_convert. destruct t; unfold width, sizeof, promoted in *; lia.
Qed.

Lemma testbit_to_char sgn z k : k < 8 -> Z.testbit (to_char sgn z) k = Z.testbit z k.
Proof.
  intros Hk. unfold to_char. destruct sgn.
  - rewrite <- (Z.mod_pow2_bits_low (wrap 8 z) 8 k Hk). rewrite wrap_mod by lia.
    apply Z.mod_pow2_bits_low, Hk.
  - apply Z.mod_pow2_bits_low, Hk.
Qed.

Lemma convert_representable t z : representable t (convert t z).
Proof.
  unfold representable.
  destruct t; unfold convert, numeric_min, numeric_max, wrap.
  - pose proof (Z.mod_pos_bound z (2 ^ 16) ltac:(lia)). lia.
  - pose proof (Z.mod_pos_bound (z + 2 ^ (16 - 1)) (2 ^ 16) ltac:(lia)).
    change (2 ^ (16 - 1)) with 32768 in *. change (2 ^ 16) with 65536 in *.
    change (2 ^ 15) with 32768. lia.
  - pose proof (Z.mod_pos_bound z (2 ^ 32) ltac:(lia)). lia.
  - pose proof (Z.mod_pos_bound (z + 2 ^ (32 - 1)) (2 ^ 32) ltac:(lia)).
    change (2 ^ (32 - 1)) with 2147483648 in *. change (2 ^ 32) with 4294967296 in *.
    change (2 ^ 31) with 2147483648. lia.
Qed.

Lemma convert_id t v : representable t v -> convert t v = v.
Proof.
  unfold representable.
  destruct t; unfold convert, numeric_min, numeric_max, wrap;
    change (2 ^ (16 - 1)) with 32768; change (2 ^ 16) with 65536;
    change (2 ^ 15) with 32768; change (2 ^ (32 - 1)) with 2147483648;
    change (2 ^ 32) with 4294967296; change (2 ^ 31) with 2147483648;
    intros Hv; rewrite Z.mod_small; lia.
Qed.

(** Two values of the type with the same low bits are the same value. *)
Lemma representable_bits t a b :
  representable t a -> representable t b ->
  (forall k, 0 <= k < width t -> Z.testbit a k = Z.testbit b k) -> a = b.
Proof.
  intros Ha Hb Hbits.
  rewrite <- (convert_id t a Ha), <- (convert_id t b Hb).
  assert (a mod 2 ^ width t = b mod 2 ^ width t) as Hmod.
  { apply Z.bits_inj'. intros k Hk.
    assert (0 <= width t) by (destruct t; unfold width, sizeof; lia).
    rewrite !Z.testbit_mod_pow2 by assumption.
    destruct (Z.ltb_spec k (width t)); [|reflexivity]. cbn [andb]. apply Hbits. lia. }
  destruct t; unfold convert, wrap.
  - exact Hmod.
  - f_equal. rewrite <- (Zplus_mod_idemp_l a), <- (Zplus_mod_idemp_l b).
    unfold width, sizeof in Hmod. change (8 * 2) with 16 in Hmod. rewrite Hmod. reflexivity.
  - exact Hmod.
  - f_equal. rewrite <- (Zplus_mod_idemp_l a), <- (Zplus_mod_idemp_l b).
    unfold width, sizeof in Hmod. change (8 * 4) with 32 in Hmod. rewrite Hmod. reflexivity.
Qed.

Lemma byte_index i k : 8 * i <= k < 8 * i + 8 -> k / 8 = i /\ k mod 8 = k - 8 * i.
Proof.
  intros Hk. assert (k / 8 = i) as Hd.
  { symmetry. apply (Z.div_unique k 8 i (k - 8 * i)); lia. }
  split; [exact Hd|]. pose proof (Z.div_mod k 8 ltac:(lia)). lia.
Qed.

(** *** [read] and [write] *)

(** What [read] assembles: bit [k] of the value is bit [k mod 8] of the
    char at offset [k / 8]. *)
Lemma read_bits t data at_ v :
  read t data at_ = Some v ->
  representable t v
  /\ (forall j, 0 <= j < sizeof t -> exists c, get data (at_ + j) = Some c)
  /\ forall k, 0 <= k < width t ->
       Z.testbit v k = Z.testbit (byte data at_ (k / 8)) (k mod 8).
Proof.
  intros Hr. unfold read in Hr.
  assert (0 <= sizeof t) as Hsz by (destruct t; cbn; lia).
  apply (for_inversion
           (fun i value =>
              representable t value
              /\ (forall j, 0 <= j < i -> exists c, get data (at_ + j) = Some c)
              /\ forall k, 0 <= k < width t ->
                   Z.testbit value k
                   = if k <? 8 * i then Z.testbit (byte data at_ (k / 8)) (k mod 8)
                     else false)) in Hr; try assumption.
  - destruct Hr as (Hrep & Hget & Hbits). split; [exact Hrep|]. split; [exact Hget|].
    intros k Hk. rewrite Hbits by assumption.
    destruct (Z.ltb_spec k (8 * sizeof t)); [reflexivity | unfold width in Hk; lia].
  - split; [destruct t; unfold representable; cbn; lia|]. split; [intros; lia|].
    intros k Hk. rewrite Z.testbit_0_l. destruct (Z.ltb_spec k (8 * 0)); [lia | reflexivity].
  - intros i value value' Hi (Hrep & Hget & Hbits) Hbody.
    apply bind_some in Hbody as (c & Hc & Hv). injection Hv as <-.
    split; [apply convert_representable|]. split.
    + intros j Hj. destruct (Z.eq_dec j i) as [-> | Hne]; [eauto|]. apply Hget. lia.
    + intros k Hk. rewrite testbit_convert by lia. rewrite Z.lor_spec.
      rewrite testbit_promoted by lia. rewrite Z.shiftl_spec by lia.
      change (match i with
              | 0 => 0
              | Z.pos y' => Z.pos y'~0~0~0
              | Z.neg y' => Z.neg y'~0~0~0
              end) with (8 * i).
      rewrite Hbits by assumption.
      destruct (Z.ltb_spec k (8 * i)), (Z.ltb_spec k (8 * (i + 1))); try lia.
      * rewrite (Z.testbit_neg_r _ (k - 8 * i)) by lia. apply orb_false_r.
      * destruct (byte_index i k ltac:(lia)) as [-> ->].
        rewrite orb_false_l. change 255 with (Z.ones 8). rewrite Z.land_spec.
        rewrite Z.testbit_ones_nonneg by lia.
        destruct (Z.ltb_spec (k - 8 * i) 8); [|lia]. rewrite andb_true_r.
        rewrite testbit_convert by (destruct t; unfold width, sizeof; lia).
        unfold byte. rewrite Hc. reflexivity.
      * rewrite orb_false_l. change 255 with (Z.ones 8). rewrite Z.land_spec.
        rewrite Z.testbit_ones_nonneg by lia.
        destruct (Z.ltb_spec (k - 8 * i) 8); [lia|]. apply andb_false_r.
Qed.

Lemma read_defined t data at_ :
  (forall j, 0 <= j < sizeof t -> exists c, get data (at_ + j) = Some c) ->
  exists v, read t data at_ = Some v.
Proof.
  intros Hget. unfold read.
  assert (0 <= sizeof t) as Hsz by (destruct t; cbn; lia).
  destruct (for_invariant (fun _ _ => True) (sizeof t)
              (fun value i =>
                 c <- get data (at_ + i) ;;
                 Some (convert t
                         (Z.lor value
                            (convert (promoted t)
                               (Z.shiftl (Z.land (convert t c) 255) (8 * i))))))
              0 Hsz I) as (v & Hv & _); [|eauto].
  intros i st Hi _. destruct (Hget i Hi) as (c & ->). cbn [bind]. eauto.
Qed.

(** What [write] leaves: the chars of the value, low byte first, and the
    rest of the vector as it was. *)
Lemma write_cells sgn t data at_ v :
  0 <= at_ -> at_ + sizeof t <= Z.of_nat (length data) ->
  exists data',
    write sgn t data at_ v = Some data'
    /\ length data' = length data
    /\ forall j, get data' j
                 = if (at_ <=? j) && (j <? at_ + sizeof t)
                   then Some (to_char sgn (Z.shiftr v (8 * (j - at_))))
                   else get data j.
Proof.
  intros Hat Hlen. unfold write.
  assert (0 <= sizeof t) as Hsz by (destruct t; cbn; lia).
  destruct (for_invariant
              (fun i d =>
                 length d = length data
                 /\ forall j, get d j
                              = if (at_ <=? j) && (j <? at_ + i)
                                then Some (to_char sgn (Z.shiftr v (8 * (j - at_))))
                                else get data j)
              (sizeof t)
              (fun data i => set data (at_ + i) (to_char sgn (Z.shiftr v (8 * i))))
              data Hsz) as (data' & Hw & Hl & Hcells).
  - split; [reflexivity|]. intros j.
    destruct (Z.leb_spec at_ j), (Z.ltb_spec j (at_ + 0)); cbn [andb]; try reflexivity; lia.
  - intros i d Hi (Hl & Hcells).
    destruct (set_in_bounds d (at_ + i) (to_char sgn (Z.shiftr v (8 * i))) ltac:(lia))
      as (d' & Hset).
    exists d'. split; [exact Hset|].
    apply set_some in Hset as (_ & Hl' & Hget). split; [congruence|].
    intros j. rewrite Hget, Hcells.
    destruct (Z.eqb_spec j (at_ + i)) as [-> | Hne].
    + destruct (Z.leb_spec at_ (at_ + i)), (Z.ltb_spec (at_ + i) (at_ + (i + 1)));
        cbn [andb]; try lia. do 3 f_equal. lia.
    + destruct (Z.leb_spec at_ j), (Z.ltb_spec j (at_ + i)), (Z.ltb_spec j (at_ + (i + 1)));
        cbn [andb]; try reflexivity; lia.
  - eauto.
Qed.

Lemma to_char_congr sgn a b :
  (forall k, 0 <= k < 8 -> Z.testbit a k = Z.testbit b k) -> to_char sgn a = to_char sgn b.
Proof.
  intros Hbits.
  assert (a mod 2 ^ 8 = b mod 2 ^ 8) as Hmod.
  { apply Z.bits_inj'. intros k Hk. rewrite !Z.testbit_mod_pow2 by lia.
    destruct (Z.ltb_spec k 8); [|reflexivity]. cbn [andb]. apply Hbits. lia. }
  unfold to_char, wrap. destruct sgn; [|exact Hmod].
  f_equal. rewrite <- (Zplus_mod_idemp_l a), <- (Zplus_mod_idemp_l b), Hmod. reflexivity.
Qed.

Lemma bit_position t k :
  0 <= k < width t -> 0 <= k / 8 < sizeof t /\ 0 <= k mod 8 < 8 /\ k mod 8 + 8 * (k / 8) = k.
Proof.
  intros Hk. unfold width in Hk.
  pose proof (Z.div_mod k 8 ltac:(lia)). pose proof (Z.mod_pos_bound k 8 ltac:(lia)).
  assert (0 <= k / 8) by (apply Z.div_pos; lia).
  assert (k / 8 < sizeof t) by (apply Z.div_lt_upper_bound; lia).
  lia.
Qed.

(** What [write] has stored is what [read] finds. *)
Lemma write_then_read sgn t data at_ v :
  representable t v ->
  0 <= at_ -> at_ + sizeof t <= Z.of_nat (length data) ->
  exists data',
    write sgn t data at_ v = Some data'
    /\ read t data' at_ = Some v
    /\ length data' = length data
    /\ forall j, ~ at_ <= j < at_ + sizeof t -> get data' j = get data j.
Proof.
  intros Hv Hat Hlen.
  destruct (write_cells sgn t data at_ v Hat Hlen) as (data' & Hw & Hl & Hcells).
  exists data'. split; [exact Hw|].
  assert (forall j, 0 <= j < sizeof t ->
            get data' (at_ + j) = Some (to_char sgn (Z.shiftr v (8 * j)))) as Hbytes.
  { intros j Hj. rewrite Hcells.
    destruct (Z.leb_spec at_ (at_ + j)), (Z.ltb_spec (at_ + j) (at_ + sizeof t));
      cbn [andb]; try lia. do 3 f_equal. lia. }
  split; [|split; [exact Hl|]].
  - destruct (read_defined t data' at_) as (v' & Hr); [intros j Hj; rewrite Hbytes; eauto|].
    rewrite Hr. f_equal.
    destruct (read_bits t data' at_ v' Hr) as (Hrep & _ & Hbits).
    apply (representable_bits t); try assumption.
    intros k Hk. rewrite Hbits by assumption.
    destruct (bit_position t k Hk) as (Hq & Hm & Hkk).
    unfold byte. rewrite Hbytes by assumption.
    rewrite testbit_to_char by lia. rewrite Z.shiftr_spec by lia. f_equal. exact Hkk.
  - intros j Hj. rewrite Hcells.
    destruct (Z.leb_spec at_ j), (Z.ltb_spec j (at_ + sizeof t)); cbn [andb];
      try reflexivity; lia.
Qed.

End CodecFacts.

Module CodecClaims.

Import CommandLine ProcessorSpec CodecFacts.

(** X8: a value of the type that [write] has stored is the value that
    [read] finds there (two or four chars, low byte first, whether
    [char] is signed or not); [write] touches no other char. *)
Theorem read_after_write sgn t data at_ v :
  representable t v ->
  0 <= at_ -> at_ + sizeof t <= Z.of_nat (length data) ->
  exists data',
    write sgn t data at_ v = Some data'
    /\ read t data' at_ = Some v
    /\ length data' = length data
    /\ forall j, ~ at_ <= j < at_ + sizeof t -> get data' j = get data j.
Proof. apply write_then_read. Qed.

Lemma read_after_write_witness :
  exists data',
    write true int16_t [0; 0; 0; 0] 1 (-2) = Some data'
    /\ read int16_t data' 1 = Some (-2)
    /\ length data' = length [0; 0; 0; 0]
    /\ forall j, ~ 1 <= j < 1 + sizeof int16_t -> get data' j = get [0; 0; 0; 0] j.
Proof.
  apply (read_after_write true int16_t [0; 0; 0; 0] 1 (-2));
    [unfold representable; cbn; lia | lia | cbn; lia].
Defined.

(** X9: the chars from which [read] has assembled a value are the chars
    that [write] stores for it: writing back what was read changes
    nothing. *)
Theorem write_after_read sgn t data at_ v :
  0 <= at_ ->
  (forall j c, 0 <= j < sizeof t -> get data (at_ + j) = Some c -> is_char sgn c) ->
  read t data at_ = Some v ->
  write sgn t data at_ v = Some data.
Proof.
  intros Hat Hchars Hr.
  destruct (read_bits t data at_ v Hr) as (Hrep & Hget & Hbits).
  assert (0 < sizeof t) as Hsz by (destruct t; cbn; lia).
  assert (at_ + sizeof t <= Z.of_nat (length data)) as Hlen.
  { destruct (Hget (sizeof t - 1) ltac:(lia)) as (c & Hc). apply get_some in Hc.
    unfold char in *. lia. }
  destruct (write_cells sgn t data at_ v Hat Hlen) as (data' & Hw & Hl & Hcells).
  rewrite Hw. f_equal. apply get_ext. intros j. rewrite Hcells.
  destruct (Z.leb_spec at_ j), (Z.ltb_spec j (at_ + sizeof t)); cbn [andb];
    try reflexivity.
  destruct (Hget (j - at_) ltac:(lia)) as (c & Hc).
  replace (at_ + (j - at_)) with j in Hc by lia. rewrite Hc. f_equal.
  rewrite <- (Hchars (j - at_) c ltac:(lia)) by (replace (at_ + (j - at_)) with j by lia; exact Hc).
  apply to_char_congr. intros k Hk. rewrite Z.shiftr_spec by lia.
  rewrite Hbits by (unfold width; lia).
  destruct (byte_index (j - at_) (k + 8 * (j - at_)) ltac:(lia)) as [-> ->].
  unfold byte. replace (at_ + (j - at_)) with j by lia. rewrite Hc. f_equal. lia.
Qed.

Lemma write_after_read_witness :
  write true uint32_t [82; 73; 70; 70; -1] 0 1179011410 = Some [82; 73; 70; 70; -1].
Proof.
  apply (write_after_read true uint32_t [82; 73; 70; 70; -1] 0 1179011410).
  - lia.
  - intros j c Hj Hc.
    assert (j = 0 \/ j = 1 \/ j = 2 \/ j = 3) as [-> | [-> | [-> | ->]]] by (cbn in Hj; lia);
      injection Hc as <-; reflexivity.
  - reflexivity.
Defined.

End CodecClaims.

(** ** The arithmetic of [float] *)
Module SingleFacts.

Import Binary64 BinaryFacts Single SampleSpec.

Lemma fexp_single d e :
  fexp Single.prec Single.emax (d + e) = Z.max (d + e - 24) (-149).
Proof. reflexivity. Qed.

(** [binary_round] is exact on a mantissa of at most 24 bits whose
    exponent is not below the least one, short of an overflow. *)
Lemma round_exact s m e :
  Z.pos (digits2_pos m) <= 24 -> -149 <= e ->
  binary_round Single.prec Single.emax s m e
  = let c := Z.max (Z.pos (digits2_pos m) + e - 24) (-149) in
    if c <=? 104 then S754_finite s (shl m (e - c)) c else S754_infinity s.
Proof.
  intros Hd He. cbv zeta. unfold binary_round.
  rewrite fexp_single.
  set (e' := Z.max (Z.pos (digits2_pos m) + e - 24) (-149)) in *.
  assert (e' <= e) as Hle by (unfold e'; lia).
  rewrite (shl_align_le _ _ _ Hle).
  unfold binary_round_aux, shr_fexp.
  cbn [Zdigits2 shr_record_of_loc].
  rewrite (shl_digits m (e - e')) by lia.
  replace (Z.pos (digits2_pos m) + (e - e') + e') with (Z.pos (digits2_pos m) + e) by lia.
  rewrite fexp_single. fold e'. rewrite Z.sub_diag.
  cbn [shr shr_m loc_of_shr_record round_nearest_even Zdigits2 shr_record_of_loc].
  rewrite (shl_digits m (e - e')) by lia.
  replace (Z.pos (digits2_pos m) + (e - e') + e') with (Z.pos (digits2_pos m) + e) by lia.
  rewrite fexp_single. fold e'. rewrite Z.sub_diag.
  cbn [shr shr_m].
  replace (Z.sub Single.emax Single.prec) with 104 by reflexivity.
  reflexivity.
Qed.

(** A mantissa of 24 bits that was shifted left, at an exponent lowered
    by as much, rounds to the mantissa itself. *)
Lemma round_aux_shl s q j e :
  0 <= j -> Z.pos (digits2_pos q) = 24 -> -149 <= e <= 104 ->
  binary_round_aux Single.prec Single.emax s (Z.pos (shl q j)) (e - j) loc_Exact
  = S754_finite s q e.
Proof.
  intros Hj Hd He. unfold binary_round_aux, shr_fexp.
  cbn [Zdigits2 shr_record_of_loc].
  rewrite shl_digits by lia.
  replace (Z.pos (digits2_pos q) + j + (e - j)) with (Z.pos (digits2_pos q) + e) by lia.
  rewrite fexp_single, Hd.
  replace (Z.max (24 + e - 24) (-149) - (e - j)) with j by lia.
  assert (shr {| shr_m := Z.pos (shl q j); shr_r := false; shr_s := false |} (e - j) j
          = ({| shr_m := Z.pos q; shr_r := false; shr_s := false |}, e)) as ->.
  { destruct j as [|k|k]; [| |lia].
    - cbn [shr shl]. f_equal. lia.
    - cbn [shr]. rewrite shr_shl. f_equal. lia. }
  cbn [shr_m loc_of_shr_record round_nearest_even Zdigits2 shr_record_of_loc].
  rewrite fexp_single, Hd.
  replace (Z.max (24 + e - 24) (-149) - e) with 0 by lia.
  cbn [shr shr_m].
  replace (Z.sub Single.emax Single.prec) with 104 by reflexivity.
  destruct (Z.leb_spec e 104); [reflexivity | lia].
Qed.

(** The float of a positive integer below 2^24 is the integer. *)
Lemma round_of_pos s p :
  Z.pos p < 2 ^ 24 -> binary_round Single.prec Single.emax s p 0 = normal s p.
Proof.
  intros Hp. pose proof (digits2_pos_le p 24 ltac:(lia) Hp) as Hd.
  rewrite round_exact by lia. cbv zeta.
  replace (Z.max (Z.pos (digits2_pos p) + 0 - 24) (-149))
    with (Z.pos (digits2_pos p) - 24) by lia.
  destruct (Z.leb_spec (Z.pos (digits2_pos p) - 24) 104); [|lia].
  unfold normal. do 2 f_equal. lia.
Qed.

Lemma normal_digits p :
  Z.pos p < 2 ^ 24 ->
  Z.pos (digits2_pos (shl p (24 - Z.pos (digits2_pos p)))) = 24.
Proof.
  intros Hp. pose proof (digits2_pos_le p 24 ltac:(lia) Hp) as Hd.
  rewrite shl_digits by lia. lia.
Qed.

Lemma of_int_pos p :
  Z.pos p < 2 ^ 24 -> Single.of_int (Z.pos p) = normal false p.
Proof. intros Hp. unfold Single.of_int. cbn [binary_normalize]. apply round_of_pos, Hp. Qed.

Lemma of_int_neg p :
  Z.pos p < 2 ^ 24 -> Single.of_int (Z.neg p) = normal true p.
Proof. intros Hp. unfold Single.of_int. cbn [binary_normalize]. apply round_of_pos, Hp. Qed.

(** A product with a power of two moves the exponent. *)
Lemma mul_pow2 s q e ek :
  Z.pos (digits2_pos q) = 24 -> -149 <= e + ek + 23 <= 104 ->
  Single.mul (S754_finite false 8388608 ek) (S754_finite s q e)
  = S754_finite s q (e + ek + 23).
Proof.
  intros Hd He. unfold Single.mul, SFmul. cbn [xorb].
  replace (Pos.mul 8388608 q) with (shl q 23)
    by (apply Pos2Z.inj; rewrite shl_value by lia; lia).
  replace (ek + e) with (e + ek + 23 - 23) by lia.
  apply round_aux_shl; lia.
Qed.

(** [std::ldexp] by a count that is not negative. *)
Lemma ldexp_up s m e k :
  Z.pos (digits2_pos m) <= 24 -> -149 <= e -> 0 <= k ->
  Single.ldexp (S754_finite s m e) k
  = let c := Z.max (Z.pos (digits2_pos m) + e + k - 24) (-149) in
    if c <=? 104 then S754_finite s (shl m (e + k - c)) c else S754_infinity s.
Proof.
  intros Hd He Hk. unfold Single.ldexp, SFldexp. rewrite round_exact by lia.
  cbv zeta. replace (Z.pos (digits2_pos m) + (e + k) - 24)
    with (Z.pos (digits2_pos m) + e + k - 24) by lia.
  reflexivity.
Qed.

(** *** Comparisons of finite floats *)

Lemma ltb_finite s mz cz mk ek :
  SFltb (S754_finite s mz cz) (S754_finite true mk ek)
  = s && ((ek <? cz) || ((cz =? ek) && (Z.pos mk <? Z.pos mz))).
Proof.
  unfold SFltb, SFcompare. destruct s; [|reflexivity]. cbn [andb].
  destruct (Z.compare_spec cz ek) as [-> | H | H].
  - rewrite Z.ltb_irrefl, Z.eqb_refl. cbn [orb andb].
    change (Pos.compare_cont Eq mz mk) with (Pos.compare mz mk).
    destruct (Pos.compare_spec mz mk) as [Hm | Hm | Hm]; cbn [CompOpp];
      destruct (Z.ltb_spec (Z.pos mk) (Z.pos mz)); try reflexivity; lia.
  - destruct (Z.ltb_spec ek cz); [lia|]. destruct (Z.eqb_spec cz ek); [lia|]. reflexivity.
  - destruct (Z.ltb_spec ek cz); [|lia]. reflexivity.
Qed.

Lemma leb_finite s mz cz mk ek :
  SFleb (S754_finite false mk ek) (S754_finite s mz cz)
  = negb s && ((ek <? cz) || ((ek =? cz) && (Z.pos mk <=? Z.pos mz))).
Proof.
  unfold SFleb, SFcompare. destruct s; [reflexivity|]. cbn [andb negb].
  destruct (Z.compare_spec ek cz) as [-> | H | H].
  - rewrite Z.ltb_irrefl, Z.eqb_refl. cbn [orb andb].
    change (Pos.compare_cont Eq mk mz) with (Pos.compare mk mz).
    destruct (Pos.compare_spec mk mz) as [Hlt | Hlt | Hlt];
      destruct (Z.leb_spec (Z.pos mk) (Z.pos mz)); try reflexivity; lia.
  - destruct (Z.ltb_spec ek cz); [reflexivity | lia].
  - destruct (Z.ltb_spec ek cz); [lia|]. destruct (Z.eqb_spec ek cz); [lia|]. reflexivity.
Qed.

(** *** A float that holds an integer *)

(** The float [mz * 2^cz], of a full mantissa, is the integer [K]. *)
Lemma carried_digits mz cz K :
  Z.pos (digits2_pos mz) = 24 ->
  (0 <= cz /\ Z.pos K = Z.pos mz * 2 ^ cz)
  \/ (cz < 0 /\ Z.pos mz = Z.pos K * 2 ^ (- cz)) ->
  Z.pos (digits2_pos K) = cz + 24.
Proof.
  intros Hd [[Hc HK] | [Hc HK]].
  - assert (K = shl mz cz) as -> by (apply Pos2Z.inj; rewrite shl_value by lia; exact HK).
    rewrite shl_digits by lia. lia.
  - assert (mz = shl K (- cz)) as -> by (apply Pos2Z.inj; rewrite shl_value by lia; exact HK).
    rewrite shl_digits in Hd by lia. lia.
Qed.

Lemma carried_floor mz cz K :
  (0 <= cz /\ Z.pos K = Z.pos mz * 2 ^ cz)
  \/ (cz < 0 /\ Z.pos mz = Z.pos K * 2 ^ (- cz)) ->
  floor_mag mz cz = Z.pos K.
Proof.
  intros [[Hc HK] | [Hc HK]]; unfold floor_mag.
  - destruct (Z.leb_spec 0 cz); [|lia]. symmetry. exact HK.
  - destruct (Z.leb_spec 0 cz); [lia|]. rewrite HK.
    apply Z.div_mul. pose proof (Z.pow_pos_nonneg 2 (- cz)). lia.
Qed.

(** The lowest values of the sample types, as floats. *)
Lemma lowest_values :
  Single.of_int (CommandLine.numeric_min CommandLine.int16_t)
  = S754_finite true 8388608 (-8)
  /\ Single.of_int (CommandLine.numeric_min CommandLine.int32_t)
     = S754_finite true 8388608 8.
Proof. vm_compute. split; reflexivity. Qed.

End SingleFacts.

(** ** [toFloat] and [fromFloat] *)
Module SampleFacts.

Import Binary64 BinaryFacts ScaledFacts Single CommandLine SampleSpec SingleFacts.

(** The close of [fromFloat] on a float that holds the integer [K]: the
    integer, or the end of the range that it is beyond. *)
Lemma sample_of_carried k s mz cz K :
  k = 15 \/ k = 31 ->
  Z.pos (digits2_pos mz) = 24 ->
  (0 <= cz /\ Z.pos K = Z.pos mz * 2 ^ cz)
  \/ (cz < 0 /\ Z.pos mz = Z.pos K * 2 ^ (- cz)) ->
  (if SFltb (S754_finite s mz cz) (S754_finite true 8388608 (k - 23))
   then Some (- 2 ^ k)
   else if SFleb (SFopp (S754_finite true 8388608 (k - 23))) (S754_finite s mz cz)
   then Some (2 ^ k - 1)
   else v <- truncate (S754_finite s mz cz) ;;
        if (- 2 ^ k <=? v) && (v <=? 2 ^ k - 1) then Some v else None)
  = Some (Z.max (- 2 ^ k) (Z.min (2 ^ k - 1) (cond_Zopp s (Z.pos K)))).
Proof.
  intros Hk Hd Hrel. rewrite ltb_finite. cbn [SFopp negb]. rewrite leb_finite.
  pose proof (carried_digits mz cz K Hd Hrel) as HdK.
  pose proof (digits2_pos_bounds K) as HK. rewrite HdK in HK.
  pose proof (digits2_pos_bounds mz) as Hmz. rewrite Hd in Hmz.
  change (2 ^ (24 - 1)) with 8388608 in Hmz. change (2 ^ 24) with 16777216 in Hmz.
  unfold truncate. rewrite (carried_floor mz cz K Hrel). cbn [bind].
  assert (k - 23 < cz -> 2 ^ (k + 1) <= Z.pos K) as Habove.
  { intros Hc. transitivity (2 ^ (cz + 24 - 1)); [|lia].
    apply Z.pow_le_mono_r; lia. }
  assert (cz < k - 23 -> Z.pos K < 2 ^ k) as Hbelow.
  { intros Hc. apply Z.lt_le_trans with (2 ^ (cz + 24)); [lia|].
    apply Z.pow_le_mono_r; lia. }
  assert (cz = k - 23 -> Z.pos mz * 2 ^ k = Z.pos K * 8388608) as Hat.
  { intros ->. destruct Hk as [-> | ->]; destruct Hrel as [[Hc E] | [Hc E]]; lia. }
  destruct Hk as [-> | ->].
  - change (2 ^ (15 + 1)) with 65536 in Habove.
    change (2 ^ 15) with 32768 in *. change (15 - 23) with (-8) in *.
    destruct s; cbn [andb negb cond_Zopp];
      destruct (Z.ltb_spec (-8) cz); cbn [orb];
      try (destruct (Z.eqb_spec cz (-8)); cbn [andb]);
      try (destruct (Z.eqb_spec (-8) cz); cbn [andb]);
      try (destruct (Z.ltb_spec 8388608 (Z.pos mz)));
      try (destruct (Z.leb_spec 8388608 (Z.pos mz)));
      try (specialize (Habove ltac:(lia)));
      try (specialize (Hbelow ltac:(lia)));
      try (specialize (Hat ltac:(lia)));
      repeat match goal with
        | |- context [?a <=? ?b] => destruct (Z.leb_spec a b); cbn [andb]
        end;
      try (f_equal; lia); try lia.
  - change (2 ^ (31 + 1)) with 4294967296 in Habove.
    change (2 ^ 31) with 2147483648 in *. change (31 - 23) with 8 in *.
    destruct s; cbn [andb negb cond_Zopp];
      destruct (Z.ltb_spec 8 cz); cbn [orb];
      try (destruct (Z.eqb_spec cz 8); cbn [andb]);
      try (destruct (Z.eqb_spec 8 cz); cbn [andb]);
      try (destruct (Z.ltb_spec 8388608 (Z.pos mz)));
      try (destruct (Z.leb_spec 8388608 (Z.pos mz)));
      try (specialize (Habove ltac:(lia)));
      try (specialize (Hbelow ltac:(lia)));
      try (specialize (Hat ltac:(lia)));
      repeat match goal with
        | |- context [?a <=? ?b] => destruct (Z.leb_spec a b); cbn [andb]
        end;
      try (f_equal; lia); try lia.
Qed.

(** [fromFloat] from [std::ldexp] on, for a finite float. *)
Lemma sample_of_finite k s m e :
  k = 15 \/ k = 31 ->
  Z.pos (digits2_pos m) <= 24 -> -149 <= e ->
  (if SFltb (Single.round (Single.ldexp (S754_finite s m e) k))
        (S754_finite true 8388608 (k - 23))
   then Some (- 2 ^ k)
   else if SFleb (SFopp (S754_finite true 8388608 (k - 23)))
             (Single.round (Single.ldexp (S754_finite s m e) k))
   then Some (2 ^ k - 1)
   else v <- truncate (Single.round (Single.ldexp (S754_finite s m e) k)) ;;
        if (- 2 ^ k <=? v) && (v <=? 2 ^ k - 1) then Some v else None)
  = Some (Z.max (- 2 ^ k) (Z.min (2 ^ k - 1) (cond_Zopp s (round_mag m (e + k))))).
Proof.
  intros Hk Hd He. assert (0 <= k) as Hk0 by lia.
  rewrite (ldexp_up s m e k Hd He Hk0). cbv zeta.
  set (c := Z.max (Z.pos (digits2_pos m) + e + k - 24) (-149)).
  assert (c <= e + k) as Hc by (unfold c; lia).
  destruct (Z.leb_spec c 104) as [Hfin | Hinf].
  - unfold Single.round. destruct (Z.leb_spec 0 c) as [Hc0 | Hc0].
    + assert (round_mag m (e + k) = Z.pos (shl m (e + k))) as ->.
      { unfold round_mag. destruct (Z.leb_spec 0 (e + k)); [|lia].
        rewrite shl_value by lia. reflexivity. }
      apply sample_of_carried; [exact Hk | rewrite shl_digits by lia; unfold c; lia |].
      left. split; [exact Hc0|]. rewrite !shl_value by lia.
      rewrite <- Z.mul_assoc, <- Z.pow_add_r by lia. do 2 f_equal. lia.
    + assert (round_mag (shl m (e + k - c)) c = round_mag m (e + k)) as HR.
      { replace c with (e + k - (e + k - c)) at 2 by lia. apply round_mag_shl; lia. }
      pose proof (round_mag_spec (shl m (e + k - c)) c Hc0) as (Hr0 & _ & Hhalf & _).
      rewrite HR in Hr0, Hhalf |- *.
      pose proof (digits2_pos_bounds (shl m (e + k - c))) as [_ Hm'].
      assert (Z.pos (shl m (e + k - c)) < 2 ^ 24) as Hm24.
      { eapply Z.lt_le_trans; [exact Hm'|]. apply Z.pow_le_mono_r; [lia|].
        rewrite shl_digits by lia. unfold c. lia. }
      change (2 ^ 24) with 16777216 in Hm24.
      destruct (round_mag m (e + k)) as [|K|K]; [| |lia].
      * destruct Hk as [-> | ->]; destruct s; reflexivity.
      * assert (Z.pos K < 2 ^ 24) as HK by (change (2 ^ 24) with 16777216; lia).
        assert (binary_normalize Single.prec Single.emax
                  (if s then Z.neg K else Z.pos K) 0 s = normal s K) as ->
          by (destruct s; cbn [binary_normalize]; apply round_of_pos, HK).
        pose proof (digits2_pos_le K 24 ltac:(lia) HK) as HdK.
        unfold normal.
        apply sample_of_carried; [exact Hk | apply normal_digits, HK |].
        destruct (Z.eq_dec (Z.pos (digits2_pos K)) 24) as [E | E].
        -- left. rewrite E. cbn [shl Z.sub Z.add Z.opp Z.pos_sub]. cbn. lia.
        -- right. split; [lia|]. rewrite shl_value by lia. do 2 f_equal. lia.
  - cbn [Single.round].
    assert (2 ^ k <= round_mag m (e + k)) as Hbig.
    { unfold round_mag. destruct (Z.leb_spec 0 (e + k)); [|lia].
      pose proof (Z.pow_le_mono_r 2 k (e + k) ltac:(lia) ltac:(lia)).
      pose proof (Z.pow_pos_nonneg 2 k ltac:(lia) Hk0). nia. }
    revert Hbig. generalize (round_mag m (e + k)). intros R HR.
    destruct Hk as [-> | ->]; destruct s; cbn [SFltb SFleb SFcompare SFopp cond_Zopp];
      f_equal; lia.
Qed.

(** What [decode] gives is a float of the format. *)
Lemma decode_finite x s m e :
  decode x = S754_finite s m e ->
  Z.pos (digits2_pos m) <= 24 /\ -149 <= e <= 104
  /\ (Z.pos (digits2_pos m) = 24 \/ e = -149).
Proof.
  unfold decode.
  pose proof (Z.mod_pos_bound x (2 ^ 23) ltac:(lia)) as Hm.
  pose proof (Z.mod_pos_bound (Z.shiftr x 23) 256 ltac:(lia)) as Hex.
  change (2 ^ 23) with 8388608 in *.
  generalize dependent (Z.shiftr x 23 mod 256). intros ex Hex.
  generalize dependent (x mod 8388608). intros mx Hm.
  generalize (Z.testbit x 31). intros sx.
  destruct (Z.eqb_spec ex 0) as [E0 | E0].
  - destruct mx as [|p|p]; try discriminate.
    intros [= <- <- <-]. split; [|lia].
    pose proof (digits2_pos_le p 23 ltac:(lia) ltac:(change (2 ^ 23) with 8388608; lia)). lia.
  - destruct (Z.eqb_spec ex 255) as [E1 | E1].
    + destruct (mx =? 0); discriminate.
    + destruct (mx + 8388608) as [|p|p] eqn:Hp; try discriminate.
      remember (ex - 150) as e' eqn:He'.
      intros [= <- <- <-].
      assert (Z.pos p < 2 ^ 24) as Hp24 by (change (2 ^ 24) with 16777216; lia).
      pose proof (digits2_pos_le p 24 ltac:(lia) Hp24).
      pose proof (digits2_pos_bounds p) as [_ Hup].
      assert (24 <= Z.pos (digits2_pos p)).
      { destruct (Z.le_gt_cases 24 (Z.pos (digits2_pos p))) as [|Hlt]; [assumption|].
        pose proof (Z.pow_le_mono_r 2 (Z.pos (digits2_pos p)) 23 ltac:(lia) ltac:(lia)) as Hle.
        change (2 ^ 23) with 8388608 in Hle. lia. }
      lia.
Qed.

(** [fromFloat] on every float: the nearest sample, and no sample for a NaN. *)
Lemma fromFloat_is_nearest t x :
  t <> Float -> fromFloat t x = nearest t x.
Proof.
  intros Ht. unfold fromFloat, nearest, clamp.
  destruct t; [| |congruence]; cbn [stored].
  - rewrite (proj1 lowest_values). cbn [sample_size stored sizeof width numeric_min numeric_max].
    destruct (decode x) as [s | s | | s m e] eqn:Hx.
    + destruct s; reflexivity.
    + destruct s; reflexivity.
    + reflexivity.
    + apply decode_finite in Hx as (Hd & He & _).
      apply (sample_of_finite 15); [left; reflexivity | exact Hd | lia].
  - rewrite (proj2 lowest_values). cbn [sample_size stored sizeof width numeric_min numeric_max].
    destruct (decode x) as [s | s | | s m e] eqn:Hx.
    + destruct s; reflexivity.
    + destruct s; reflexivity.
    + reflexivity.
    + apply decode_finite in Hx as (Hd & He & _).
      apply (sample_of_finite 31); [right; reflexivity | exact Hd | lia].
Qed.

(** The bits of a float of a full mantissa hold the float. *)
Lemma decode_encode s m e :
  Z.pos (digits2_pos m) = 24 -> -149 <= e <= 104 ->
  decode (encode (S754_finite s m e)) = S754_finite s m e.
Proof.
  intros Hd He. pose proof (digits2_pos_bounds m) as Hm. rewrite Hd in Hm.
  change (2 ^ (24 - 1)) with 8388608 in Hm. change (2 ^ 24) with 16777216 in Hm.
  unfold encode. change (2 ^ 23) with 8388608. change (2 ^ 31) with 2147483648.
  destruct (Z.ltb_spec (Z.pos m) 8388608) as [|_]; [lia|].
  set (b := if s then 1 else 0).
  assert (0 <= b <= 1) as Hb by (unfold b; destruct s; lia).
  replace ((if s then 2147483648 else 0) + (e + 150) * 8388608 + (Z.pos m - 8388608))
    with ((b * 256 + (e + 150)) * 8388608 + (Z.pos m - 8388608))
    by (unfold b; destruct s; lia).
  set (N := (b * 256 + (e + 150)) * 8388608 + (Z.pos m - 8388608)).
  assert (Z.shiftr N 23 mod 256 = e + 150) as Hex.
  { rewrite Z.shiftr_div_pow2 by lia. change (2 ^ 23) with 8388608.
    replace (N / 8388608) with (b * 256 + (e + 150))
      by (apply Z.div_unique with (r := Z.pos m - 8388608); unfold N; lia).
    symmetry. apply Z.mod_unique with (q := b); lia. }
  assert (N mod 2 ^ 23 = Z.pos m - 8388608) as Hmx.
  { change (2 ^ 23) with 8388608. symmetry.
    apply Z.mod_unique with (q := b * 256 + (e + 150)); unfold N; lia. }
  assert (Z.testbit N 31 = s) as Hs.
  { rewrite Z.testbit_odd, Z.shiftr_div_pow2 by lia. change (2 ^ 31) with 2147483648.
    replace (N / 2147483648) with b
      by (apply Z.div_unique with (r := (e + 150) * 8388608 + (Z.pos m - 8388608));
          unfold N; lia).
    unfold b. destruct s; reflexivity. }
  unfold decode. rewrite Hex, Hmx, Hs.
  destruct (Z.eqb_spec (e + 150) 0) as [|_]; [lia|].
  destruct (Z.eqb_spec (e + 150) 255) as [|_]; [lia|].
  change (2 ^ 23) with 8388608.
  replace (Z.pos m - 8388608 + 8388608) with (Z.pos m) by lia.
  f_equal. lia.
Qed.

(** The factor of [toFloat] is 2^-15 for 16-bit samples and 2^-31 for
    32-bit ones. *)
Lemma scale_values :
  scale int16_t = S754_finite false 8388608 (-38)
  /\ scale int32_t = S754_finite false 8388608 (-54).
Proof. vm_compute. split; reflexivity. Qed.

Lemma round_mag_normal p :
  Z.pos p < 2 ^ 24 ->
  round_mag (shl p (24 - Z.pos (digits2_pos p))) (Z.pos (digits2_pos p) - 24) = Z.pos p.
Proof.
  intros Hp. pose proof (digits2_pos_le p 24 ltac:(lia) Hp) as Hd.
  assert (round_mag p 0 = Z.pos p) as H0
    by (unfold round_mag; rewrite Z.leb_refl, Z.pow_0_r, Z.mul_1_r; reflexivity).
  destruct (Z.eq_dec (Z.pos (digits2_pos p)) 24) as [E | E].
  - rewrite E. exact H0.
  - replace (Z.pos (digits2_pos p) - 24) with (0 - (24 - Z.pos (digits2_pos p))) by lia.
    rewrite round_mag_shl by lia. exact H0.
Qed.

(** A sample of less than 25 bits: its float is the sample times
    2^-(width-1), exactly, and [fromFloat] finds the sample in it. *)
Lemma sample_there_and_back t k s p :
  (t = Int16 /\ k = 15) \/ (t = Int32 /\ k = 31) ->
  Z.pos p < 2 ^ 24 ->
  decode (toFloat t (cond_Zopp s (Z.pos p)))
  = binary_round Single.prec Single.emax s p (- k)
  /\ fromFloat t (toFloat t (cond_Zopp s (Z.pos p)))
     = Some (clamp (stored t) (cond_Zopp s (Z.pos p))).
Proof.
  intros Hk Hp. pose proof (digits2_pos_le p 24 ltac:(lia) Hp) as Hd.
  pose proof (Pos2Z.is_pos (digits2_pos p)) as Hd0.
  assert (Single.of_int (cond_Zopp s (Z.pos p)) = normal s p) as Hof
    by (destruct s; [apply of_int_neg | apply of_int_pos]; exact Hp).
  assert (decode (toFloat t (cond_Zopp s (Z.pos p)))
          = S754_finite s (shl p (24 - Z.pos (digits2_pos p)))
              (Z.pos (digits2_pos p) - 24 - k)) as Hdec.
  { assert (scale (stored t) = S754_finite false 8388608 (- 23 - k)) as Hsc
      by (destruct Hk as [[-> ->] | [-> ->]]; [apply scale_values | apply scale_values]).
    assert (toFloat t (cond_Zopp s (Z.pos p))
            = encode (Single.mul (scale (stored t)) (Single.of_int (cond_Zopp s (Z.pos p))))) as ->
      by (destruct Hk as [[-> ->] | [-> ->]]; reflexivity).
    rewrite Hsc, Hof. unfold normal.
    rewrite mul_pow2 by (try apply normal_digits; try exact Hp; lia).
    replace (Z.pos (digits2_pos p) - 24 + (- 23 - k) + 23)
      with (Z.pos (digits2_pos p) - 24 - k) by lia.
    apply decode_encode; [apply normal_digits; exact Hp | lia]. }
  split.
  - rewrite Hdec, round_exact by lia. cbv zeta.
    replace (Z.max (Z.pos (digits2_pos p) + - k - 24) (-149))
      with (Z.pos (digits2_pos p) - 24 - k) by lia.
    destruct (Z.leb_spec (Z.pos (digits2_pos p) - 24 - k) 104); [|lia].
    do 2 f_equal. lia.
  - rewrite fromFloat_is_nearest by (destruct Hk as [[-> _] | [-> _]]; discriminate).
    unfold nearest. rewrite Hdec.
    replace (Z.pos (digits2_pos p) - 24 - k + (width (stored t) - 1))
      with (Z.pos (digits2_pos p) - 24)
      by (destruct Hk as [[-> ->] | [-> ->]]; unfold width; cbn [stored sizeof]; lia).
    rewrite round_mag_normal by exact Hp. reflexivity.
Qed.

Lemma clamp_representable t v : representable t v -> clamp t v = v.
Proof. unfold representable, clamp. lia. Qed.

Lemma clamp_bounds t v : representable t (clamp t v).
Proof. unfold representable, clamp. destruct t; cbn [numeric_min numeric_max]; lia. Qed.

Lemma signed_magnitude x :
  x <> 0 -> exists s p, x = cond_Zopp s (Z.pos p) /\ Z.pos p = Z.abs x.
Proof.
  destruct x as [|p|p]; [congruence| |]; intros _.
  - exists false, p. split; reflexivity.
  - exists true, p. split; reflexivity.
Qed.

End SampleFacts.

Module SampleClaims.

Import Binary64 BinaryFacts Single CommandLine SampleSpec SingleFacts SampleFacts.

(** X10: 16-bit samples survive the tool: [toFloat] turns the sample [x]
    into the float [x / 32768], exactly, and [fromFloat] turns that float
    back into [x]. *)
Theorem int16_sample_round_trip x :
  representable int16_t x ->
  decode (toFloat Int16 x) = binary_normalize prec emax x (-15) false
  /\ fromFloat Int16 (toFloat Int16 x) = Some x.
Proof.
  intros Hx. pose proof Hx as [Hlo Hhi].
  change (numeric_min int16_t) with (-32768) in Hlo.
  change (numeric_max int16_t) with 32767 in Hhi.
  destruct (Z.eq_dec x 0) as [-> | Hx0]; [vm_compute; split; reflexivity|].
  destruct (signed_magnitude x Hx0) as (s & p & -> & Hp).
  assert (Z.pos p < 2 ^ 24) as Hp24 by (change (2 ^ 24) with 16777216; lia).
  destruct (sample_there_and_back Int16 15 s p ltac:(left; split; reflexivity) Hp24)
    as [Hto Hfrom].
  split.
  - rewrite Hto. destruct s; reflexivity.
  - rewrite Hfrom. f_equal. apply (clamp_representable int16_t), Hx.
Qed.

Lemma int16_sample_round_trip_witness :
  decode (toFloat Int16 (-12345)) = binary_normalize prec emax (-12345) (-15) false
  /\ fromFloat Int16 (toFloat Int16 (-12345)) = Some (-12345).
Proof.
  apply (int16_sample_round_trip (-12345)). unfold representable. cbn. lia.
Defined.

(** X17: [fromFloat] to a 16-bit or a 32-bit sample gives, for every
    float that is not a NaN, the sample nearest to the float times
    2^(width-1): that product to the nearest integer, halves away from
    zero, and from there to the nearest end of the sample's range when it
    is beyond it (so an infinity gives the lowest or the highest sample). *)
Theorem fromFloat_rounds_and_clamps t x :
  t <> Float -> fromFloat t x = nearest t x.
Proof. intros Ht. apply fromFloat_is_nearest, Ht. Qed.

Lemma fromFloat_rounds_and_clamps_witness :
  fromFloat Int16 0x3f000000 = nearest Int16 0x3f000000.
Proof. apply (fromFloat_rounds_and_clamps Int16 0x3f000000). discriminate. Defined.

(** The float 0.5 is the 16-bit sample 16384, and -1.5 is the lowest one. *)
Example fromFloat_half :
  fromFloat Int16 0x3f000000 = Some 16384
  /\ fromFloat Int16 0xbfc00000 = Some (-32768)
  /\ fromFloat Int32 0x3f800000 = Some 2147483647.
Proof. vm_compute. repeat split; reflexivity. Qed.

(** X18: the cast that closes [fromFloat] is undefined for a NaN and for
    nothing else, and the sample that comes back for any other float is
    a value of the sample type. *)
Theorem fromFloat_undefined_only_for_nan t x :
  t <> Float ->
  (fromFloat t x = None <-> decode x = S754_nan)
  /\ (forall v, fromFloat t x = Some v -> representable (stored t) v).
Proof.
  intros Ht. rewrite (fromFloat_is_nearest t x Ht). unfold nearest.
  destruct (decode x) as [s | s | | s m e]; split;
    try (split; [discriminate | discriminate]);
    try (split; reflexivity);
    try discriminate;
    intros v [= <-].
  - unfold representable. destruct t; cbn [stored numeric_min numeric_max]; [lia | lia | congruence].
  - unfold representable.
    destruct t, s; cbn [stored numeric_min numeric_max]; try lia; congruence.
  - apply clamp_bounds.
Qed.

Lemma fromFloat_undefined_only_for_nan_witness :
  (fromFloat Int32 0x7fc00000 = None <-> decode 0x7fc00000 = S754_nan)
  /\ (forall v, fromFloat Int32 0x7fc00000 = Some v -> representable (stored Int32) v).
Proof. apply (fromFloat_undefined_only_for_nan Int32 0x7fc00000). discriminate. Defined.

(** X19: 32-bit samples of less than 25 bits survive the tool as the
    16-bit ones do: [toFloat] turns the sample [x] into the float
    [x / 2^31], exactly, and [fromFloat] turns that float back into [x]. *)
Theorem int32_sample_round_trip x :
  Z.abs x < 2 ^ 24 ->
  decode (toFloat Int32 x) = binary_normalize prec emax x (-31) false
  /\ fromFloat Int32 (toFloat Int32 x) = Some x.
Proof.
  intros Hx. change (2 ^ 24) with 16777216 in Hx.
  destruct (Z.eq_dec x 0) as [-> | Hx0]; [vm_compute; split; reflexivity|].
  destruct (signed_magnitude x Hx0) as (s & p & -> & Hp).
  assert (Z.pos p < 2 ^ 24) as Hp24 by (change (2 ^ 24) with 16777216; lia).
  destruct (sample_there_and_back Int32 31 s p ltac:(right; split; reflexivity) Hp24)
    as [Hto Hfrom].
  split.
  - rewrite Hto. destruct s; reflexivity.
  - rewrite Hfrom. f_equal. apply (clamp_representable int32_t).
    unfold representable. cbn [numeric_min numeric_max]. lia.
Qed.

Lemma int32_sample_round_trip_witness :
  decode (toFloat Int32 (-1234567)) = binary_normalize prec emax (-1234567) (-31) false
  /\ fromFloat Int32 (toFloat Int32 (-1234567)) = Some (-1234567).
Proof. apply (int32_sample_round_trip (-1234567)). cbn. lia. Defined.

(** A 32-bit sample of 25 bits may come back as another one. *)
Example int32_sample_not_kept :
  fromFloat Int32 (toFloat Int32 16777217) = Some 16777216.
Proof. vm_compute. reflexivity. Qed.

End SampleClaims.

(** ** The audio buffers of [Processor] *)

Module BufferClaims.

Import CommandLine Single ProcessorSpec CodecFacts WindowFacts IntFacts.

Lemma fits32_small_product c n stride :
  0 <= c < n -> 0 <= stride -> stride * n <= INT_MAX ->
  0 <= c * stride /\ c * stride + stride <= INT_MAX.
Proof.
  intros Hc Hs Hn. destruct (channel_within c n stride Hc Hs). lia.
Qed.

(** One channel of [getInputAudio]. *)
Lemma getInputAudio_channel (p : Processor) out stride position_ length_ c :
  0 <= c < channelCount p ->
  0 <= length_ <= stride -> stride * channelCount p <= INT_MAX ->
  stride * channelCount p <= Z.of_nat (length out) ->
  0 <= inputFrameCount p <= inputChannelStride p ->
  inputChannelStride p * channelCount p <= INT_MAX ->
  inputChannelStride p * channelCount p <= Z.of_nat (length (inputBuffer p)) ->
  fits32 position_ -> fits32 (position_ + length_) ->
  exists out',
    loop length_
      (fun out i =>
         if (0 <=? add32 position_ i) && (add32 position_ i <? inputFrameCount p) then
           v <- get (inputBuffer p)
                  (add32 (add32 (mul32 c (inputChannelStride p)) position_) i) ;;
           set out (add32 (mul32 c stride) i) v
         else set out (add32 (mul32 c stride) i) 0)
      out = Some out'
    /\ length out' = length out
    /\ forall j,
         get out' j
         = if (c * stride <=? j) && (j <? c * stride + length_) then
             if (0 <=? position_ + (j - c * stride))
                && (position_ + (j - c * stride) <? inputFrameCount p)
             then get (inputBuffer p)
                    (c * inputChannelStride p + position_ + (j - c * stride))
             else Some 0
           else get out j.
Proof.
  intros Hc Hlen Hs Hout Hifc Hics Hib Hp Hpl.
  destruct (fits32_small_product c _ stride Hc ltac:(lia) Hs) as [Hc0 Hc1].
  destruct (fits32_small_product c _ (inputChannelStride p) Hc ltac:(lia) Hics) as [Hi0 Hi1].
  destruct (channel_within c (channelCount p) stride Hc ltac:(lia)) as [_ Hcw].
  destruct (channel_within c (channelCount p) (inputChannelStride p) Hc ltac:(lia))
    as [_ Hiw].
  apply (proj1 (fits32_bounds _)) in Hp, Hpl.
  assert (HM : INT_MAX = 2147483647) by reflexivity.
  apply (for_invariant
           (fun n out' =>
              length out' = length out
              /\ forall j,
                   get out' j
                   = if (c * stride <=? j) && (j <? c * stride + n) then
                       if (0 <=? position_ + (j - c * stride))
                          && (position_ + (j - c * stride) <? inputFrameCount p)
                       then get (inputBuffer p)
                              (c * inputChannelStride p + position_ + (j - c * stride))
                       else Some 0
                     else get out j)); [lia| |].
  - split; [reflexivity|]. intros j.
    destruct (Z.leb_spec (c * stride) j), (Z.ltb_spec j (c * stride + 0)); cbn [andb];
      try reflexivity; lia.
  - intros i st Hi (Hl & Hcells).
    assert (add32 position_ i = position_ + i) as ->
      by (apply int32_id, fits32_bounds; lia).
    assert (add32 (mul32 c stride) i = c * stride + i) as ->
      by (unfold add32, mul32; rewrite (int32_id (c * stride)) by (apply fits32_bounds; lia);
          apply int32_id, fits32_bounds; lia).
    assert (exists v,
              (if (0 <=? position_ + i) && (position_ + i <? inputFrameCount p)
               then get (inputBuffer p)
                      (add32 (add32 (mul32 c (inputChannelStride p)) position_) i)
               else Some 0) = Some v
              /\ (if (0 <=? position_ + i) && (position_ + i <? inputFrameCount p)
                  then get (inputBuffer p) (c * inputChannelStride p + position_ + i)
                  else Some 0) = Some v) as (v & Hv & Hv').
    { destruct (Z.leb_spec 0 (position_ + i)), (Z.ltb_spec (position_ + i) (inputFrameCount p));
        cbn [andb]; eauto.
      unfold add32, mul32.
      rewrite (int32_id (c * inputChannelStride p)) by (apply fits32_bounds; lia).
      rewrite int32_add_l.
      rewrite (int32_id (c * inputChannelStride p + position_ + i))
        by (apply fits32_bounds; lia).
      destruct (get_in_bounds (inputBuffer p) (c * inputChannelStride p + position_ + i)
                  ltac:(lia)) as (v & Hv). eauto. }
    destruct (set_in_bounds st (c * stride + i) v ltac:(lia)) as (st' & Hset).
    exists st'. split.
    + destruct ((0 <=? position_ + i) && (position_ + i <? inputFrameCount p)).
      * rewrite Hv. cbn [bind]. exact Hset.
      * injection Hv as <-. exact Hset.
    + apply set_some in Hset as (_ & Hl' & Hget). split; [congruence|].
      intros j. rewrite Hget, Hcells.
      destruct (Z.eqb_spec j (c * stride + i)) as [-> | Hne].
      * destruct (Z.leb_spec (c * stride) (c * stride + i)),
          (Z.ltb_spec (c * stride + i) (c * stride + (i + 1))); cbn [andb]; try lia.
        replace (c * stride + i - c * stride) with i by lia. symmetry. exact Hv'.
      * destruct (Z.leb_spec (c * stride) j), (Z.ltb_spec j (c * stride + i)),
          (Z.ltb_spec j (c * stride + (i + 1))); cbn [andb]; try reflexivity; lia.
Qed.

(** X11: [getInputAudio] fills the first [length] frames of every channel
    of the caller's array with the frames [position, position + length)
    of the track, writing silence for the frames before the start and
    after the end of the track; it reads nothing outside [inputBuffer]
    and leaves the rest of the caller's array as it was. *)
Theorem getInputAudio_pads (p : Processor) out stride position_ length_ :
  0 <= length_ <= stride -> 0 <= channelCount p ->
  stride * channelCount p <= INT_MAX ->
  stride * channelCount p <= Z.of_nat (length out) ->
  0 <= inputFrameCount p <= inputChannelStride p ->
  inputChannelStride p * channelCount p <= INT_MAX ->
  inputChannelStride p * channelCount p <= Z.of_nat (length (inputBuffer p)) ->
  fits32 position_ -> fits32 (position_ + length_) ->
  exists out',
    getInputAudio p out stride position_ length_ = Some out'
    /\ length out' = length out
    /\ forall c i,
         0 <= c < channelCount p -> 0 <= i < stride ->
         get out' (c * stride + i)
         = if i <? length_ then
             if (0 <=? position_ + i) && (position_ + i <? inputFrameCount p)
             then get (inputBuffer p) (c * inputChannelStride p + position_ + i)
             else Some 0
           else get out (c * stride + i).
Proof.
  intros Hlen Hcc Hs Hout Hifc Hics Hib Hp Hpl. unfold getInputAudio.
  destruct (for_invariant
              (fun n out' =>
                 length out' = length out
                 /\ forall c i,
                      0 <= c -> 0 <= i < stride ->
                      get out' (c * stride + i)
                      = if (c <? n) && (i <? length_) then
                          if (0 <=? position_ + i) && (position_ + i <? inputFrameCount p)
                          then get (inputBuffer p)
                                 (c * inputChannelStride p + position_ + i)
                          else Some 0
                        else get out (c * stride + i))
              (channelCount p)
              (fun out c =>
                 loop length_
                   (fun out i =>
                      if (0 <=? add32 position_ i)
                         && (add32 position_ i <? inputFrameCount p)
                      then
                        v <- get (inputBuffer p)
                               (add32 (add32 (mul32 c (inputChannelStride p)) position_) i) ;;
                        set out (add32 (mul32 c stride) i) v
                      else set out (add32 (mul32 c stride) i) 0)
                   out)
              out Hcc) as (out' & Hrun & Hl & Hcells).
  - split; [reflexivity|]. intros c i Hc Hi.
    destruct (Z.ltb_spec c 0); [lia | reflexivity].
  - intros c st Hc (Hl & Hcells).
    destruct (getInputAudio_channel p st stride position_ length_ c Hc Hlen Hs
                ltac:(rewrite Hl; exact Hout) Hifc Hics Hib Hp Hpl)
      as (st' & Hrun & Hl' & Hch).
    exists st'. split; [exact Hrun|]. split; [congruence|].
    intros c' i Hc' Hi. rewrite Hch.
    destruct (Z.lt_trichotomy c' c) as [Hlt | [-> | Hgt]].
    + pose proof (channel_below c' c stride i ltac:(lia) Hi).
      destruct (Z.leb_spec (c * stride) (c' * stride + i)); [lia|]. cbn [andb].
      rewrite Hcells by lia.
      destruct (Z.ltb_spec c' c), (Z.ltb_spec c' (c + 1)); try lia. reflexivity.
    + replace (c * stride + i - c * stride) with i by lia.
      destruct (Z.leb_spec (c * stride) (c * stride + i)); [|lia].
      destruct (Z.ltb_spec (c * stride + i) (c * stride + length_)),
        (Z.ltb_spec i length_), (Z.ltb_spec c (c + 1)); cbn [andb]; try lia.
      * reflexivity.
      * rewrite Hcells by lia. destruct (Z.ltb_spec c c); [lia | reflexivity].
    + pose proof (channel_above c' c stride i ltac:(lia) ltac:(lia) ltac:(lia)).
      destruct (Z.ltb_spec (c' * stride + i) (c * stride + length_)); [lia|].
      rewrite andb_false_r. rewrite Hcells by lia.
      destruct (Z.ltb_spec c' c), (Z.ltb_spec c' (c + 1)); try lia. reflexivity.
  - exists out'. split; [exact Hrun|]. split; [exact Hl|].
    intros c i Hc Hi. rewrite Hcells by lia.
    destruct (Z.ltb_spec c (channelCount p)); [|lia]. reflexivity.
Qed.

Lemma read_in_bounds t data at_ :
  0 <= at_ -> at_ + sizeof t <= Z.of_nat (length data) ->
  exists v, read t data at_ = Some v.
Proof.
  intros Hat Hlen. apply read_defined. intros j Hj. apply get_in_bounds. lia.
Qed.

Lemma sample_size_pos t : 0 < sample_size t.
Proof. destruct t; cbn; lia. Qed.

(** Sample [c] of frame [i] lies within the [n] frames of [cc] samples. *)
Lemma interleaved_within i c n cc size :
  0 <= i < n -> 0 <= c < cc -> 0 < size ->
  0 <= i * cc + c /\ (i * cc + c) * size + size <= n * cc * size
  /\ i * cc + c < n * cc.
Proof.
  intros Hi Hc Hs.
  assert (0 <= i * cc) by nia.
  assert ((i + 1) * cc <= n * cc) by nia.
  assert (i * cc + c + 1 <= n * cc) by lia.
  assert ((i * cc + c + 1) * size <= n * cc * size) by nia.
  lia.
Qed.

(** One frame of [readInputAudio]. *)
Lemma readInputAudio_frame t (p : Processor) buf i :
  0 <= i < inputFrameCount p -> 0 <= channelCount p ->
  inputFrameCount p <= inputChannelStride p ->
  inputChannelStride p * channelCount p <= INT_MAX ->
  inputChannelStride p * channelCount p <= Z.of_nat (length buf) ->
  inputFrameCount p * channelCount p <= INT_MAX ->
  inputFrameCount p * channelCount p * sample_size t <= Z.of_nat (length (wavData p)) ->
  exists buf',
    loop (channelCount (with_inputBuffer p buf))
      (fun p c =>
         x <- read (stored t) (wavData p)
                (add32 (mul32 i (channelCount p)) c * sample_size t) ;;
         buf <- set (inputBuffer p) (add32 (mul32 c (inputChannelStride p)) i)
                  (toFloat t x) ;;
         Some (with_inputBuffer p buf))
      (with_inputBuffer p buf) = Some (with_inputBuffer p buf')
    /\ length buf' = length buf
    /\ forall c' i',
         0 <= c' -> 0 <= i' < inputChannelStride p ->
         get buf' (c' * inputChannelStride p + i')
         = if (i' =? i) && (c' <? channelCount p) then
             x <- read (stored t) (wavData p) ((i * channelCount p + c') * sample_size t) ;;
             Some (toFloat t x)
           else get buf (c' * inputChannelStride p + i').
Proof.
  intros Hi Hcc Hifc Hics Hbuf Hwav Hdata.
  assert (HM : INT_MAX = 2147483647) by reflexivity.
  pose proof (sample_size_pos t) as Hsz.
  destruct (for_invariant
              (fun n st =>
                 exists buf',
                   st = with_inputBuffer p buf'
                   /\ length buf' = length buf
                   /\ forall c' i',
                        0 <= c' -> 0 <= i' < inputChannelStride p ->
                        get buf' (c' * inputChannelStride p + i')
                        = if (i' =? i) && (c' <? n) then
                            x <- read (stored t) (wavData p)
                                   ((i * channelCount p + c') * sample_size t) ;;
                            Some (toFloat t x)
                          else get buf (c' * inputChannelStride p + i'))
              (channelCount (with_inputBuffer p buf))
              (fun p c =>
                 x <- read (stored t) (wavData p)
                        (add32 (mul32 i (channelCount p)) c * sample_size t) ;;
                 buf <- set (inputBuffer p) (add32 (mul32 c (inputChannelStride p)) i)
                          (toFloat t x) ;;
                 Some (with_inputBuffer p buf))
              (with_inputBuffer p buf) Hcc) as (st & Hrun & buf' & -> & Hl & Hcells).
  - exists buf. split; [reflexivity|]. split; [reflexivity|]. intros c' i' Hc' Hi'.
    destruct (Z.ltb_spec c' 0); [lia|]. rewrite andb_false_r. reflexivity.
  - intros c st Hc (buf1 & -> & Hl1 & Hcells1). cbn [channelCount with_inputBuffer] in Hc.
    cbn [wavData channelCount inputChannelStride inputBuffer with_inputBuffer].
    destruct (interleaved_within i c (inputFrameCount p) (channelCount p) (sample_size t)
                Hi Hc Hsz) as (Hk0 & Hk1 & Hk2).
    destruct (fits32_small_product c _ (inputChannelStride p) Hc ltac:(lia) Hics)
      as [Hi0 Hi1].
    destruct (channel_within c (channelCount p) (inputChannelStride p) Hc ltac:(lia))
      as [_ Hiw].
    assert (0 <= i * channelCount p) by nia.
    assert (add32 (mul32 i (channelCount p)) c = i * channelCount p + c) as ->
      by (unfold add32, mul32;
          rewrite (int32_id (i * channelCount p)) by (apply fits32_bounds; lia);
          apply int32_id, fits32_bounds; lia).
    assert (add32 (mul32 c (inputChannelStride p)) i = c * inputChannelStride p + i) as ->
      by (unfold add32, mul32;
          rewrite (int32_id (c * inputChannelStride p)) by (apply fits32_bounds; lia);
          apply int32_id, fits32_bounds; lia).
    destruct (read_in_bounds (stored t) (wavData p)
                ((i * channelCount p + c) * sample_size t))
      as (x & Hx); [nia | unfold sample_size in *; lia|].
    rewrite Hx. cbn [bind].
    destruct (set_in_bounds buf1 (c * inputChannelStride p + i) (toFloat t x) ltac:(lia))
      as (buf2 & Hset).
    rewrite Hset. cbn [bind]. eexists. split; [reflexivity|].
    exists buf2. split; [reflexivity|].
    apply set_some in Hset as (_ & Hl2 & Hget). split; [congruence|].
    intros c' i' Hc' Hi'. rewrite Hget, Hcells1 by assumption.
    destruct (Z.eqb_spec (c' * inputChannelStride p + i') (c * inputChannelStride p + i))
      as [Heq | Hne].
    + assert (c' = c /\ i' = i) as [-> ->].
      { destruct (Z.lt_trichotomy c' c) as [Hlt | [-> | Hgt]].
        - pose proof (channel_below c' c (inputChannelStride p) i' ltac:(lia) Hi'). lia.
        - lia.
        - pose proof (channel_above c' c (inputChannelStride p) i' ltac:(lia)
                        ltac:(lia) ltac:(lia)). lia. }
      rewrite Z.eqb_refl. destruct (Z.ltb_spec c (c + 1)); [|lia]. cbn [andb].
      rewrite Hx. reflexivity.
    + destruct (Z.eqb_spec i' i) as [-> | Hi'']; cbn [andb]; [|reflexivity].
      destruct (Z.ltb_spec c' c), (Z.ltb_spec c' (c + 1)); try lia; try reflexivity.
      assert (c' = c) by lia. subst c'. contradiction Hne. reflexivity.
  - exists buf'. split; [exact Hrun|]. split; [exact Hl|]. exact Hcells.
Qed.

(** X12: [readInputAudio] takes the interleaved samples of [wavData]
    apart: sample [c] of frame [i] of the file becomes, through
    [toFloat], frame [i] of channel [c] of [inputBuffer]; nothing is read
    outside [wavData], nothing else of the processor changes. *)
Theorem readInputAudio_deinterleaves t (p : Processor) :
  0 <= channelCount p -> 0 <= inputFrameCount p <= inputChannelStride p ->
  inputChannelStride p * channelCount p <= INT_MAX ->
  inputChannelStride p * channelCount p <= Z.of_nat (length (inputBuffer p)) ->
  inputFrameCount p * channelCount p * sample_size t <= Z.of_nat (length (wavData p)) ->
  exists buf',
    readInputAudio t p = Some (with_inputBuffer p buf')
    /\ length buf' = length (inputBuffer p)
    /\ forall c i,
         0 <= c < channelCount p -> 0 <= i < inputChannelStride p ->
         get buf' (c * inputChannelStride p + i)
         = if i <? inputFrameCount p then
             x <- read (stored t) (wavData p) ((i * channelCount p + c) * sample_size t) ;;
             Some (toFloat t x)
           else get (inputBuffer p) (c * inputChannelStride p + i).
Proof.
  intros Hcc Hifc Hics Hbuf Hdata.
  assert (inputFrameCount p * channelCount p <= INT_MAX) as Hwav by nia.
  unfold readInputAudio.
  destruct (for_invariant
              (fun n st =>
                 exists buf',
                   st = with_inputBuffer p buf'
                   /\ length buf' = length (inputBuffer p)
                   /\ forall c i,
                        0 <= c < channelCount p -> 0 <= i < inputChannelStride p ->
                        get buf' (c * inputChannelStride p + i)
                        = if i <? n then
                            x <- read (stored t) (wavData p)
                                   ((i * channelCount p + c) * sample_size t) ;;
                            Some (toFloat t x)
                          else get (inputBuffer p) (c * inputChannelStride p + i))
              (inputFrameCount p)
              (fun p i =>
                 loop (channelCount p)
                   (fun p c =>
                      x <- read (stored t) (wavData p)
                             (add32 (mul32 i (channelCount p)) c * sample_size t) ;;
                      buf <- set (inputBuffer p) (add32 (mul32 c (inputChannelStride p)) i)
                               (toFloat t x) ;;
                      Some (with_inputBuffer p buf))
                   p)
              p ltac:(lia)) as (st & Hrun & buf' & -> & Hl & Hcells).
  - exists (inputBuffer p). split; [destruct p; reflexivity|]. split; [reflexivity|].
    intros c i Hc Hi. destruct (Z.ltb_spec i 0); [lia | reflexivity].
  - intros i st Hi (buf1 & -> & Hl1 & Hcells1).
    destruct (readInputAudio_frame t p buf1 i Hi Hcc ltac:(lia) Hics
                ltac:(rewrite Hl1; exact Hbuf) Hwav Hdata) as (buf2 & Hrun & Hl2 & Hcells2).
    eexists. split; [exact Hrun|]. exists buf2. split; [reflexivity|].
    split; [congruence|]. intros c i' Hc Hi'. rewrite Hcells2 by lia.
    destruct (Z.eqb_spec i' i) as [-> | Hne].
    + destruct (Z.ltb_spec c (channelCount p)); [|lia]. cbn [andb].
      destruct (Z.ltb_spec i (i + 1)); [reflexivity | lia].
    + cbn [andb]. rewrite Hcells1 by lia.
      destruct (Z.ltb_spec i' i), (Z.ltb_spec i' (i + 1)); try lia; reflexivity.
  - exists buf'. split; [exact Hrun|]. split; [exact Hl|]. exact Hcells.
Qed.

(** [read] looks at the chars of its value only. *)
Lemma read_ext t data data' at_ :
  (forall j, at_ <= j < at_ + sizeof t -> get data' j = get data j) ->
  read t data' at_ = read t data at_.
Proof.
  intros Hsame. unfold read, loop.
  assert (forall i, In i (upto (sizeof t)) -> 0 <= i < sizeof t) as Hin.
  { intros i Hi. unfold upto in Hi. apply in_map_iff in Hi as (n & <- & Hn).
    apply in_seq in Hn. lia. }
  revert Hin. generalize (Some 0). generalize (upto (sizeof t)).
  intros l. induction l as [|i l IH]; intros acc Hin; cbn [fold_left]; [reflexivity|].
  rewrite (Hsame (at_ + i)) by (specialize (Hin i (or_introl eq_refl)); lia).
  apply IH. intros i' Hi'. apply Hin. right. exact Hi'.
Qed.

Section WithChunkMemory.

Variable audioAt : pointer -> float32.

Lemma sample_index f c f' c' cc :
  0 <= c < cc -> 0 <= c' < cc -> 0 <= f -> 0 <= f' ->
  f' * cc + c' < f * cc + c + 1 ->
  f' * cc + c' < f * cc + c \/ (f' = f /\ c' = c).
Proof.
  intros Hc Hc' Hf Hf' Hlt.
  destruct (Z.lt_trichotomy f' f) as [Hl | [-> | Hg]].
  - left. pose proof (channel_below f' f cc c' ltac:(lia) Hc'). lia.
  - lia.
  - pose proof (channel_above f' f cc c' ltac:(lia) ltac:(lia) ltac:(lia)). lia.
Qed.

Lemma written_step sgn t (p : Processor) chunk limit f c st :
  0 < channelCount p -> 0 <= o p ->
  o p + limit * sample_size t <= Z.of_nat (length (wavData p)) ->
  0 <= f -> 0 <= c < channelCount p -> f * channelCount p + c < limit ->
  (exists v, taken audioAt t chunk f c = Some v /\ representable (stored t) v) ->
  written audioAt t p chunk (f * channelCount p + c) st ->
  exists st',
    (v <- fromFloat t (audioAt (data chunk + int64 (f + int64 (c * channelStride chunk)))) ;;
     bytes <- write sgn (stored t) (wavData st) (o st) v ;;
     Some (with_output st bytes (o st + sample_size t))) = Some st'
    /\ written audioAt t p chunk (f * channelCount p + (c + 1)) st'.
Proof.
  intros Hcc Ho Hroom Hf Hc Hlim (v & Hv & Hrep) (bytes & -> & Hl & Hout & Hread).
  pose proof (sample_size_pos t) as Hsz.
  set (n := f * channelCount p + c) in *.
  assert (0 <= n) by (unfold n; nia).
  assert ((n + 1) * sample_size t <= limit * sample_size t) as Hn1 by nia.
  assert (0 <= n * sample_size t) by nia.
  fold (taken audioAt t chunk f c). rewrite Hv. cbn [bind wavData o with_output].
  destruct (write_then_read sgn (stored t) bytes (o p + n * sample_size t) v
              Hrep ltac:(lia) ltac:(unfold sample_size in *; lia))
    as (bytes' & Hw & Hr & Hl' & Hother).
  rewrite Hw. cbn [bind]. eexists. split; [reflexivity|].
  exists bytes'. split.
  { unfold with_output. cbn. f_equal. unfold n. ring. }
  split; [congruence|]. split.
  - intros j Hj. rewrite Hother by (unfold sample_size in *; lia). apply Hout. lia.
  - intros f' c' Hf' Hc' Hlt.
    destruct (sample_index f c f' c' (channelCount p) Hc Hc' Hf Hf' ltac:(fold n; lia))
      as [Hold | [-> ->]].
    + rewrite <- (Hread f' c' Hf' Hc' Hold). apply read_ext. intros j Hj.
      apply Hother. fold n in Hold. unfold sample_size in *.
      assert (0 <= f' * channelCount p + c') by nia.
      assert ((f' * channelCount p + c' + 1) * sizeof (stored t) <= n * sizeof (stored t))
        by nia.
      lia.
    + fold n. rewrite Hr. symmetry. exact Hv.
Qed.

(** X13: [writeSamples] stores as many whole frames of the chunk as
    [wavData] has room for behind the iterator, channel after channel
    within a frame, each sample through [fromFloat] and [write]; it
    writes nothing before the iterator and nothing past the end of
    [wavData], and reports whether the end has been reached. *)
Theorem writeSamples_interleaves sgn t (p : Processor) chunk :
  0 < channelCount p ->
  0 <= frameCount chunk -> frameCount chunk * channelCount p <= INT_MAX ->
  0 <= o p <= Z.of_nat (length (wavData p)) ->
  Z.of_nat (length (wavData p)) <= INT_MAX ->
  (forall f c,
     0 <= f < frameCount chunk -> 0 <= c < channelCount p ->
     exists v, taken audioAt t chunk f c = Some v /\ representable (stored t) v) ->
  let frames :=
    Z.min (frameCount chunk * channelCount p)
          ((Z.of_nat (length (wavData p)) - o p) / sample_size t)
    / channelCount p in
  exists p',
    writeSamples sgn audioAt t p chunk
    = Some (p', o p' =? Z.of_nat (length (wavData p')))
    /\ written audioAt t p chunk (frames * channelCount p) p'
    /\ 0 <= frames <= frameCount chunk
    /\ o p' <= Z.of_nat (length (wavData p')).
Proof.
  intros Hcc Hfc Hprod Ho Hlen Haudio frames.
  assert (HM : INT_MAX = 2147483647) by reflexivity.
  pose proof (sample_size_pos t) as Hsz.
  set (len := Z.of_nat (length (wavData p))) in *.
  set (room := (len - o p) / sample_size t) in *.
  assert (0 <= room /\ room * sample_size t <= len - o p /\ room <= len - o p)
    as (Hroom0 & Hroom1 & Hroom2).
  { unfold room. split; [apply Z.div_pos; lia|]. split.
    - rewrite Z.mul_comm. apply Z.mul_div_le. lia.
    - apply Z.div_le_upper_bound; [lia|]. nia. }
  assert (0 <= frameCount chunk * channelCount p) as Hprod0 by nia.
  set (count := Z.min (frameCount chunk * channelCount p) room) in *.
  assert (0 <= frames /\ frames * channelCount p <= count /\ frames <= frameCount chunk)
    as (Hf0 & Hf1 & Hf2).
  { unfold frames. split; [apply Z.div_pos; lia|]. split.
    - rewrite Z.mul_comm. apply Z.mul_div_le. lia.
    - apply Z.div_le_upper_bound; [lia|]. unfold count. nia. }
  assert (o p + frames * channelCount p * sample_size t <= len) as Hfits by nia.
  unfold writeSamples. fold len.
  unfold mul32. rewrite (int32_id (frameCount chunk * channelCount p))
    by (apply fits32_bounds; lia).
  rewrite (Z.mod_small (len - o p)) by (change (2 ^ 64) with 18446744073709551616; lia).
  fold room. rewrite (int32_id room) by (apply fits32_bounds; lia). fold count.
  destruct (Z.eqb_spec (channelCount p) 0); [lia|].
  rewrite Z.quot_div_nonneg by lia. fold frames.
  destruct (for_invariant
              (fun f st => written audioAt t p chunk (f * channelCount p) st)
              frames
              (fun p f =>
                 loop (channelCount p)
                   (fun p c =>
                      v <- fromFloat t
                             (audioAt (data chunk
                                       + int64 (f + int64 (c * channelStride chunk)))) ;;
                      bytes <- write sgn (stored t) (wavData p) (o p) v ;;
                      Some (with_output p bytes (o p + sample_size t)))
                   p)
              p Hf0) as (p' & Hrun & Hwritten).
  - exists (wavData p). split; [destruct p; unfold with_output; cbn; f_equal; lia|].
    split; [reflexivity|]. split; [reflexivity|]. intros f c Hf Hc Hlt. nia.
  - intros f st Hf Hst.
    assert (channelCount st = channelCount p) as Hccst
      by (destruct Hst as (bytes & -> & _); reflexivity).
    rewrite Hccst.
    destruct (for_invariant
                (fun c st' => written audioAt t p chunk (f * channelCount p + c) st')
                (channelCount p)
                (fun p c =>
                   v <- fromFloat t
                          (audioAt (data chunk
                                    + int64 (f + int64 (c * channelStride chunk)))) ;;
                   bytes <- write sgn (stored t) (wavData p) (o p) v ;;
                   Some (with_output p bytes (o p + sample_size t)))
                st ltac:(lia)) as (st' & Hinner & Hst').
    + rewrite Z.add_0_r. exact Hst.
    + intros c st1 Hc Hst1.
      apply (written_step sgn t p chunk (frames * channelCount p) f c st1);
        try assumption; try lia.
      * pose proof (channel_below f frames (channelCount p) c ltac:(lia) Hc). lia.
      * apply Haudio; lia.
    + exists st'. split; [exact Hinner|].
      replace ((f + 1) * channelCount p) with (f * channelCount p + channelCount p) by ring.
      exact Hst'.
  - exists p'. rewrite Hrun. cbn [bind].
    destruct Hwritten as (bytes & Hp' & Hl & Hrest).
    assert (o p' = o p + frames * channelCount p * sample_size t) as Ho'
      by (rewrite Hp'; reflexivity).
    assert (length (wavData p') = length (wavData p)) as Hl'
      by (rewrite Hp'; exact Hl).
    rewrite Hl'. fold len. split; [reflexivity|].
    split; [exists bytes; auto|]. split; lia.
Qed.

End WithChunkMemory.

End BufferClaims.

(** ** What [Processor] writes *)

Module OutputClaims.

Import CommandLine Single ProcessorSpec CodecFacts BufferClaims Binary64 BinaryFacts.

(** The rounded opposite of a number that is not negative is not positive. *)
Lemma to_int_round_opp (x : double) :
  (0 <=? x)%float = true -> to_int (Double.round (- x)) <= 0.
Proof.
  rewrite FloatAxioms.leb_spec. change (Prim2SF 0) with (S754_zero false).
  intros Hle. unfold to_int. rewrite Prim2SF_round, FloatAxioms.opp_spec.
  assert (INT_MIN <= 0) by (unfold INT_MIN; lia).
  destruct (Prim2SF x) as [s | s | | s m e]; cbn [SFopp]; try lia.
  destruct s; [discriminate Hle|]. cbn [negb].
  assert (forall m' e', (let k := floor_mag m' e' in
                         let v := - k in
                         if (INT_MIN <=? v) && (v <=? INT_MAX) then v else INT_MIN) <= 0)
    as Hneg.
  { intros m' e'. cbv zeta.
    assert (0 <= floor_mag m' e').
    { unfold floor_mag. destruct (Z.leb_spec 0 e').
      - apply Z.mul_nonneg_nonneg; [lia | apply Z.pow_nonneg; lia].
      - apply Z.div_pos; [lia | apply Z.pow_pos_nonneg; lia]. }
    destruct ((INT_MIN <=? - floor_mag m' e') && (- floor_mag m' e' <=? INT_MAX)); lia. }
  destruct (0 <=? e); [apply Hneg|].
  destruct (round_mag m e) as [|k|k]; try lia. unfold SF_of_pos. apply Hneg.
Qed.

Lemma to_int_round_zero (s : bool) (x : double) :
  Prim2SF x = S754_zero s -> to_int (Double.round x) = 0.
Proof. intros Hx. unfold to_int. rewrite Prim2SF_round, Hx. reflexivity. Qed.

Section WithChunkMemory.

Variable audioAt : pointer -> float32.
Variable requestAt : pointer -> Request.

(** X14: [Processor::write] leaves the file alone for a chunk whose first
    position is NaN (a flushing grain) or equal to its last; in forward
    playback it writes the whole chunk when the chunk begins at or after
    the start of the track (and the frames per input frame are a finite
    number). *)
Theorem writeOutput_from_start sgn (p : Processor) chunk :
  let positionBegin := position (requestAt (request_begin chunk)) in
  let positionEnd := position (requestAt (request_end chunk)) in
  (is_nan positionBegin = true \/ (positionBegin =? positionEnd)%float = true ->
   writeOutput sgn audioAt requestAt p chunk = Some (p, false))
  /\ (is_nan positionBegin = false -> (positionBegin =? positionEnd)%float = false ->
      (speed (requestAt (request_begin chunk)) <? 0)%float = false ->
      (0 <=? positionBegin)%float = true ->
      is_finite (Double.of_int (frameCount chunk) / abs (positionEnd - positionBegin)) = true ->
      0 < frameCount chunk -> fits32 (frameCount chunk) ->
      writeOutput sgn audioAt requestAt p chunk = writeChunk sgn audioAt p chunk).
Proof.
  intros pb pe. unfold writeOutput. fold pb pe. split.
  - intros [-> | ->]; [reflexivity|]. rewrite andb_false_r. reflexivity.
  - intros -> -> -> Hpos Hfin Hfc Hfits. cbn [negb andb].
    pose proof (to_int_round_opp pb Hpos) as Hneg.
    rewrite Z.max_l by lia.
    assert (exists sz, Prim2SF (Double.of_int 0
                                * (Double.of_int (frameCount chunk) / abs (pe - pb)))
                       = S754_zero sz) as [sz Hz].
    { rewrite FloatAxioms.mul_spec. change (Prim2SF (Double.of_int 0)) with (S754_zero false).
      apply is_finite_spec in Hfin as [sr [-> | (m & e & ->)]]; cbn; eauto. }
    rewrite (to_int_round_zero sz _ Hz).
    destruct (Z.ltb_spec 0 (frameCount chunk)); [|lia].
    rewrite Z.add_0_r. unfold sub32. rewrite Z.sub_0_r, (int32_id _ Hfits).
    destruct chunk; reflexivity.
Qed.

End WithChunkMemory.

(** X15: the file that [writeOutputFile] writes is the header followed by
    the audio data, and the header announces them: four bytes in, the
    size of the file less eight; at 24 and 28 the output rate and the
    bytes per second; in its last four bytes the size of the audio data.
    The rest of the header is as it was read. *)
Theorem writeOutputFile_header sgn (p : Processor) :
  36 <= Z.of_nat (length (wavHeader p)) ->
  let size := Z.of_nat (length (wavHeader p)) in
  let audio := Z.of_nat (length (wavData p)) in
  exists p' bytes,
    writeOutputFile sgn p = Some (p', bytes)
    /\ bytes = wavHeader p' ++ wavData p
    /\ wavData p' = wavData p
    /\ length (wavHeader p') = length (wavHeader p)
    /\ read uint32_t (wavHeader p') 4 = Some ((size + audio - 8) mod 2 ^ 32)
    /\ read uint32_t (wavHeader p') 24 = Some (output (sampleRates p) mod 2 ^ 32)
    /\ read uint32_t (wavHeader p') 28
       = Some (div32 (mul32 (mul32 (output (sampleRates p)) (channelCount p))
                        (bitsPerSample p)) 8 mod 2 ^ 32)
    /\ read uint32_t (wavHeader p') (size - 4) = Some (audio mod 2 ^ 32)
    /\ forall j,
         ~ 4 <= j < 8 -> ~ 24 <= j < 32 -> ~ size - 4 <= j < size ->
         get (wavHeader p') j = get (wavHeader p) j.
Proof.
  intros Hsize size audio. unfold writeOutputFile. fold size audio.
  assert (forall z, representable uint32_t (convert uint32_t z)) as Hrep
    by (intros z; apply convert_representable).
  destruct (write_then_read sgn uint32_t (wavHeader p) 4
              (convert uint32_t (size + audio - 8)) (Hrep _) ltac:(lia)
              ltac:(cbn; fold size; lia)) as (h1 & Hw1 & Hr1 & Hl1 & Ho1).
  rewrite Hw1. cbn [bind].
  destruct (write_then_read sgn uint32_t h1 24
              (convert uint32_t (output (sampleRates p))) (Hrep _) ltac:(lia)
              ltac:(cbn; rewrite Hl1; fold size; lia)) as (h2 & Hw2 & Hr2 & Hl2 & Ho2).
  rewrite Hw2. cbn [bind].
  destruct (write_then_read sgn uint32_t h2 28
              (convert uint32_t
                 (div32 (mul32 (mul32 (output (sampleRates p)) (channelCount p))
                           (bitsPerSample p)) 8)) (Hrep _) ltac:(lia)
              ltac:(cbn; rewrite Hl2, Hl1; fold size; lia)) as (h3 & Hw3 & Hr3 & Hl3 & Ho3).
  rewrite Hw3. cbn [bind].
  destruct (write_then_read sgn uint32_t h3 (size - 4)
              (convert uint32_t audio) (Hrep _) ltac:(lia)
              ltac:(cbn; rewrite Hl3, Hl2, Hl1; fold size; lia))
    as (h4 & Hw4 & Hr4 & Hl4 & Ho4).
  rewrite Hw4. cbn [bind]. cbn [sizeof] in Ho1, Ho2, Ho3, Ho4.
  eexists. eexists. split; [reflexivity|]. cbn [wavHeader wavData].
  split; [reflexivity|]. split; [reflexivity|]. split; [congruence|].
  split; [|split; [|split; [|split]]].
  - transitivity (read uint32_t h1 4); [|exact Hr1].
    transitivity (read uint32_t h3 4);
      [|transitivity (read uint32_t h2 4)];
      apply read_ext; intros j Hj; cbn [sizeof] in Hj;
      [apply Ho4 | apply Ho3 | apply Ho2]; lia.
  - transitivity (read uint32_t h2 24); [|exact Hr2].
    transitivity (read uint32_t h3 24);
      apply read_ext; intros j Hj; cbn [sizeof] in Hj; [apply Ho4 | apply Ho3]; lia.
  - transitivity (read uint32_t h3 28); [|exact Hr3].
    apply read_ext; intros j Hj; cbn [sizeof] in Hj. apply Ho4. lia.
  - exact Hr4.
  - intros j Hj1 Hj2 Hj3. rewrite Ho4, Ho3, Ho2, Ho1 by lia. reflexivity.
Qed.

End OutputClaims.

(** ** The small audio file *)

Module ProcessorExamples.

Import CommandLine Single ProcessorSpec ProcessorSamples CodecFacts BufferClaims OutputClaims.

Lemma getInputAudio_pads_witness :
  exists out',
    getInputAudio tiny (repeat 0 8) 4 (-1) 3 = Some out'
    /\ length out' = length (repeat 0 8)
    /\ forall c i,
         0 <= c < channelCount tiny -> 0 <= i < 4 ->
         get out' (c * 4 + i)
         = if i <? 3 then
             if (0 <=? -1 + i) && (-1 + i <? inputFrameCount tiny)
             then get (inputBuffer tiny) (c * inputChannelStride tiny + -1 + i)
             else Some 0
           else get (repeat 0 8) (c * 4 + i).
Proof.
  apply (getInputAudio_pads tiny (repeat 0 8) 4 (-1) 3);
    vm_compute; repeat split; intros; discriminate.
Defined.

Lemma readInputAudio_deinterleaves_witness :
  exists buf',
    readInputAudio Int16 tiny = Some (with_inputBuffer tiny buf')
    /\ length buf' = length (inputBuffer tiny)
    /\ forall c i,
         0 <= c < channelCount tiny -> 0 <= i < inputChannelStride tiny ->
         get buf' (c * inputChannelStride tiny + i)
         = if i <? inputFrameCount tiny then
             x <- read (stored Int16) (wavData tiny)
                    ((i * channelCount tiny + c) * sample_size Int16) ;;
             Some (toFloat Int16 x)
           else get (inputBuffer tiny) (c * inputChannelStride tiny + i).
Proof.
  apply (readInputAudio_deinterleaves Int16 tiny);
    vm_compute; repeat split; intros; discriminate.
Defined.

(** The samples of the small file: 1/32768, 1/128 and 32767/32768 on the
    left, their opposites (and -1) on the right. *)
Example tiny_loaded :
  option_map inputBuffer (readInputAudio Int16 tiny)
  = Some [0x38000000; 0x3c000000; 0x3f7ffe00; 0xb8000000; 0xbc000000; 0xbf800000].
Proof. vm_compute. reflexivity. Qed.

Lemma writeSamples_interleaves_witness :
  let frames :=
    Z.min (frameCount two_frames * channelCount tiny)
          ((Z.of_nat (length (wavData tiny)) - o tiny) / sample_size Int16)
    / channelCount tiny in
  exists p',
    writeSamples true silent Int16 tiny two_frames
    = Some (p', o p' =? Z.of_nat (length (wavData p')))
    /\ written silent Int16 tiny two_frames (frames * channelCount tiny) p'
    /\ 0 <= frames <= frameCount two_frames
    /\ o p' <= Z.of_nat (length (wavData p')).
Proof.
  apply (writeSamples_interleaves silent true Int16 tiny two_frames).
  - reflexivity.
  - discriminate.
  - discriminate.
  - split; discriminate.
  - discriminate.
  - intros f c _ _. exists 0. split; [reflexivity | split; discriminate].
Defined.

Example tiny_written :
  option_map (fun r => (wavData (fst r), o (fst r), snd r))
    (writeSamples true silent Int16 tiny two_frames)
  = Some ([0; 0; 0; 0; 0; 0; 0; 0; -1; 127; 0; -128], 8, false).
Proof. vm_compute. reflexivity. Qed.

Lemma writeOutput_from_start_witness :
  writeOutput true silent leading tiny two_frames = writeChunk true silent tiny two_frames.
Proof.
  apply (proj2 (writeOutput_from_start silent leading true tiny two_frames));
    try reflexivity.
  split; discriminate.
Defined.

Lemma writeOutputFile_header_witness :
  let size := Z.of_nat (length (wavHeader tiny)) in
  let audio := Z.of_nat (length (wavData tiny)) in
  exists p' bytes,
    writeOutputFile true tiny = Some (p', bytes)
    /\ bytes = wavHeader p' ++ wavData tiny
    /\ wavData p' = wavData tiny
    /\ length (wavHeader p') = length (wavHeader tiny)
    /\ read uint32_t (wavHeader p') 4 = Some ((size + audio - 8) mod 2 ^ 32)
    /\ read uint32_t (wavHeader p') 24 = Some (output (sampleRates tiny) mod 2 ^ 32)
    /\ read uint32_t (wavHeader p') 28
       = Some (div32 (mul32 (mul32 (output (sampleRates tiny)) (channelCount tiny))
                        (bitsPerSample tiny)) 8 mod 2 ^ 32)
    /\ read uint32_t (wavHeader p') (size - 4) = Some (audio mod 2 ^ 32)
    /\ forall j,
         ~ 4 <= j < 8 -> ~ 24 <= j < 32 -> ~ size - 4 <= j < size ->
         get (wavHeader p') j = get (wavHeader tiny) j.
Proof.
  apply (writeOutputFile_header true tiny). vm_compute. discriminate.
Defined.

(** The header of the small file is the header that is written for it. *)
Example tiny_header :
  option_map snd (writeOutputFile true tiny) = Some (wavHeader tiny ++ wavData tiny).
Proof. vm_compute. reflexivity. Qed.

End ProcessorExamples.
